(** * ContractRiskScanner: the scanning and reporting pipeline of
    Scripts/risk_scanner.py, embedded and verified.

    The embedding follows the Python source function by function:
    - [PyStr]      the string operations the script uses ([str.lower],
                   [str.strip], [str.split], the [in] test, [str.join]);
    - [Rules]      the global table [RISK_RULES], an insertion-ordered dict;
    - [Scanner]    [ai_summarize_risk] and [scan_contract], written against
                   an external chat-completion service that may raise;
    - [Reports]    [save_csv_report] and [save_docx_report] up to the object
                   handed to the writer;
    - [Console]    [add_keyword], reading its answers from standard input;
    - [Listing]    [show_rules] and [remove_keyword], with [repr] of a
                   string and of a list of strings;
    - [Dashboard]  [Counter] and [generate_dashboard];
    - the PDF overlay [highlight_pdf] and the reader [read_document],
      written against the PDF and document libraries;
    - [Pipeline]   [scan_file] and [main_menu], the whole program on a
                   console, a folder of contracts and a service.

    Characters are code points below 256 (one [ascii] each); on that range
    [lower_char] and [isspace] agree with Python's [str.lower] and
    [str.isspace]. *)

From Stdlib Require Import String Ascii List Arith Bool Lia Sorted.
From Stdlib Require Import Numbers.DecimalString.
Import ListNotations.

Set Implicit Arguments.
Local Open Scope list_scope.
Local Open Scope bool_scope.

(* ===================================================================== *)
(** ** Python strings *)
(* ===================================================================== *)

Module PyStr.

Definition str := list ascii.

(** A literal of the source. *)
Definition py (s : string) : str := list_ascii_of_string s.

(** [a == b] *)
Fixpoint str_eqb (a b : str) : bool :=
  match a, b with
  | [], [] => true
  | x :: a', y :: b' => Ascii.eqb x y && str_eqb a' b'
  | _, _ => false
  end.

(** [c.lower()] for one code point below 256: the letters A-Z, and the
    Latin-1 capitals U+00C0-U+00DE without the multiplication sign U+00D7,
    move up by 32; everything else stays. *)
Definition lower_char (c : ascii) : ascii :=
  let n := nat_of_ascii c in
  if ((65 <=? n) && (n <=? 90))
     || ((192 <=? n) && (n <=? 222) && negb (n =? 215))
  then ascii_of_nat (n + 32)
  else c.

(** [s.lower()] *)
Definition lower (s : str) : str := map lower_char s.

(** [c.isspace()] below 256: TAB, LF, VT, FF, CR, FS, GS, RS, US, SPACE,
    NEL and NBSP. *)
Definition isspace (c : ascii) : bool :=
  let n := nat_of_ascii c in
  ((9 <=? n) && (n <=? 13)) || ((28 <=? n) && (n <=? 32))
  || (n =? 133) || (n =? 160).

(** [s.lstrip()], [s.rstrip()], [s.strip()] *)
Fixpoint lstrip (s : str) : str :=
  match s with
  | [] => []
  | c :: s' => if isspace c then lstrip s' else s
  end.

Definition rstrip (s : str) : str := rev (lstrip (rev s)).

Definition strip (s : str) : str := rstrip (lstrip s).

(** [s.startswith(p)] *)
Fixpoint startswith (p s : str) : bool :=
  match p, s with
  | [], _ => true
  | _ :: _, [] => false
  | a :: p', b :: s' => Ascii.eqb a b && startswith p' s'
  end.

(** [sub in s]: [sub] occurs in [s] as a contiguous run. *)
Fixpoint contains (sub s : str) : bool :=
  startswith sub s
  || match s with
     | [] => false
     | _ :: s' => contains sub s'
     end.

(** Cutting [s] at every character that satisfies [p]; the pieces between
    two cuts, before the first and after the last are all kept, empty or
    not. *)
Fixpoint split_by (p : ascii -> bool) (s : str) : list str :=
  match s with
  | [] => [[]]
  | c :: s' =>
      if p c then [] :: split_by p s'
      else match split_by p s' with
           | [] => [[c]]
           | w :: ws => (c :: w) :: ws
           end
  end.

(** [s.split(sep)] for a one-character separator. *)
Definition split (sep : ascii) (s : str) : list str :=
  split_by (Ascii.eqb sep) s.

(** [s.split()]: the maximal runs of characters that are not white space. *)
Definition split_whitespace (s : str) : list str :=
  filter (fun w => negb (str_eqb w [])) (split_by isspace s).

(** [sep.join(l)] *)
Fixpoint join (sep : str) (l : list str) : str :=
  match l with
  | [] => []
  | [w] => w
  | w :: ws => w ++ sep ++ join sep ws
  end.

(** [str(n)] for a non-negative integer. *)
Definition str_of_nat (n : nat) : str :=
  py (NilEmpty.string_of_uint (Nat.to_uint n)).

(** [sub] occurs in [s], as a proposition. *)
Definition substring (sub s : str) : Prop :=
  exists pre post, s = pre ++ sub ++ post.

(** The keyword occurs in the text when the case of letters is ignored. *)
Definition ci_contains (kw s : str) : bool :=
  contains (lower kw) (lower s).

End PyStr.
Import PyStr.

Declare Scope py_scope.
Delimit Scope py_scope with py.
Notation "'#' s" := (py s%string) (at level 1, format "'#' s") : py_scope.
Local Open Scope py_scope.

(* --------------------------------------------------------------------- *)
(** *** Facts about the string operations *)
(* --------------------------------------------------------------------- *)

Section PyStrFacts.

Lemma str_eqb_eq (a b : str) : str_eqb a b = true <-> a = b.
Proof.
  revert b. induction a as [|x a IH]; intros [|y b]; simpl;
    try (split; [discriminate | congruence]); [tauto|].
  rewrite andb_true_iff, Ascii.eqb_eq, IH.
  split; [intros [-> ->]; reflexivity | intros H; now injection H].
Qed.

Lemma str_eqb_refl (a : str) : str_eqb a a = true.
Proof. apply str_eqb_eq. reflexivity. Qed.

Lemma str_eqb_neq (a b : str) : str_eqb a b = false <-> a <> b.
Proof.
  rewrite <- str_eqb_eq. destruct (str_eqb a b); split; congruence.
Qed.

Ltac each_char c :=
  destruct c as [[] [] [] [] [] [] [] []]; vm_compute.

Lemma lower_char_idem (c : ascii) : lower_char (lower_char c) = lower_char c.
Proof. each_char c; reflexivity. Qed.

Lemma lower_idem (s : str) : lower (lower s) = lower s.
Proof.
  unfold lower. rewrite map_map. apply map_ext. apply lower_char_idem.
Qed.

Lemma lower_app (a b : str) : lower (a ++ b) = lower a ++ lower b.
Proof. apply map_app. Qed.

(** Lowering neither makes nor removes a space. *)
Lemma lower_char_space (c : ascii) :
  lower_char c = " "%char <-> c = " "%char.
Proof. each_char c; split; intros H; first [reflexivity | discriminate H]. Qed.

Lemma startswith_spec (p s : str) :
  startswith p s = true <-> exists post, s = p ++ post.
Proof.
  revert s. induction p as [|a p IH]; intros s; simpl.
  - split; [intros _; now exists s | trivial].
  - destruct s as [|b s].
    + split; [discriminate | intros [post H]; discriminate H].
    + rewrite andb_true_iff, Ascii.eqb_eq, IH. split.
      * intros [-> [post ->]]. now exists post.
      * intros [post H]. injection H as -> ->. split; [reflexivity | now exists post].
Qed.

(** The [in] test of the source decides [substring]. *)
Lemma contains_spec (sub s : str) :
  contains sub s = true <-> substring sub s.
Proof.
  unfold substring. induction s as [|c s IH].
  - simpl. rewrite orb_false_r, startswith_spec. split.
    + intros [post H]. exists [], post. exact H.
    + intros [pre [post H]]. destruct pre; simpl in H.
      * now exists post.
      * discriminate H.
  - simpl. rewrite orb_true_iff, startswith_spec, IH. split.
    + intros [[post H] | [pre [post H]]].
      * exists [], post. exact H.
      * exists (c :: pre), post. simpl. now rewrite H.
    + intros [pre [post H]]. destruct pre as [|c' pre]; simpl in H.
      * left. now exists post.
      * right. injection H as _ H. now exists pre, post.
Qed.

Lemma contains_nil (s : str) : contains [] s = true.
Proof. destruct s; reflexivity. Qed.

Lemma substring_refl (s : str) : substring s s.
Proof. exists [], []. now rewrite app_nil_r. Qed.

Lemma substring_trans (a b c : str) :
  substring a b -> substring b c -> substring a c.
Proof.
  intros [p1 [q1 ->]] [p2 [q2 ->]].
  exists (p2 ++ p1), (q1 ++ q2). now rewrite !app_assoc.
Qed.

Lemma substring_lower (a b : str) :
  substring a b -> substring (lower a) (lower b).
Proof.
  intros [p [q ->]]. exists (lower p), (lower q). now rewrite !lower_app.
Qed.

Lemma substring_In (a b : str) (c : ascii) :
  substring a b -> In c a -> In c b.
Proof.
  intros [p [q ->]] H. apply in_or_app. right. apply in_or_app. now left.
Qed.

(** On the lowercase form of a sentence the plain test and the test that
    ignores case coincide. *)
Lemma ci_contains_lower (kw s : str) :
  ci_contains kw (lower s) = contains (lower kw) (lower s).
Proof. unfold ci_contains. now rewrite lower_idem. Qed.

End PyStrFacts.

(* --------------------------------------------------------------------- *)
(** *** Facts about [split] and [join] *)
(* --------------------------------------------------------------------- *)

Section SplitFacts.

Variable p : ascii -> bool.

Lemma split_by_nonempty (s : str) : split_by p s <> [].
Proof.
  destruct s as [|c s]; simpl; [discriminate|].
  destruct (p c); [discriminate|].
  destruct (split_by p s); discriminate.
Qed.

Lemma split_by_cons_keep (c : ascii) (s : str) :
  p c = false ->
  split_by p (c :: s) = (c :: hd [] (split_by p s)) :: tl (split_by p s).
Proof.
  intros H. simpl. rewrite H.
  pose proof (split_by_nonempty s) as Hne.
  destruct (split_by p s); [congruence | reflexivity].
Qed.

Lemma split_by_cons_cut (c : ascii) (s : str) :
  p c = true -> split_by p (c :: s) = [] :: split_by p s.
Proof. intros H. simpl. now rewrite H. Qed.

(** No piece holds a cutting character. *)
Lemma split_by_pieces (s : str) :
  Forall (fun w => forall c, In c w -> p c = false) (split_by p s).
Proof.
  induction s as [|c s IH].
  - constructor; [intros c []|constructor].
  - destruct (p c) eqn:Hc.
    + rewrite split_by_cons_cut by assumption.
      constructor; [intros c' []|assumption].
    + rewrite split_by_cons_keep by assumption.
      pose proof (split_by_nonempty s) as Hne.
      destruct (split_by p s) as [|w ws]; [congruence|]. simpl.
      inversion IH as [|? ? Hw Hws]; subst.
      constructor; [|assumption].
      intros c' [<-|Hin]; [assumption | now apply Hw].
Qed.

(** One more piece than there are cutting characters. *)
Lemma split_by_length (s : str) :
  length (split_by p s) = S (length (filter p s)).
Proof.
  induction s as [|c s IH]; [reflexivity|].
  destruct (p c) eqn:Hc.
  - rewrite split_by_cons_cut by assumption. simpl. rewrite Hc. simpl. now rewrite IH.
  - rewrite split_by_cons_keep by assumption. simpl. rewrite Hc.
    pose proof (split_by_nonempty s) as Hne.
    destruct (split_by p s); [congruence|]. simpl in *. exact IH.
Qed.

End SplitFacts.

Lemma split_nonempty (sep : ascii) (s : str) : split sep s <> [].
Proof. apply split_by_nonempty. Qed.

(** Joining the pieces with the separator gives the text back. *)
Lemma join_split (sep : ascii) (s : str) : join [sep] (split sep s) = s.
Proof.
  unfold split. induction s as [|c s IH]; [reflexivity|].
  destruct (Ascii.eqb sep c) eqn:Hc.
  - rewrite split_by_cons_cut by assumption.
    apply Ascii.eqb_eq in Hc. subst c.
    pose proof (split_by_nonempty (Ascii.eqb sep) s) as Hne.
    simpl join. destruct (split_by (Ascii.eqb sep) s) eqn:E; [congruence|].
    simpl. f_equal. exact IH.
  - rewrite split_by_cons_keep by assumption.
    pose proof (split_by_nonempty (Ascii.eqb sep) s) as Hne.
    destruct (split_by (Ascii.eqb sep) s) as [|w ws] eqn:E; [congruence|].
    simpl hd. simpl tl. destruct ws as [|w' ws].
    + simpl in *. now rewrite IH.
    + simpl in *. now rewrite IH.
Qed.

Lemma split_no_sep (sep : ascii) (s : str) :
  Forall (fun w => ~ In sep w) (split sep s).
Proof.
  unfold split.
  eapply Forall_impl; [|apply split_by_pieces].
  intros w H Hin. specialize (H sep Hin). now rewrite Ascii.eqb_refl in H.
Qed.

Lemma split_length (sep : ascii) (s : str) :
  length (split sep s) = S (count_occ ascii_dec s sep).
Proof.
  unfold split. rewrite split_by_length. f_equal.
  induction s as [|c s IH]; [reflexivity|]. simpl.
  destruct (ascii_dec c sep) as [->|Hne].
  - rewrite Ascii.eqb_refl. simpl. now rewrite IH.
  - destruct (Ascii.eqb sep c) eqn:E.
    + apply Ascii.eqb_eq in E. congruence.
    + exact IH.
Qed.

(* ===================================================================== *)
(** ** The rule table *)
(* ===================================================================== *)

(** [RISK_RULES] is a Python dict from a category name to the list of its
    keywords.  A dict iterates in insertion order and holds a key once, so
    it is an association list; assigning to a key that is present replaces
    the value where the key stands, assigning to a new key appends. *)

Module Rules.

Definition dict := list (str * list str).

(** [d.get(k)] *)
Fixpoint dict_get (k : str) (d : dict) : option (list str) :=
  match d with
  | [] => None
  | (k', v) :: d' => if str_eqb k k' then Some v else dict_get k d'
  end.

(** [k in d] *)
Definition dict_mem (k : str) (d : dict) : bool :=
  match dict_get k d with
  | Some _ => true
  | None => false
  end.

(** [d[k] = v] *)
Fixpoint dict_set (k : str) (v : list str) (d : dict) : dict :=
  match d with
  | [] => [(k, v)]
  | (k', v') :: d' =>
      if str_eqb k k' then (k', v) :: d' else (k', v') :: dict_set k v d'
  end.

(** [d.items()], [d.keys()], [d.values()] *)
Definition items (d : dict) : list (str * list str) := d.
Definition keys (d : dict) : list str := map fst d.
Definition values (d : dict) : list (list str) := map snd d.

(** A table is well formed when no key stands twice. *)
Definition wf (d : dict) : Prop := NoDup (keys d).

(** The table the script starts from. *)
Definition RISK_RULES : dict :=
  [ (#"Indemnity",
      [#"indemnify"; #"hold harmless"; #"liability"; #"compensate"]);
    (#"Jurisdiction Risk",
      [#"jurisdiction"; #"governing law"; #"venue"; #"court"]);
    (#"Payment Risk",
      [#"penalty"; #"late fee"; #"interest"; #"non-payment"]);
    (#"Termination Risk",
      [#"terminate"; #"termination"; #"breach"]);
    (#"Confidentiality Risk",
      [#"confidential"; #"non-disclosure"; #"nda"]) ].

(** Every (category, keyword) pair of the table, categories in table order
    and the keywords of a category in list order. *)
Definition pairs (d : dict) : list (str * str) :=
  flat_map (fun '(cat, kws) => map (fun kw => (cat, kw)) kws) (items d).

(** The whole vocabulary, across categories. *)
Definition vocabulary (d : dict) : list str := concat (values d).

End Rules.
Import Rules.

(* ===================================================================== *)
(** ** Scanning *)
(* ===================================================================== *)

(** One entry of the list [scan_contract] returns: the dict literal with
    the keys "Risk Type", "Keyword", "Sentence", "Line Number" and
    "AI Summary". *)
Record finding := {
  Risk_Type : str;
  Keyword : str;
  Sentence : str;
  Line_Number : nat;
  AI_Summary : str
}.

(** A finding before the summary is attached. *)
Record candidate := {
  category : str;
  keyword : str;
  sentence : str;
  ordinal : nat
}.

Definition candidate_of (f : finding) : candidate :=
  {| category := Risk_Type f; keyword := Keyword f;
     sentence := Sentence f; ordinal := Line_Number f |}.

Definition attach (c : candidate) (summary : str) : finding :=
  {| Risk_Type := category c; Keyword := keyword c;
     Sentence := sentence c; Line_Number := ordinal c;
     AI_Summary := summary |}.

(** What the call to the chat-completion service, followed by reading
    [response.choices[0].message.content], comes to: the text of the
    answer, or an exception with its message. *)
Inductive response :=
| Completed (content : str)
| Raised (description : str).

(** [enumerate(l)] *)
Definition enumerate {A : Type} (l : list A) : list (nat * A) :=
  combine (seq 0 (length l)) l.

Section Scanner.

(** The service is outside the program: its answers may depend on anything
    and change from call to call.  [World] is whatever it depends on, and a
    call is a step of the world. *)
Variable World : Type.
Variable chat_completion : str -> World -> response * World.

(** Computations that talk to the service. *)
Definition IO (A : Type) : Type := World -> A * World.

Definition ret {A : Type} (a : A) : IO A := fun w => (a, w).

Definition bind {A B : Type} (m : IO A) (k : A -> IO B) : IO B :=
  fun w => let (a, w') := m w in k a w'.

Notation "x <- m ;; k" := (bind m (fun x => k))
  (at level 61, m at next level, right associativity).

(** [for x in xs: body], the body updating the loop's variables [r]. *)
Fixpoint for_each {A R : Type} (xs : list A) (body : A -> R -> IO R) (r : R)
  : IO R :=
  match xs with
  | [] => ret r
  | x :: xs' => r' <- body x r ;; for_each xs' body r'
  end.

Definition error_marker (e : str) : str := #"AI summary error: " ++ e.

(** [ai_summarize_risk(clause)]: the [try] returns the answer, the
    [except Exception as e] returns the marker built from [e]. *)
Definition ai_summarize_risk (clause : str) : IO str :=
  fun w =>
    match chat_completion clause w with
    | (Completed summary, w') => (summary, w')
    | (Raised e, w') => (error_marker e, w')
    end.

(** [scan_contract(text)], reading the table [rules]. *)
Definition scan_contract (rules : dict) (text : str) : IO (list finding) :=
  let lines := split "." text in
  for_each (enumerate lines) (fun '(i, line) results =>
    let sentence := lower (strip line) in
    for_each (items rules) (fun '(risk_label, keywords) results =>
      for_each keywords (fun kw results =>
        if contains (lower kw) sentence then
          summary <- ai_summarize_risk (strip line) ;;
          ret (results ++ [ {| Risk_Type := risk_label;
                               Keyword := kw;
                               Sentence := strip line;
                               Line_Number := i + 1;
                               AI_Summary := summary |} ])
        else ret results)
      results)
    results)
  [].

End Scanner.

Arguments ret {World A} a _.
Arguments bind {World A B} m k _.
Arguments for_each {World A R} xs body r _.

(* --------------------------------------------------------------------- *)
(** *** The two steps of the specification *)
(* --------------------------------------------------------------------- *)

(** The specification describes scanning as two components.  They are
    written here after its words, to be compared with [scan_contract]. *)

(** RuleMatcher: "For each SentenceUnit, for each RiskCategory, for each
    keyword in that category, test case-insensitive substring containment
    of the keyword within the sentence's lowercase form.  On match, emit a
    raw finding candidate carrying (category, keyword, original-cased
    sentence text, 1-based ordinal)." *)
Definition matches_of_sentence (rules : dict) (i : nat) (line : str)
  : list candidate :=
  flat_map (fun '(cat, kws) =>
    map (fun kw => {| category := cat; keyword := kw;
                      sentence := strip line; ordinal := S i |})
        (filter (fun kw => ci_contains kw (lower (strip line))) kws))
    (items rules).

Definition RuleMatcher (rules : dict) (text : str) : list candidate :=
  flat_map (fun '(i, line) => matches_of_sentence rules i line)
           (enumerate (split "." text)).

Section Enricher.

Variable World : Type.
Variable summarize : str -> World -> response * World.

(** FindingEnricher: "For each raw finding, synchronously invoke
    AiSummarizer with the sentence text and attach the returned
    explanation.  If the capability fails, ... it attaches a deterministic
    error-marker string embedding the failure description in place of a
    summary and continues to the next finding." *)
Definition summary_of (r : response) : str :=
  match r with
  | Completed content => content
  | Raised e => error_marker e
  end.

Fixpoint FindingEnricher (cands : list candidate) (w : World)
  : list finding * World :=
  match cands with
  | [] => ([], w)
  | c :: cs =>
      let (r, w1) := summarize (sentence c) w in
      let (fs, w2) := FindingEnricher cs w1 in
      (attach c (summary_of r) :: fs, w2)
  end.

Lemma FindingEnricher_app (a b : list candidate) (w : World) :
  FindingEnricher (a ++ b) w =
  let (fa, w1) := FindingEnricher a w in
  let (fb, w2) := FindingEnricher b w1 in
  (fa ++ fb, w2).
Proof.
  revert w. induction a as [|c a IH]; intros w; simpl.
  - now destruct (FindingEnricher b w).
  - destruct (summarize (sentence c) w) as [r w1].
    rewrite IH.
    destruct (FindingEnricher a w1) as [fa w2].
    now destruct (FindingEnricher b w2).
Qed.

(** Nothing is dropped, added or reordered. *)
Lemma FindingEnricher_candidates (cands : list candidate) (w : World) :
  map candidate_of (fst (FindingEnricher cands w)) = cands.
Proof.
  revert w. induction cands as [|c cs IH]; intros w; simpl; [reflexivity|].
  destruct (summarize (sentence c) w) as [r w1].
  specialize (IH w1). destruct (FindingEnricher cs w1) as [fs w2].
  simpl in *. rewrite IH. now destruct c.
Qed.

(** Every summary is what one call on the finding's sentence came to. *)
Lemma FindingEnricher_summaries (cands : list candidate) (w : World) :
  Forall (fun f => exists w1,
            AI_Summary f = summary_of (fst (summarize (Sentence f) w1)))
         (fst (FindingEnricher cands w)).
Proof.
  revert w. induction cands as [|c cs IH]; intros w; simpl; [constructor|].
  destruct (summarize (sentence c) w) as [r w1] eqn:E.
  specialize (IH w1). destruct (FindingEnricher cs w1) as [fs w2].
  simpl in *. constructor; [|exact IH].
  exists w. simpl. now rewrite E.
Qed.

End Enricher.

(* --------------------------------------------------------------------- *)
(** *** [scan_contract] is the matcher followed by the enricher *)
(* --------------------------------------------------------------------- *)

Section ScanFusion.

Variable World : Type.
Variable chat_completion : str -> World -> response * World.

Let enrich := FindingEnricher chat_completion.

(** Appending what a later part of the loop finds to what is there. *)
Definition extend (acc : list finding) (r : list finding * World)
  : list finding * World :=
  (acc ++ fst r, snd r).

Lemma extend_enrich_app (acc : list finding) (a b : list candidate) (w : World) :
  extend acc (enrich (a ++ b) w) =
  extend (acc ++ fst (enrich a w)) (enrich b (snd (enrich a w))).
Proof.
  unfold extend, enrich. rewrite FindingEnricher_app.
  destruct (FindingEnricher chat_completion a w) as [fa w1]. simpl.
  destruct (FindingEnricher chat_completion b w1) as [fb w2]. simpl.
  now rewrite app_assoc.
Qed.

Lemma keyword_loop (i : nat) (line cat : str) (kws : list str)
      (acc : list finding) (w : World) :
  for_each kws (fun kw results =>
    if contains (lower kw) (lower (strip line)) then
      bind (ai_summarize_risk chat_completion (strip line)) (fun summary =>
        ret (results ++ [ {| Risk_Type := cat; Keyword := kw;
                             Sentence := strip line; Line_Number := i + 1;
                             AI_Summary := summary |} ]))
    else ret results) acc w
  = extend acc (enrich
      (map (fun kw => {| category := cat; keyword := kw;
                         sentence := strip line; ordinal := S i |})
           (filter (fun kw => ci_contains kw (lower (strip line))) kws)) w).
Proof.
  revert acc w. induction kws as [|kw kws IH]; intros acc w.
  - simpl. unfold extend, ret. simpl. now rewrite app_nil_r.
  - simpl for_each. simpl filter. rewrite ci_contains_lower.
    unfold bind at 1.
    destruct (contains (lower kw) (lower (strip line))) eqn:Hc.
    + unfold bind at 1. unfold ai_summarize_risk at 1.
      simpl map. unfold enrich at 1. simpl FindingEnricher.
      destruct (chat_completion (strip line) w) as [r w1].
      fold enrich.
      assert (Hstep : forall s,
        ret (acc ++ [ {| Risk_Type := cat; Keyword := kw;
                         Sentence := strip line; Line_Number := i + 1;
                         AI_Summary := s |} ]) w1
        = (acc ++ [ {| Risk_Type := cat; Keyword := kw;
                       Sentence := strip line; Line_Number := i + 1;
                       AI_Summary := s |} ], w1)) by reflexivity.
      destruct r as [content|e]; rewrite Hstep, IH;
        destruct (enrich _ w1) as [fs w2]; unfold extend, attach; simpl;
        rewrite <- app_assoc; simpl; now rewrite Nat.add_1_r.
    + unfold ret at 1. apply IH.
Qed.

Lemma category_loop (i : nat) (line : str) (rules : dict)
      (acc : list finding) (w : World) :
  for_each (items rules) (fun '(risk_label, keywords) results =>
    for_each keywords (fun kw results =>
      if contains (lower kw) (lower (strip line)) then
        bind (ai_summarize_risk chat_completion (strip line)) (fun summary =>
          ret (results ++ [ {| Risk_Type := risk_label; Keyword := kw;
                               Sentence := strip line; Line_Number := i + 1;
                               AI_Summary := summary |} ]))
      else ret results) results) acc w
  = extend acc (enrich (matches_of_sentence rules i line) w).
Proof.
  unfold matches_of_sentence, items.
  revert acc w. induction rules as [|[cat kws] rules IH]; intros acc w.
  - simpl. unfold extend, ret. simpl. now rewrite app_nil_r.
  - simpl for_each. unfold bind at 1. rewrite keyword_loop.
    simpl flat_map. rewrite extend_enrich_app.
    unfold extend at 1. rewrite IH. reflexivity.
Qed.

Lemma sentence_loop (rules : dict) (ls : list (nat * str))
      (acc : list finding) (w : World) :
  for_each ls (fun '(i, line) results =>
    for_each (items rules) (fun '(risk_label, keywords) results =>
      for_each keywords (fun kw results =>
        if contains (lower kw) (lower (strip line)) then
          bind (ai_summarize_risk chat_completion (strip line)) (fun summary =>
            ret (results ++ [ {| Risk_Type := risk_label; Keyword := kw;
                                 Sentence := strip line; Line_Number := i + 1;
                                 AI_Summary := summary |} ]))
        else ret results) results) results) acc w
  = extend acc (enrich
      (flat_map (fun '(i, line) => matches_of_sentence rules i line) ls) w).
Proof.
  revert acc w. induction ls as [|[i line] ls IH]; intros acc w.
  - simpl. unfold extend, ret. simpl. now rewrite app_nil_r.
  - simpl for_each. unfold bind at 1. rewrite category_loop.
    simpl flat_map. rewrite extend_enrich_app.
    unfold extend at 1. rewrite IH. reflexivity.
Qed.

(** The loop of the source, with its accumulator and its calls to the
    service in between, computes the matches and summarises each in turn. *)
Lemma scan_contract_fusion (rules : dict) (text : str) (w : World) :
  scan_contract chat_completion rules text w
  = FindingEnricher chat_completion (RuleMatcher rules text) w.
Proof.
  unfold scan_contract, RuleMatcher. rewrite sentence_loop.
  unfold extend, enrich. simpl.
  now destruct (FindingEnricher chat_completion _ w).
Qed.

Lemma scan_contract_candidates (rules : dict) (text : str) (w : World) :
  map candidate_of (fst (scan_contract chat_completion rules text w))
  = RuleMatcher rules text.
Proof. rewrite scan_contract_fusion. apply FindingEnricher_candidates. Qed.

End ScanFusion.

(* --------------------------------------------------------------------- *)
(** *** Facts about the matcher *)
(* --------------------------------------------------------------------- *)

Section MatcherFacts.

Lemma enumerate_from {A : Type} (l : list A) (start i : nat) (x : A) :
  In (i, x) (combine (seq start (length l)) l)
  <-> start <= i /\ nth_error l (i - start) = Some x.
Proof.
  revert start. induction l as [|a l IH]; intros start; simpl.
  - split; [intros [] | intros [_ H]]. destruct (i - start); discriminate H.
  - rewrite IH. split.
    + intros [H | [Hle H]].
      * injection H as <- <-. split; [lia|]. now rewrite Nat.sub_diag.
      * split; [lia|]. replace (i - start) with (S (i - S start)) by lia.
        exact H.
    + intros [Hle H]. destruct (i - start) as [|k] eqn:E.
      * left. simpl in H. injection H as ->. f_equal. lia.
      * right. split; [lia|]. simpl in H.
        replace (i - S start) with k by lia. exact H.
Qed.

(** [enumerate] pairs every element with its index, from 0. *)
Lemma In_enumerate {A : Type} (l : list A) (i : nat) (x : A) :
  In (i, x) (enumerate l) <-> nth_error l i = Some x.
Proof.
  unfold enumerate. rewrite enumerate_from, Nat.sub_0_r.
  split; [now intros [_ H] | intros H; split; [lia | exact H]].
Qed.

Lemma enumerate_snd {A : Type} (l : list A) : map snd (enumerate l) = l.
Proof.
  unfold enumerate. generalize 0.
  induction l as [|a l IH]; intros start; simpl; [reflexivity|].
  now rewrite IH.
Qed.

Lemma enumerate_fst {A : Type} (l : list A) :
  map fst (enumerate l) = seq 0 (length l).
Proof.
  unfold enumerate. generalize 0.
  induction l as [|a l IH]; intros start; simpl; [reflexivity|].
  now rewrite IH.
Qed.

Lemma In_matches_of_sentence (rules : dict) (i : nat) (line : str)
      (c : candidate) :
  In c (matches_of_sentence rules i line)
  <-> exists cat kws kw,
        In (cat, kws) (items rules) /\ In kw kws
        /\ ci_contains kw (lower (strip line)) = true
        /\ c = {| category := cat; keyword := kw;
                  sentence := strip line; ordinal := S i |}.
Proof.
  unfold matches_of_sentence. rewrite in_flat_map. split.
  - intros [[cat kws] [Hin Hc]]. rewrite in_map_iff in Hc.
    destruct Hc as [kw [<- Hkw]]. rewrite filter_In in Hkw.
    destruct Hkw as [Hkw Hm]. now exists cat, kws, kw.
  - intros [cat [kws [kw [Hin [Hkw [Hm ->]]]]]].
    exists (cat, kws). split; [exact Hin|].
    rewrite in_map_iff. exists kw. split; [reflexivity|].
    rewrite filter_In. now split.
Qed.

(** A finding is emitted exactly when its keyword occurs in its sentence. *)
Lemma In_RuleMatcher (rules : dict) (text : str) (c : candidate) :
  In c (RuleMatcher rules text)
  <-> exists i line cat kws kw,
        nth_error (split "." text) i = Some line
        /\ In (cat, kws) (items rules) /\ In kw kws
        /\ ci_contains kw (lower (strip line)) = true
        /\ c = {| category := cat; keyword := kw;
                  sentence := strip line; ordinal := S i |}.
Proof.
  unfold RuleMatcher. rewrite in_flat_map. split.
  - intros [[i line] [Hin Hc]]. rewrite In_enumerate in Hin.
    rewrite In_matches_of_sentence in Hc.
    destruct Hc as [cat [kws [kw H]]]. now exists i, line, cat, kws, kw.
  - intros [i [line [cat [kws [kw [Hnth H]]]]]].
    exists (i, line). split; [now apply In_enumerate|].
    apply In_matches_of_sentence. now exists cat, kws, kw.
Qed.

(** Within a sentence the findings are the pairs of the table that match,
    one finding a pair, in table order. *)
Lemma matches_of_sentence_pairs (rules : dict) (i : nat) (line : str) :
  map (fun c => (category c, keyword c)) (matches_of_sentence rules i line)
  = filter (fun '(_, kw) => ci_contains kw (lower (strip line)))
           (pairs rules).
Proof.
  unfold matches_of_sentence, pairs, items.
  induction rules as [|[cat kws] rules IH]; [reflexivity|].
  simpl. rewrite map_app, filter_app, IH. f_equal.
  rewrite map_map. simpl.
  induction kws as [|kw kws IHk]; [reflexivity|]. simpl.
  destruct (ci_contains kw (lower (strip line))); simpl; now rewrite IHk.
Qed.

Lemma matches_of_sentence_ordinal (rules : dict) (i : nat) (line : str) :
  Forall (fun c => ordinal c = S i /\ sentence c = strip line)
         (matches_of_sentence rules i line).
Proof.
  apply Forall_forall. intros c Hc. apply In_matches_of_sentence in Hc.
  destruct Hc as [cat [kws [kw [_ [_ [_ ->]]]]]]. now split.
Qed.

(** As many findings as there are (sentence, category, keyword) triples
    that match. *)
Lemma RuleMatcher_length (rules : dict) (text : str) :
  length (RuleMatcher rules text)
  = list_sum (map (fun line =>
      length (filter (fun '(_, kw) => ci_contains kw (lower (strip line)))
                     (pairs rules)))
      (split "." text)).
Proof.
  unfold RuleMatcher. rewrite length_flat_map.
  rewrite <- (enumerate_snd (split "." text)) at 2. rewrite map_map.
  f_equal. apply map_ext. intros [i line]. simpl.
  rewrite <- (matches_of_sentence_pairs rules i line). now rewrite length_map.
Qed.

End MatcherFacts.

(* --------------------------------------------------------------------- *)
(** *** [split] is the only way to cut at the separator *)
(* --------------------------------------------------------------------- *)

Lemma split_by_no_cut (p : ascii -> bool) (w : str) :
  (forall c, In c w -> p c = false) -> split_by p w = [w].
Proof.
  induction w as [|c w IH]; intros H; [reflexivity|].
  rewrite split_by_cons_keep by (apply H; now left).
  rewrite IH by (intros c' Hc'; apply H; now right). reflexivity.
Qed.

Lemma split_by_app_cut (p : ascii -> bool) (w s : str) (x : ascii) :
  (forall c, In c w -> p c = false) -> p x = true ->
  split_by p (w ++ x :: s) = w :: split_by p s.
Proof.
  induction w as [|c w IH]; intros H Hx.
  - simpl. now rewrite Hx.
  - rewrite <- app_comm_cons.
    rewrite split_by_cons_keep by (apply H; now left).
    rewrite IH by (trivial; intros c' Hc'; apply H; now right). reflexivity.
Qed.

Lemma split_join (sep : ascii) (l : list str) :
  l <> [] -> Forall (fun w => ~ In sep w) l ->
  split sep (join [sep] l) = l.
Proof.
  assert (Hp : forall w, ~ In sep w -> forall c, In c w -> Ascii.eqb sep c = false).
  { intros w Hw c Hc. apply Ascii.eqb_neq. intros ->. now apply Hw. }
  unfold split. induction l as [|w l IH]; intros Hne Hall; [congruence|].
  inversion Hall as [|? ? Hw Hl]; subst.
  destruct l as [|w' l].
  - simpl. apply split_by_no_cut. now apply Hp.
  - change (join [sep] (w :: w' :: l)) with (w ++ sep :: join [sep] (w' :: l)).
    rewrite split_by_app_cut; [| now apply Hp | apply Ascii.eqb_refl].
    f_equal. apply IH; [discriminate | assumption].
Qed.

(* --------------------------------------------------------------------- *)
(** *** Order of the findings *)
(* --------------------------------------------------------------------- *)

Section MatcherOrder.

Lemma StronglySorted_app (a b : list nat) :
  StronglySorted le a -> StronglySorted le b ->
  (forall x y, In x a -> In y b -> x <= y) ->
  StronglySorted le (a ++ b).
Proof.
  induction a as [|x a IH]; intros Ha Hb Hab; [exact Hb|].
  inversion Ha as [|? ? Hsa Hxa]; subst. simpl. constructor.
  - apply IH; [assumption | assumption |].
    intros u v Hu Hv. apply Hab; [now right | assumption].
  - apply Forall_app. split; [assumption|].
    apply Forall_forall. intros y Hy. apply Hab; [now left | assumption].
Qed.

Lemma StronglySorted_const (n : nat) (l : list nat) :
  Forall (fun x => x = n) l -> StronglySorted le l.
Proof.
  induction 1 as [|x l Hx Hl IH]; constructor; [assumption|].
  subst x. eapply Forall_impl; [|exact Hl]. intros y ->. constructor.
Qed.

Variable rules : dict.

Let chunk := fun '(i, line) => matches_of_sentence rules i line.

Lemma chunk_ordinals (i : nat) (line : str) :
  Forall (fun x => x = S i) (map ordinal (matches_of_sentence rules i line)).
Proof.
  apply Forall_map.
  eapply Forall_impl; [|apply matches_of_sentence_ordinal]. now intros c [H _].
Qed.

Lemma chunks_sorted_from (l : list str) (start : nat) :
  StronglySorted le
    (map ordinal (flat_map chunk (combine (seq start (length l)) l)))
  /\ Forall (fun x => start < x)
       (map ordinal (flat_map chunk (combine (seq start (length l)) l))).
Proof.
  revert start. induction l as [|line l IH]; intros start; simpl.
  - split; constructor.
  - destruct (IH (S start)) as [Hs Hb]. rewrite map_app.
    pose proof (chunk_ordinals start line) as Hc. split.
    + apply StronglySorted_app; [eapply StronglySorted_const; eassumption | assumption |].
      intros x y Hx Hy. rewrite Forall_forall in Hc, Hb.
      specialize (Hc x Hx). specialize (Hb y Hy). cbv beta in Hc, Hb. lia.
    + apply Forall_app. split.
      * eapply Forall_impl; [|exact Hc]. intros x ->. lia.
      * eapply Forall_impl; [|exact Hb]. intros x Hx. cbv beta in Hx. lia.
Qed.

(** Findings come in document order. *)
Lemma RuleMatcher_sorted (text : str) :
  StronglySorted le (map ordinal (RuleMatcher rules text)).
Proof. unfold RuleMatcher, enumerate. apply chunks_sorted_from. Qed.

Lemma filter_all_false {A : Type} (f : A -> bool) (l : list A) :
  Forall (fun x => f x = false) l -> filter f l = [].
Proof.
  induction 1 as [|x l Hx Hl IH]; [reflexivity|]. simpl. now rewrite Hx.
Qed.

Lemma filter_all_true {A : Type} (f : A -> bool) (l : list A) :
  Forall (fun x => f x = true) l -> filter f l = l.
Proof.
  induction 1 as [|x l Hx Hl IH]; [reflexivity|]. simpl. now rewrite Hx, IH.
Qed.

Lemma chunks_of_ordinal (l : list str) (start i : nat) :
  filter (fun c => ordinal c =? S i)
         (flat_map chunk (combine (seq start (length l)) l))
  = if start <=? i
    then match nth_error l (i - start) with
         | Some line => matches_of_sentence rules i line
         | None => []
         end
    else [].
Proof.
  revert start. induction l as [|line l IH]; intros start.
  - simpl. destruct (start <=? i); [|reflexivity].
    now destruct (i - start).
  - simpl. rewrite filter_app, IH.
    pose proof (chunk_ordinals start line) as Hc.
    rewrite Forall_map in Hc.
    destruct (Nat.eq_dec start i) as [->|Hne].
    + rewrite filter_all_true.
      2:{ eapply Forall_impl; [|exact Hc]. intros c ->. apply Nat.eqb_refl. }
      rewrite Nat.leb_refl, Nat.sub_diag.
      replace (S i <=? i) with false by (symmetry; apply Nat.leb_gt; lia).
      apply app_nil_r.
    + rewrite filter_all_false.
      2:{ eapply Forall_impl; [|exact Hc]. intros c ->.
          apply Nat.eqb_neq. lia. }
      rewrite app_nil_l. destruct (Nat.leb_spec (S start) i) as [Hle|Hgt].
      * replace (start <=? i) with true by (symmetry; apply Nat.leb_le; lia).
        replace (i - start) with (S (i - S start)) by lia. reflexivity.
      * replace (start <=? i) with false by (symmetry; apply Nat.leb_gt; lia).
        reflexivity.
Qed.

(** The findings of the sentence with index [i] are its matches, in the
    order of the table. *)
Lemma RuleMatcher_of_ordinal (text : str) (i : nat) (line : str) :
  nth_error (split "." text) i = Some line ->
  filter (fun c => ordinal c =? S i) (RuleMatcher rules text)
  = matches_of_sentence rules i line.
Proof.
  intros H. unfold RuleMatcher, enumerate. rewrite chunks_of_ordinal.
  simpl. now rewrite Nat.sub_0_r, H.
Qed.

End MatcherOrder.

(* ===================================================================== *)
(** ** Reports *)
(* ===================================================================== *)

Module Reports.

Definition LF : ascii := "010"%char.

(** *** The CSV report *)

(** A value of a finding's dict: a string or an integer. *)
Inductive cell :=
| Str (s : str)
| Int (n : nat).

(** The dict literal [scan_contract] appends, keys in the order written. *)
Definition as_dict (f : finding) : list (str * cell) :=
  [ (#"Risk Type", Str (Risk_Type f));
    (#"Keyword", Str (Keyword f));
    (#"Sentence", Str (Sentence f));
    (#"Line Number", Int (Line_Number f));
    (#"AI Summary", Str (AI_Summary f)) ].

(** [pd.DataFrame(records)] for a list of dicts: the columns are the keys
    of the records in the order they first appear, and every record gives
    a row with its value under each column, or nothing where it lacks the
    key.  With no record there is no key, hence no column. *)
Record DataFrame := {
  columns : list str;
  rows : list (list (option cell))
}.

Definition lookup (k : str) (r : list (str * cell)) : option cell :=
  option_map snd (find (fun kv => str_eqb k (fst kv)) r).

Definition add_keys (cols : list str) (r : list (str * cell)) : list str :=
  fold_left (fun cols k => if existsb (str_eqb k) cols then cols
                           else cols ++ [k])
            (map fst r) cols.

Definition pd_DataFrame (records : list (list (str * cell))) : DataFrame :=
  let cols := fold_left add_keys records [] in
  {| columns := cols;
     rows := map (fun r => map (fun k => lookup k r) cols) records |}.

(** How [to_csv] writes a value. *)
Definition field (c : option cell) : str :=
  match c with
  | Some (Str s) => s
  | Some (Int n) => str_of_nat n
  | None => []
  end.

(** [df.to_csv(path, index=False)]: the line of column names, then a line
    for each row; a line is given by its fields. *)
Definition to_csv (df : DataFrame) : list (list str) :=
  columns df :: map (map field) (rows df).

(** [save_csv_report(results, filename)]: the path written and its lines. *)
Definition save_csv_report (results : list finding) (filename : str)
  : str * list (list str) :=
  let df := pd_DataFrame (map as_dict results) in
  let output_path := #"../reports/" ++ filename ++ #"_report.csv" in
  (output_path, to_csv df).

(** The five columns of a report with findings. *)
Definition report_columns : list str :=
  [ #"Risk Type"; #"Keyword"; #"Sentence"; #"Line Number"; #"AI Summary" ].

(** A table that has its header and no row. *)
Definition header_only (lines : list (list str)) : Prop :=
  lines = [report_columns].

(** *** The DOCX report *)

Record run := {
  run_text : str;
  highlighted : bool
}.

Inductive block :=
| Heading (text : str) (level : nat)
| Paragraph (runs : list run)
| PageBreak.

Definition document := list block.

Definition plain (text : str) : run :=
  {| run_text := text; highlighted := false |}.

(** [run.font.highlight_color = WD_COLOR_INDEX.YELLOW] *)
Definition set_highlight (r : run) : run :=
  {| run_text := run_text r; highlighted := true |}.

Definition add_heading (text : str) (level : nat) (doc : document) : document :=
  doc ++ [Heading text level].

Definition add_paragraph (runs : list run) (doc : document) : document :=
  doc ++ [Paragraph runs].

Definition add_page_break (doc : document) : document :=
  doc ++ [PageBreak].

(** The band of the summary, from the number of findings. *)
Definition risk_score (num_risks : nat) : str :=
  if num_risks =? 0 then #"Green"
  else if num_risks <=? 5 then #"Yellow"
  else #"Red".

(** The paragraph written for one finding. *)
Definition finding_runs (r : finding) : list run :=
  [ plain (#"Risk Type: " ++ Risk_Type r ++ [LF]);
    plain (#"Keyword: " ++ Keyword r ++ [LF]);
    plain (#"Sentence: " ++ Sentence r ++ [LF]);
    plain (#"Line Number: " ++ str_of_nat (Line_Number r) ++ [LF]);
    plain (#"AI Summary / Safer Wording:" ++ [LF] ++ AI_Summary r ++ [LF]);
    plain (concat (repeat #"-" 50)) ].

(** The run written for one word of the contract: the word and a space,
    marked when the loops over the table find a keyword in it. *)
Definition highlight_word (rules : dict) (word : str) : run :=
  let run := plain (word ++ #" ") in
  fold_left (fun run kw_list =>
    fold_left (fun run kw =>
      if contains (lower kw) (lower word) then set_highlight run else run)
      kw_list run)
    (values rules) run.

Definition highlight_paragraph (rules : dict) (para : str) : list run :=
  map (highlight_word rules) (split " " para).

(** [save_docx_report(results, original_text, filename)], reading the
    table [rules]: the path written and the document saved there. *)
Definition save_docx_report (rules : dict) (results : list finding)
           (original_text filename : str) : str * document :=
  let doc := [] in
  let doc := add_heading (#"Contract Risk Report: " ++ filename) 0 doc in
  let num_risks := length results in
  let score := risk_score num_risks in
  let doc := add_paragraph
               [plain (#"Number of risks found: " ++ str_of_nat num_risks)] doc in
  let doc := add_paragraph [plain (#"Overall Risk Score: " ++ score)] doc in
  let doc := add_heading #"Risks Found with AI Summary:" 1 doc in
  let doc := fold_left (fun doc r => add_paragraph (finding_runs r) doc)
                       results doc in
  let doc := add_page_break doc in
  let doc := add_heading #"Full Contract Text (Keywords Highlighted):" 1 doc in
  let text_paragraphs := split LF original_text in
  let doc := fold_left (fun doc para =>
                          add_paragraph (highlight_paragraph rules para) doc)
                       text_paragraphs doc in
  let output_path := #"../reports/" ++ filename ++ #"_report.docx" in
  (output_path, doc).

(** The part of the document after the last heading: the contract's text,
    a list of runs for each of its paragraphs. *)
Fixpoint after_last_heading (d : document) (acc : list (list run))
  : list (list run) :=
  match d with
  | [] => acc
  | Heading _ _ :: d' => after_last_heading d' []
  | Paragraph runs :: d' => after_last_heading d' (acc ++ [runs])
  | PageBreak :: d' => after_last_heading d' acc
  end.

Definition contract_text (doc : document) : list (list run) :=
  after_last_heading doc [].

(** What a paragraph of runs reads as, without the space that ends it. *)
Definition paragraph_text (runs : list run) : str :=
  removelast (concat (map run_text runs)).

(** The three bands of the specification and the names the report gives
    them. *)
Inductive SeverityBand := Clean | Moderate | Elevated.

Definition band_name (b : SeverityBand) : str :=
  match b with
  | Clean => #"Green"
  | Moderate => #"Yellow"
  | Elevated => #"Red"
  end.

End Reports.
Import Reports.

(* ===================================================================== *)
(** ** Rule management at the console *)
(* ===================================================================== *)

Module Console.

(** The state the menu commands work on: the global table, the lines still
    to be read from standard input, and what has been printed. *)
Record state := {
  rules : dict;
  stdin : list str;
  stdout : list str
}.

(** A command either finishes or dies of [EOFError] when [input] finds
    standard input exhausted. *)
Definition Cmd (A : Type) : Type := state -> option (A * state).

Definition ret {A : Type} (a : A) : Cmd A := fun st => Some (a, st).

Definition bind {A B : Type} (m : Cmd A) (k : A -> Cmd B) : Cmd B :=
  fun st => match m st with
            | Some (a, st') => k a st'
            | None => None
            end.

Notation "x <- m ;; k" := (bind m (fun x => k))
  (at level 61, m at next level, right associativity).
Notation "m ;;; k" := (bind m (fun _ => k))
  (at level 61, right associativity).

(** [print(msg)] *)
Definition print (msg : str) : Cmd unit :=
  fun st => Some (tt, {| rules := rules st; stdin := stdin st;
                         stdout := stdout st ++ [msg] |}).

(** [input(prompt)] *)
Definition input (prompt : str) : Cmd str :=
  fun st => match stdin st with
            | [] => None
            | line :: rest =>
                Some (line, {| rules := rules st; stdin := rest;
                               stdout := stdout st ++ [prompt] |})
            end.

Definition get_rules : Cmd dict := fun st => Some (rules st, st).

Definition put_rules (d : dict) : Cmd unit :=
  fun st => Some (tt, {| rules := d; stdin := stdin st;
                         stdout := stdout st |}).

(** [add_keyword()].  The test [category not in RISK_RULES] and the
    subscript [RISK_RULES[category]] of the source are the two branches of
    the lookup. *)
Definition add_keyword : Cmd unit :=
  category <- input #"Enter risk category (or type NEW to create a new one): " ;;
  category <- (if str_eqb (lower category) #"new" then
                 new_cat <- input #"Enter new category name: " ;;
                 RISK_RULES <- get_rules ;;
                 put_rules (dict_set new_cat [] RISK_RULES) ;;;
                 ret new_cat
               else ret category) ;;
  answer <- input #"Enter keyword to add: " ;;
  let keyword := lower answer in
  RISK_RULES <- get_rules ;;
  match dict_get category RISK_RULES with
  | None => print #"Category does not exist."
  | Some keywords =>
      put_rules (dict_set category (keywords ++ [keyword]) RISK_RULES) ;;;
      print (#"Keyword '" ++ keyword ++ #"' added to '" ++ category ++ #"'.")
  end.

End Console.
Import Console.

(* --------------------------------------------------------------------- *)
(** *** Facts about the table *)
(* --------------------------------------------------------------------- *)

Section DictFacts.

Lemma dict_get_set_same (k : str) (v : list str) (d : dict) :
  dict_get k (dict_set k v d) = Some v.
Proof.
  induction d as [|[k' v'] d IH]; simpl.
  - now rewrite str_eqb_refl.
  - destruct (str_eqb k k') eqn:E; simpl; rewrite E; [reflexivity | exact IH].
Qed.

Lemma dict_get_set_other (k k0 : str) (v : list str) (d : dict) :
  k0 <> k -> dict_get k0 (dict_set k v d) = dict_get k0 d.
Proof.
  intros Hne. induction d as [|[k' v'] d IH]; simpl.
  - apply str_eqb_neq in Hne. now rewrite Hne.
  - destruct (str_eqb k k') eqn:E; simpl.
    + apply str_eqb_eq in E. subst k'.
      apply str_eqb_neq in Hne. now rewrite Hne.
    + now rewrite IH.
Qed.

(** Assigning to a key that is present keeps the keys and their order. *)
Lemma dict_set_keys (k : str) (v v0 : list str) (d : dict) :
  dict_get k d = Some v0 -> keys (dict_set k v d) = keys d.
Proof.
  unfold keys. induction d as [|[k' v'] d IH]; simpl; [discriminate|].
  destruct (str_eqb k k') eqn:E; simpl; [reflexivity|].
  intros H. now rewrite IH.
Qed.

End DictFacts.

(* --------------------------------------------------------------------- *)
(** *** Facts about the reports *)
(* --------------------------------------------------------------------- *)

Section ReportFacts.

Lemma fold_left_snoc {A B : Type} (f : A -> B) (xs : list A) (acc : list B) :
  fold_left (fun acc x => acc ++ [f x]) xs acc = acc ++ map f xs.
Proof.
  revert acc. induction xs as [|x xs IH]; intros acc; simpl.
  - now rewrite app_nil_r.
  - rewrite IH, <- app_assoc. reflexivity.
Qed.

(** The document [save_docx_report] saves, block by block. *)
Lemma save_docx_report_blocks (rules : dict) (results : list finding)
      (original_text filename : str) :
  snd (save_docx_report rules results original_text filename)
  = [ Heading (#"Contract Risk Report: " ++ filename) 0;
      Paragraph [plain (#"Number of risks found: "
                        ++ str_of_nat (length results))];
      Paragraph [plain (#"Overall Risk Score: "
                        ++ risk_score (length results))];
      Heading #"Risks Found with AI Summary:" 1 ]
    ++ map (fun r => Paragraph (finding_runs r)) results
    ++ [ PageBreak;
         Heading #"Full Contract Text (Keywords Highlighted):" 1 ]
    ++ map (fun para => Paragraph (highlight_paragraph rules para))
           (split LF original_text).
Proof.
  unfold save_docx_report, add_paragraph, add_heading, add_page_break.
  cbv zeta. unfold snd.
  rewrite (fold_left_snoc (fun para => Paragraph (highlight_paragraph rules para))).
  rewrite (fold_left_snoc (fun r => Paragraph (finding_runs r))).
  rewrite <- !app_assoc. reflexivity.
Qed.

Lemma after_last_heading_paragraphs (ps : list (list run)) (acc : list (list run)) :
  after_last_heading (map Paragraph ps) acc = acc ++ ps.
Proof.
  revert acc. induction ps as [|p ps IH]; intros acc; simpl.
  - now rewrite app_nil_r.
  - rewrite IH, <- app_assoc. reflexivity.
Qed.

Lemma after_last_heading_app_heading (d d' : document) (text : str) (level : nat)
      (acc : list (list run)) :
  after_last_heading (d ++ Heading text level :: d') acc
  = after_last_heading d' [].
Proof.
  revert acc. induction d as [|b d IH]; intros acc; simpl; [reflexivity|].
  destruct b; apply IH.
Qed.

(** The contract's text in the saved document: a paragraph for each line
    of the text, a run for each word. *)
Lemma after_last_heading_tail (a b : document) (text : str) (level : nat)
      (ps : list (list run)) (acc : list (list run)) :
  after_last_heading
    (a ++ b ++ [PageBreak; Heading text level] ++ map Paragraph ps) acc
  = ps.
Proof.
  change ([PageBreak; Heading text level] ++ map Paragraph ps)
    with ([PageBreak] ++ Heading text level :: map Paragraph ps).
  rewrite !app_assoc, after_last_heading_app_heading.
  apply after_last_heading_paragraphs.
Qed.

Lemma contract_text_saved (rules : dict) (results : list finding)
      (original_text filename : str) :
  contract_text (snd (save_docx_report rules results original_text filename))
  = map (highlight_paragraph rules) (split LF original_text).
Proof.
  rewrite save_docx_report_blocks. unfold contract_text.
  rewrite <- (map_map (highlight_paragraph rules) Paragraph).
  apply after_last_heading_tail.
Qed.

(** The two loops over the table mark the run exactly when some keyword
    of some category occurs in the word, case ignored. *)
Lemma highlight_word_spec (rules : dict) (word : str) :
  run_text (highlight_word rules word) = word ++ #" "
  /\ highlighted (highlight_word rules word)
     = existsb (fun kw => ci_contains kw word) (vocabulary rules).
Proof.
  unfold highlight_word, vocabulary, ci_contains.
  assert (Hin : forall kws r,
    run_text (fold_left (fun run kw =>
        if contains (lower kw) (lower word) then set_highlight run else run)
        kws r) = run_text r
    /\ highlighted (fold_left (fun run kw =>
        if contains (lower kw) (lower word) then set_highlight run else run)
        kws r)
       = highlighted r
         || existsb (fun kw => contains (lower kw) (lower word)) kws).
  { induction kws as [|kw kws IH]; intros r; simpl.
    - now rewrite orb_false_r.
    - destruct (IH (if contains (lower kw) (lower word)
                    then set_highlight r else r)) as [Ht Hh].
      rewrite Ht, Hh.
      destruct (contains (lower kw) (lower word)); simpl.
      + now rewrite orb_true_r.
      + now split. }
  assert (Hout : forall ls r,
    run_text (fold_left (fun run kw_list => fold_left (fun run kw =>
        if contains (lower kw) (lower word) then set_highlight run else run)
        kw_list run) ls r) = run_text r
    /\ highlighted (fold_left (fun run kw_list => fold_left (fun run kw =>
        if contains (lower kw) (lower word) then set_highlight run else run)
        kw_list run) ls r)
       = highlighted r
         || existsb (fun kw => contains (lower kw) (lower word)) (concat ls)).
  { induction ls as [|kws ls IH]; intros r; simpl.
    - now rewrite orb_false_r.
    - destruct (IH (fold_left (fun run kw =>
        if contains (lower kw) (lower word) then set_highlight run else run)
        kws r)) as [Ht Hh].
      destruct (Hin kws r) as [Ht' Hh'].
      rewrite Ht, Hh, Ht', Hh', existsb_app, orb_assoc. now split. }
  destruct (Hout (values rules) (plain (word ++ #" "))) as [Ht Hh].
  cbv zeta. split; [exact Ht | exact Hh].
Qed.

Lemma concat_with_sep (sep : str) (l : list str) :
  l <> [] -> concat (map (fun w => w ++ sep) l) = join sep l ++ sep.
Proof.
  induction l as [|w l IH]; intros Hne; [congruence|].
  destruct l as [|w' l].
  - simpl. now rewrite app_nil_r.
  - change (join sep (w :: w' :: l)) with (w ++ sep ++ join sep (w' :: l)).
    simpl map. simpl concat. simpl in IH. rewrite IH by discriminate.
    now rewrite <- !app_assoc.
Qed.

(** The runs of a paragraph spell the paragraph, word by word. *)
Lemma highlight_paragraph_text (rules : dict) (para : str) :
  map run_text (highlight_paragraph rules para)
  = map (fun w => w ++ #" ") (split " " para)
  /\ paragraph_text (highlight_paragraph rules para) = para.
Proof.
  assert (H : map run_text (highlight_paragraph rules para)
              = map (fun w => w ++ #" ") (split " " para)).
  { unfold highlight_paragraph. rewrite map_map. apply map_ext.
    intros w. apply highlight_word_spec. }
  split; [exact H|].
  unfold paragraph_text. rewrite H.
  rewrite concat_with_sep by apply split_nonempty.
  change #" " with [" "%char]. rewrite join_split.
  apply removelast_last.
Qed.

(** A word of a paragraph holds no space. *)
Lemma words_no_space (para : str) :
  Forall (fun w => ~ In " "%char w) (split " " para).
Proof. apply split_no_sep. Qed.

(** A keyword with a space in it occurs in no text without one. *)
Lemma spaced_keyword_never_in_word (kw word : str) :
  In " "%char kw -> ~ In " "%char word -> ci_contains kw word = false.
Proof.
  intros Hkw Hword. unfold ci_contains.
  destruct (contains (lower kw) (lower word)) eqn:E; [|reflexivity].
  exfalso. apply contains_spec in E.
  assert (Hl : In " "%char (lower kw)).
  { unfold lower. apply in_map_iff. exists " "%char. now split. }
  pose proof (@substring_In _ _ _ E Hl) as Hw.
  unfold lower in Hw. apply in_map_iff in Hw. destruct Hw as [c [Hc Hin]].
  apply (proj1 (lower_char_space c)) in Hc. subst c. contradiction.
Qed.

(** *** Cutting at two levels, and cutting finer *)

Lemma split_by_two_levels (p q : ascii -> bool) (s : str) :
  concat (map (split_by q) (split_by p s))
  = split_by (fun c => p c || q c) s.
Proof.
  induction s as [|c s IH]; [reflexivity|].
  pose proof (split_by_nonempty p s) as Hp.
  destruct (p c) eqn:Ep.
  - rewrite (@split_by_cons_cut p c _ Ep).
    rewrite split_by_cons_cut by (now rewrite Ep).
    simpl. now rewrite IH.
  - rewrite (@split_by_cons_keep p c _ Ep).
    destruct (split_by p s) as [|h t] eqn:Es; [congruence|].
    simpl hd. simpl tl.
    change (map (split_by q) ((c :: h) :: t))
      with (split_by q (c :: h) :: map (split_by q) t).
    change (concat (split_by q (c :: h) :: map (split_by q) t))
      with (split_by q (c :: h) ++ concat (map (split_by q) t)).
    change (concat (map (split_by q) (h :: t)))
      with (split_by q h ++ concat (map (split_by q) t)) in IH.
    pose proof (split_by_nonempty q h) as Hq.
    destruct (q c) eqn:Eq.
    + rewrite (@split_by_cons_cut q c _ Eq).
      rewrite split_by_cons_cut by (now rewrite Ep, Eq).
      simpl. now rewrite IH.
    + rewrite (@split_by_cons_keep q c _ Eq).
      rewrite split_by_cons_keep by (now rewrite Ep, Eq).
      rewrite <- IH.
      destruct (split_by q h) as [|hq tq]; [congruence|]. reflexivity.
Qed.

Lemma substring_cons (w w' : str) (c : ascii) :
  substring w w' -> substring w (c :: w').
Proof. intros [pre [post ->]]. now exists (c :: pre), post. Qed.

Lemma substring_nil (w : str) : substring [] w.
Proof. now exists [], w. Qed.

(** When [q] cuts wherever [p] does, every piece cut by [q] lies within a
    piece cut by [p]. *)
Lemma split_by_finer (p q : ascii -> bool) (s : str) :
  (forall c, p c = true -> q c = true) ->
  (exists post, hd [] (split_by p s) = hd [] (split_by q s) ++ post)
  /\ Forall (fun w => exists w', In w' (split_by p s) /\ substring w w')
            (split_by q s).
Proof.
  intros Hpq. induction s as [|c s [[post Hhd] Hall]].
  - simpl. split; [now exists []|].
    constructor; [|constructor]. exists []. split; [now left | apply substring_refl].
  - pose proof (split_by_nonempty p s) as Hp.
    pose proof (split_by_nonempty q s) as Hq.
    destruct (split_by p s) as [|hp tp] eqn:Esp; [congruence|].
    destruct (split_by q s) as [|hq tq] eqn:Esq; [congruence|].
    simpl in Hhd. subst hp.
    assert (Hlift : forall x, Forall (fun w => exists w',
               In w' ((x :: hq ++ post) :: tp) /\ substring w w') (hq :: tq)).
    { intros x. eapply Forall_impl; [|exact Hall].
      intros w [w' [[<-|Hin] Hsub]].
      - exists (x :: hq ++ post). split; [now left | now apply substring_cons].
      - exists w'. split; [now right | assumption]. }
    destruct (q c) eqn:Eq.
    + rewrite (@split_by_cons_cut q c _ Eq), Esq.
      destruct (p c) eqn:Ep.
      * rewrite (@split_by_cons_cut p c _ Ep), Esp. split; [now exists []|].
        constructor.
        -- exists []. split; [now left | apply substring_refl].
        -- eapply Forall_impl; [|exact Hall].
           intros w [w' [Hin Hsub]]. exists w'. split; [now right | assumption].
      * rewrite (@split_by_cons_keep p c _ Ep), Esp. simpl hd. simpl tl.
        split; [now exists (c :: hq ++ post)|].
        constructor; [|apply Hlift].
        exists (c :: hq ++ post). split; [now left | apply substring_nil].
    + assert (Ep : p c = false).
      { destruct (p c) eqn:Ep; [|reflexivity]. apply Hpq in Ep. congruence. }
      rewrite (@split_by_cons_keep q c _ Eq), Esq.
      rewrite (@split_by_cons_keep p c _ Ep), Esp. simpl hd. simpl tl.
      split; [now exists post|].
      specialize (Hlift c). inversion Hlift as [|? ? _ Htq]; subst.
      constructor; [|exact Htq].
      exists (c :: hq ++ post). split; [now left|].
      exists [], post. reflexivity.
Qed.

(** The words of the contract, as [save_docx_report] cuts them: the lines
    of the text, each cut at its spaces. *)
Definition report_words (text : str) : list str :=
  concat (map (split " ") (split LF text)).

(** Every run of characters between white space lies within one word of
    the report. *)
Lemma token_within_word (text token : str) :
  In token (split_whitespace text) ->
  exists word, In word (report_words text) /\ substring token word.
Proof.
  unfold split_whitespace, report_words, split. intros H.
  apply filter_In in H. destruct H as [H _].
  rewrite split_by_two_levels.
  destruct (split_by_finer
              (fun c => Ascii.eqb LF c || Ascii.eqb " " c) isspace text)
    as [_ Hall].
  - intros c Hc. apply orb_true_iff in Hc.
    destruct Hc as [Hc|Hc]; apply Ascii.eqb_eq in Hc; subst c; reflexivity.
  - rewrite Forall_forall in Hall. apply Hall. exact H.
Qed.

End ReportFacts.

(* --------------------------------------------------------------------- *)
(** *** Facts about the table of the CSV report *)
(* --------------------------------------------------------------------- *)

Section TableFacts.

(** The line of the CSV report for one finding. *)
Definition row_of (f : finding) : list str :=
  [ Risk_Type f; Keyword f; Sentence f;
    str_of_nat (Line_Number f); AI_Summary f ].

Lemma add_keys_first (f : finding) : add_keys [] (as_dict f) = report_columns.
Proof. reflexivity. Qed.

Lemma add_keys_again (f : finding) :
  add_keys report_columns (as_dict f) = report_columns.
Proof. reflexivity. Qed.

Lemma columns_stay (results : list finding) :
  fold_left add_keys (map as_dict results) report_columns = report_columns.
Proof.
  induction results as [|f results IH]; [reflexivity|].
  simpl fold_left. rewrite add_keys_again. exact IH.
Qed.

(** No finding, no column; otherwise the five keys of the dict literal. *)
Lemma DataFrame_columns (results : list finding) :
  columns (pd_DataFrame (map as_dict results))
  = match results with
    | [] => []
    | _ :: _ => report_columns
    end.
Proof.
  destruct results as [|f results]; [reflexivity|].
  unfold pd_DataFrame. simpl columns. simpl fold_left.
  rewrite add_keys_first. apply columns_stay.
Qed.

Lemma DataFrame_rows (results : list finding) :
  map (map field) (rows (pd_DataFrame (map as_dict results)))
  = map row_of results.
Proof.
  pose proof (DataFrame_columns results) as Hc.
  unfold pd_DataFrame in *. simpl in *. rewrite Hc.
  destruct results as [|f0 results]; [reflexivity|].
  rewrite !map_map. apply map_ext. intros f. reflexivity.
Qed.

Lemma save_csv_report_lines (results : list finding) (filename : str) :
  snd (save_csv_report results filename)
  = match results with
    | [] => []
    | _ :: _ => report_columns
    end :: map row_of results.
Proof.
  unfold save_csv_report. cbv zeta. unfold snd, to_csv.
  now rewrite DataFrame_columns, DataFrame_rows.
Qed.

End TableFacts.

(* --------------------------------------------------------------------- *)
(** *** Facts about dropping a keyword from the table *)
(* --------------------------------------------------------------------- *)

Section DropKeyword.

(** The table without the keyword [kw], in every category. *)
Definition without_keyword (kw : str) (d : dict) : dict :=
  map (fun '(cat, kws) => (cat, filter (fun k => negb (str_eqb k kw)) kws)) d.

Lemma vocabulary_without (kw : str) (d : dict) :
  vocabulary (without_keyword kw d)
  = filter (fun k => negb (str_eqb k kw)) (vocabulary d).
Proof.
  unfold vocabulary, values, without_keyword.
  induction d as [|[cat kws] d IH]; [reflexivity|].
  simpl. rewrite filter_app. f_equal. exact IH.
Qed.

Lemma existsb_without (f : str -> bool) (kw : str) (l : list str) :
  f kw = false ->
  existsb f (filter (fun k => negb (str_eqb k kw)) l) = existsb f l.
Proof.
  intros Hf. induction l as [|k l IH]; [reflexivity|]. simpl.
  destruct (str_eqb k kw) eqn:E; simpl.
  - apply str_eqb_eq in E. subst k. now rewrite Hf.
  - now rewrite IH.
Qed.

Lemma run_eq (a b : run) :
  run_text a = run_text b -> highlighted a = highlighted b -> a = b.
Proof. destruct a, b. simpl. now intros -> ->. Qed.

Lemma highlight_word_without (d : dict) (kw word : str) :
  ci_contains kw word = false ->
  highlight_word (without_keyword kw d) word = highlight_word d word.
Proof.
  intros H.
  destruct (highlight_word_spec d word) as [Ht Hh].
  destruct (highlight_word_spec (without_keyword kw d) word) as [Ht' Hh'].
  apply run_eq; [congruence|].
  rewrite Hh, Hh', vocabulary_without.
  now apply existsb_without.
Qed.

End DropKeyword.

(* --------------------------------------------------------------------- *)
(** *** The model on small inputs *)
(* --------------------------------------------------------------------- *)

Example split_keeps_empty_pieces :
  split "." #"a.b..c." = [#"a"; #"b"; []; #"c"; []].
Proof. reflexivity. Qed.

Example split_of_empty : split "." [] = [[]].
Proof. reflexivity. Qed.

Example strip_both_ends : strip (LF :: #"  Late Fee ") = #"Late Fee".
Proof. reflexivity. Qed.

Example lower_letters_only : lower #"Non-Payment 30%" = #"non-payment 30%".
Proof. reflexivity. Qed.

Example empty_occurs_everywhere : contains [] #"abc" = true.
Proof. reflexivity. Qed.

Example split_whitespace_runs :
  split_whitespace (#" a  b" ++ [LF] ++ #"c ") = [#"a"; #"b"; #"c"].
Proof. reflexivity. Qed.

Example str_of_nat_decimal : str_of_nat 120 = #"120".
Proof. reflexivity. Qed.

(** One sentence, two keywords of one category: two findings. *)
Example two_findings_in_one_sentence :
  RuleMatcher RISK_RULES #"Termination follows a Breach"
  = [ {| category := #"Termination Risk"; keyword := #"termination";
         sentence := #"Termination follows a Breach"; ordinal := 1 |};
      {| category := #"Termination Risk"; keyword := #"breach";
         sentence := #"Termination follows a Breach"; ordinal := 1 |} ].
Proof. vm_compute. reflexivity. Qed.

(** A full stop inside a number cuts as well. *)
Example decimal_point_cuts :
  map ordinal (RuleMatcher RISK_RULES #"Fee of 1.5 percent. Late fee applies")
  = [3].
Proof. vm_compute. reflexivity. Qed.

(* ===================================================================== *)
(** ** The claims *)
(* ===================================================================== *)

(** C1.  Whatever the text, the table and the answers of the service, the
    scan cuts the text at every full stop and nowhere else (the sentences
    joined by full stops are the text, none holds a full stop, and no other
    such cutting exists).  A finding for sentence number i+1, category and
    keyword is in the result exactly when the keyword, case ignored, occurs
    in the lowercase form of the trimmed sentence; within a sentence every
    pair of the table that matches gives one finding, none merged, so the
    findings are as many as the matching (sentence, category, keyword)
    triples; the ordinal of a finding is the sentence's index counted
    from 1. *)
Theorem scan_emits_one_finding_per_match :
  forall (World : Type) (chat_completion : str -> World -> response * World)
         (rules : dict) (text : str) (w : World),
    let lines := split "." text in
    let found :=
      map candidate_of (fst (scan_contract chat_completion rules text w)) in
    (join ["."%char] lines = text
     /\ Forall (fun line => ~ In "."%char line) lines
     /\ length lines = S (count_occ ascii_dec text "."%char)
     /\ (forall l, l <> [] -> Forall (fun line => ~ In "."%char line) l ->
                   join ["."%char] l = text -> l = lines))
    /\ (forall c, In c found <->
          exists i line cat kws kw,
            nth_error lines i = Some line
            /\ In (cat, kws) (items rules) /\ In kw kws
            /\ ci_contains kw (lower (strip line)) = true
            /\ c = {| category := cat; keyword := kw;
                      sentence := strip line; ordinal := i + 1 |})
    /\ (forall i line, nth_error lines i = Some line ->
          map (fun c => (category c, keyword c))
              (filter (fun c => ordinal c =? i + 1) found)
          = filter (fun '(_, kw) => ci_contains kw (lower (strip line)))
                   (pairs rules))
    /\ length found
       = list_sum (map (fun line =>
           length (filter (fun '(_, kw) => ci_contains kw (lower (strip line)))
                          (pairs rules))) lines).
Proof.
  intros World chat_completion rules text w lines found.
  assert (Hfound : found = RuleMatcher rules text)
    by apply scan_contract_candidates.
  split; [|split; [|split]].
  - split; [apply join_split|].
    split; [apply split_no_sep|].
    split; [apply split_length|].
    intros l Hne Hall Hjoin. subst lines. rewrite <- Hjoin.
    symmetry. now apply split_join.
  - intros c. rewrite Hfound, In_RuleMatcher.
    split; intros [i [line [cat [kws [kw H]]]]]; exists i, line, cat, kws, kw;
      rewrite Nat.add_1_r in *; exact H.
  - intros i line Hnth. rewrite Hfound, Nat.add_1_r.
    rewrite (RuleMatcher_of_ordinal rules text i Hnth).
    apply matches_of_sentence_pairs.
  - rewrite Hfound. apply RuleMatcher_length.
Qed.

(** C2.  The band written in the report depends on the number of findings
    only: Clean (written Green) exactly for 0, Moderate (Yellow) exactly
    for 1 to 5, Elevated (Red) exactly for 6 and more; so 0 gives Clean,
    5 gives Moderate and 6 gives Elevated. *)
Theorem risk_score_bands :
  forall (n : nat),
    (risk_score n = band_name Clean <-> n = 0)
    /\ (risk_score n = band_name Moderate <-> 1 <= n <= 5)
    /\ (risk_score n = band_name Elevated <-> 6 <= n)
    /\ (risk_score 0 = band_name Clean
        /\ risk_score 5 = band_name Moderate
        /\ risk_score 6 = band_name Elevated)
    /\ (forall rules results text filename,
          length results = n ->
          nth_error (snd (save_docx_report rules results text filename)) 2
          = Some (Paragraph [plain (#"Overall Risk Score: " ++ risk_score n)])).
Proof.
  intros n. unfold risk_score.
  destruct (Nat.eqb_spec n 0) as [H0|H0];
    [|destruct (Nat.leb_spec n 5) as [H5|H5]].
  - split; [|split; [|split; [|split]]].
    + now split.
    + split; [discriminate | lia].
    + split; [discriminate | lia].
    + repeat split.
    + intros rules results text filename <-.
      rewrite save_docx_report_blocks. simpl. unfold risk_score.
      now rewrite H0.
  - split; [|split; [|split; [|split]]].
    + split; [discriminate | lia].
    + split; [lia | reflexivity].
    + split; [discriminate | lia].
    + repeat split.
    + intros rules results text filename <-.
      rewrite save_docx_report_blocks. simpl. unfold risk_score.
      destruct (Nat.eqb_spec (length results) 0); [lia|].
      destruct (Nat.leb_spec (length results) 5); [reflexivity | lia].
  - split; [|split; [|split; [|split]]].
    + split; [discriminate | lia].
    + split; [discriminate | lia].
    + split; [lia | reflexivity].
    + repeat split.
    + intros rules results text filename <-.
      rewrite save_docx_report_blocks. simpl. unfold risk_score.
      destruct (Nat.eqb_spec (length results) 0); [lia|].
      destruct (Nat.leb_spec (length results) 5); [lia | reflexivity].
Qed.

(** C3.  Whatever the service does at each call, answer or raise, the scan
    goes on to its end and its result has one finding for each match, in
    the order of the matches: no match is dropped, none is added.  The
    summary of a finding is what the call on its sentence gave; when the
    call raised it is the marker "AI summary error: " followed by the
    description of the failure, a fixed function of that description.  This
    holds as well when every call raises: then every finding carries a
    marker and the result is as long as the list of matches. *)
Theorem summarizer_failure_is_contained :
  forall (World : Type) (chat_completion : str -> World -> response * World)
         (rules : dict) (text : str) (w : World),
    let raw := RuleMatcher rules text in
    let enriched := fst (scan_contract chat_completion rules text w) in
    scan_contract chat_completion rules text w
      = FindingEnricher chat_completion raw w
    /\ map candidate_of enriched = raw
    /\ length enriched = length raw
    /\ Forall (fun f => exists w1,
         match fst (chat_completion (Sentence f) w1) with
         | Completed content => AI_Summary f = content
         | Raised e => AI_Summary f = #"AI summary error: " ++ e
                       /\ substring e (AI_Summary f)
         end) enriched
    /\ ((forall clause w1, exists e,
           fst (chat_completion clause w1) = Raised e) ->
        length enriched = length raw
        /\ Forall (fun f => exists e, AI_Summary f = error_marker e) enriched).
Proof.
  intros World chat_completion rules text w raw enriched.
  assert (Hc : map candidate_of enriched = raw)
    by apply scan_contract_candidates.
  assert (Hlen : length enriched = length raw)
    by (rewrite <- Hc; symmetry; apply length_map).
  assert (Hs : Forall (fun f => exists w1,
      AI_Summary f = summary_of (fst (chat_completion (Sentence f) w1)))
      enriched).
  { subst enriched. rewrite scan_contract_fusion.
    apply FindingEnricher_summaries. }
  split; [apply scan_contract_fusion|].
  split; [exact Hc|]. split; [exact Hlen|]. split.
  - eapply Forall_impl; [|exact Hs]. intros f [w1 H]. exists w1.
    destruct (fst (chat_completion (Sentence f) w1)) as [content|e];
      simpl in H; [exact H|].
    split; [exact H|]. rewrite H. unfold error_marker.
    exists #"AI summary error: ", []. now rewrite app_nil_r.
  - intros Hfail. split; [exact Hlen|].
    eapply Forall_impl; [|exact Hs]. intros f [w1 H].
    destruct (Hfail (Sentence f) w1) as [e He]. exists e.
    now rewrite H, He.
Qed.

(** C4 as stated fails.  The scan is not a pure function of the text and
    the table: it calls the service for each finding, which leaves the
    service in another state, and the findings carry what the service
    answered.  The same text and table, scanned once while the service
    answers and once while it refuses, give two different lists of
    findings. *)
Lemma scan_findings_change_with_the_service :
  let service := fun (_ : str) (busy : bool) =>
    (if busy then Raised #"rate limit" else Completed #"The vendor pays",
     negb busy) in
  let text := #"The Vendor shall indemnify the Client." in
  map AI_Summary (fst (scan_contract service RISK_RULES text false))
    = [#"The vendor pays"]
  /\ map AI_Summary (fst (scan_contract service RISK_RULES text true))
     = [#"AI summary error: rate limit"]
  /\ fst (scan_contract service RISK_RULES text false)
     <> fst (scan_contract service RISK_RULES text true)
  /\ snd (scan_contract service RISK_RULES text false) = true.
Proof.
  intros service text.
  split; [vm_compute; reflexivity|]. split; [vm_compute; reflexivity|].
  split; [vm_compute; discriminate | vm_compute; reflexivity].
Qed.

Lemma findings_equal_up_to_summary (l l' : list finding) :
  map candidate_of l = map candidate_of l' ->
  map AI_Summary l = map AI_Summary l' -> l = l'.
Proof.
  revert l'. induction l as [|f l IH]; intros [|g l'] Hc Hs;
    try discriminate; [reflexivity|].
  destruct f, g. cbn in Hc, Hs.
  inversion Hc. inversion Hs. subst. f_equal. now apply IH.
Qed.

(** C4, amended.  Two scans of the same text with the same table agree on
    everything but the summaries, whatever service each of them talks to
    and whatever it answers: they give findings with the same category,
    keyword, sentence and ordinal, in the same order, these being a
    function of the text and the table alone; the summary of a finding is
    what the call made for it returned, so two scans whose summaries are
    the same give the same findings.  The findings come in document order,
    ordinals never decreasing, and the findings of one sentence follow the
    table: categories in the table's order, the keywords of a category in
    their list's order. *)
Theorem matcher_is_deterministic_and_ordered :
  forall (World1 World2 : Type)
         (service1 : str -> World1 -> response * World1)
         (service2 : str -> World2 -> response * World2)
         (rules : dict) (text : str) (w1 : World1) (w2 : World2),
    let found1 := map candidate_of (fst (scan_contract service1 rules text w1)) in
    let found2 := map candidate_of (fst (scan_contract service2 rules text w2)) in
    found1 = found2
    /\ found1 = RuleMatcher rules text
    /\ (map AI_Summary (fst (scan_contract service1 rules text w1))
        = map AI_Summary (fst (scan_contract service2 rules text w2)) ->
        fst (scan_contract service1 rules text w1)
        = fst (scan_contract service2 rules text w2))
    /\ StronglySorted le (map ordinal found1)
    /\ (forall i line, nth_error (split "." text) i = Some line ->
          map (fun c => (category c, keyword c))
              (filter (fun c => ordinal c =? S i) found1)
          = filter (fun '(_, kw) => contains (lower kw) (lower (strip line)))
                   (pairs rules)).
Proof.
  intros World1 World2 service1 service2 rules text w1 w2 found1 found2.
  assert (H1 : found1 = RuleMatcher rules text)
    by apply scan_contract_candidates.
  assert (H2 : found2 = RuleMatcher rules text)
    by apply scan_contract_candidates.
  split; [congruence|]. split; [exact H1|]. split; [|split].
  - apply findings_equal_up_to_summary. subst found1 found2. congruence.
  - rewrite H1. apply RuleMatcher_sorted.
  - intros i line Hnth. rewrite H1.
    rewrite (RuleMatcher_of_ordinal rules text i Hnth).
    rewrite matches_of_sentence_pairs. apply filter_ext.
    intros [cat kw]. apply ci_contains_lower.
Qed.

(** C9.  With the table the script starts from, the text "The Vendor shall
    indemnify the Client. Payment is due within 30 days." gives exactly one
    finding: category Indemnity, keyword indemnify, sentence number 1. *)
Theorem scan_of_the_indemnity_example :
  forall (World : Type) (chat_completion : str -> World -> response * World)
         (w : World),
    exists summary,
      fst (scan_contract chat_completion RISK_RULES
             #"The Vendor shall indemnify the Client. Payment is due within 30 days."
             w)
      = [ {| Risk_Type := #"Indemnity";
             Keyword := #"indemnify";
             Sentence := #"The Vendor shall indemnify the Client";
             Line_Number := 1;
             AI_Summary := summary |} ].
Proof.
  intros World chat_completion w. rewrite scan_contract_fusion.
  assert (H : RuleMatcher RISK_RULES
      #"The Vendor shall indemnify the Client. Payment is due within 30 days."
    = [ {| category := #"Indemnity"; keyword := #"indemnify";
           sentence := #"The Vendor shall indemnify the Client";
           ordinal := 1 |} ]) by (vm_compute; reflexivity).
  rewrite H. cbn [FindingEnricher sentence].
  destruct (chat_completion #"The Vendor shall indemnify the Client" w)
    as [r w1].
  exists (summary_of r). reflexivity.
Qed.

(** C5 as stated fails.  Adding "indemnify" once more to "Indemnity" is
    accepted, and the category then lists the keyword twice: the table is
    not what it was, and a sentence with the word gives two findings where
    it gave one. *)
Lemma adding_a_present_keyword_changes_the_table :
  exists st',
    add_keyword {| rules := RISK_RULES;
                   stdin := [#"Indemnity"; #"indemnify"];
                   stdout := [] |} = Some (tt, st')
    /\ dict_get #"Indemnity" RISK_RULES
       = Some [#"indemnify"; #"hold harmless"; #"liability"; #"compensate"]
    /\ dict_get #"Indemnity" (rules st')
       = Some [#"indemnify"; #"hold harmless"; #"liability"; #"compensate";
               #"indemnify"]
    /\ length (RuleMatcher RISK_RULES #"We indemnify you.") = 1
    /\ length (RuleMatcher (rules st') #"We indemnify you.") = 2.
Proof.
  eexists. split; [vm_compute; reflexivity|].
  repeat split; vm_compute; reflexivity.
Qed.

(** C5, amended.  For a category of the table, named as it is written and
    not spelling "new" in any case, and an answer whose lowercase form is
    already among the category's keywords: the command succeeds, reports
    the keyword as added and appends the lowercase form once more to the
    category's list.  The keywords that occur in the category are the same
    as before, the other categories and the order of the categories are
    untouched, and what is stored is its own lowercase form. *)
Theorem adding_a_present_keyword_appends_it :
  forall (d : dict) (category answer : str) (kws : list str)
         (rest out : list str),
    str_eqb (lower category) #"new" = false ->
    dict_get category d = Some kws ->
    In (lower answer) kws ->
    exists st',
      add_keyword {| rules := d; stdin := category :: answer :: rest;
                     stdout := out |} = Some (tt, st')
      /\ dict_get category (rules st') = Some (kws ++ [lower answer])
      /\ (forall kw, In kw (kws ++ [lower answer]) <-> In kw kws)
      /\ (forall c, c <> category -> dict_get c (rules st') = dict_get c d)
      /\ keys (rules st') = keys d
      /\ lower (lower answer) = lower answer
      /\ stdin st' = rest
      /\ stdout st'
         = out ++ [ #"Enter risk category (or type NEW to create a new one): ";
                    #"Enter keyword to add: ";
                    #"Keyword '" ++ lower answer ++ #"' added to '"
                      ++ category ++ #"'." ].
Proof.
  intros d category answer kws rest out Hnew Hget Hin.
  eexists. split.
  - unfold add_keyword. remember #"new" as new eqn:Enew.
    unfold Console.bind, input, get_rules, put_rules, print, Console.ret.
    simpl. rewrite Hnew. simpl. rewrite Hget. reflexivity.
  - simpl. split; [apply dict_get_set_same|].
    split.
    { intros kw. rewrite in_app_iff. simpl. split; [|tauto].
      intros [H|[<-|[]]]; assumption. }
    split; [intros c Hc; now apply dict_get_set_other|].
    split; [eapply dict_set_keys; eassumption|].
    split; [apply lower_idem|].
    split; [reflexivity|].
    rewrite <- !app_assoc. reflexivity.
Qed.

Lemma adding_a_present_keyword_appends_it_witness :
  exists st',
    add_keyword {| rules := RISK_RULES;
                   stdin := [#"Indemnity"; #"Indemnify"];
                   stdout := [] |} = Some (tt, st')
    /\ dict_get #"Indemnity" (rules st')
       = Some ([#"indemnify"; #"hold harmless"; #"liability"; #"compensate"]
               ++ [lower #"Indemnify"]).
Proof.
  destruct (@adding_a_present_keyword_appends_it
              RISK_RULES #"Indemnity" #"Indemnify"
              [#"indemnify"; #"hold harmless"; #"liability"; #"compensate"]
              [] [])
    as [st' [Hrun [Hget _]]].
  - reflexivity.
  - reflexivity.
  - left. reflexivity.
  - exists st'. split; [exact Hrun | exact Hget].
Defined.

(** C6, on the code.  Answering NEW and then the name of a category that
    is there does not fail: the category's keywords are thrown away, the
    keyword then given becomes its only one, and the command reports
    success. *)
Theorem creating_an_existing_category_empties_it :
  exists st',
    add_keyword {| rules := RISK_RULES;
                   stdin := [#"NEW"; #"Indemnity"; #"Arbitration"];
                   stdout := [] |} = Some (tt, st')
    /\ dict_get #"Indemnity" RISK_RULES
       = Some [#"indemnify"; #"hold harmless"; #"liability"; #"compensate"]
    /\ dict_get #"Indemnity" (rules st') = Some [#"arbitration"]
    /\ stdout st'
       = [ #"Enter risk category (or type NEW to create a new one): ";
           #"Enter new category name: ";
           #"Enter keyword to add: ";
           #"Keyword 'arbitration' added to 'Indemnity'." ].
Proof.
  eexists. split; [vm_compute; reflexivity|].
  repeat split; vm_compute; reflexivity.
Qed.

(** C7 as stated fails.  With no finding the report is one line that names
    no column: the header of the report, with its five names, is not
    there. *)
Lemma empty_csv_report_has_no_header :
  snd (save_csv_report [] #"contract") = [[]]
  /\ ~ header_only (snd (save_csv_report [] #"contract")).
Proof.
  split; [reflexivity|]. unfold header_only. intros H. discriminate H.
Qed.

(** C7, amended.  The export is defined on every result.  With no finding
    it writes a table without rows whose header line names no column, the
    names being taken from the findings.  With findings it writes the
    header Risk Type, Keyword, Sentence, Line Number, AI Summary and then
    one row for each finding, in the order of the findings, with the
    finding's values in the order of the header. *)
Theorem csv_report_rows_and_header :
  forall (results : list finding) (filename : str),
    let lines := snd (save_csv_report results filename) in
    fst (save_csv_report results filename)
      = #"../reports/" ++ filename ++ #"_report.csv"
    /\ (results = [] -> lines = [[]])
    /\ (results <> [] -> hd [] lines = report_columns)
    /\ tl lines
       = map (fun f => [ Risk_Type f; Keyword f; Sentence f;
                         str_of_nat (Line_Number f); AI_Summary f ]) results
    /\ length (tl lines) = length results.
Proof.
  intros results filename lines. subst lines.
  rewrite save_csv_report_lines.
  split; [reflexivity|]. split; [intros ->; reflexivity|].
  split; [destruct results; [congruence | reflexivity]|].
  split; [reflexivity|]. simpl. apply length_map.
Qed.

(** C8.  In the saved document the part after the last heading reproduces
    the contract: a paragraph for each line of the text, a run for each
    word of the line (the words being what lies between spaces), and the
    paragraphs read back as the lines of the text.  The run of a word is
    marked exactly when some keyword of some category of the table, the
    whole vocabulary and not the keywords of the findings, occurs in the
    word with case ignored; the findings have no part in it, so another
    list of findings gives the same marked text.  In particular every run
    of characters between white space that holds a keyword lies in a marked
    run. *)
Theorem annotated_text_marks_the_whole_vocabulary :
  forall (rules : dict) (results : list finding) (text filename : str),
    let marked :=
      contract_text (snd (save_docx_report rules results text filename)) in
    marked = map (fun para => map (highlight_word rules) (split " " para))
                 (split LF text)
    /\ map paragraph_text marked = split LF text
    /\ join [LF] (map paragraph_text marked) = text
    /\ (forall word,
          run_text (highlight_word rules word) = word ++ #" "
          /\ (highlighted (highlight_word rules word) = true <->
              exists cat kws kw,
                In (cat, kws) (items rules) /\ In kw kws
                /\ contains (lower kw) (lower word) = true))
    /\ (forall results',
          contract_text (snd (save_docx_report rules results' text filename))
          = marked)
    /\ (forall token kw,
          In token (split_whitespace text) ->
          In kw (vocabulary rules) ->
          ci_contains kw token = true ->
          exists runs r,
            In runs marked /\ In r runs
            /\ highlighted r = true /\ substring token (run_text r)).
Proof.
  intros rules results text filename marked.
  assert (Hm : marked = map (highlight_paragraph rules) (split LF text))
    by apply contract_text_saved.
  split; [exact Hm|].
  assert (Hp : map paragraph_text marked = split LF text).
  { rewrite Hm, map_map. rewrite <- (map_id (split LF text)) at 2.
    apply map_ext. intros para. apply highlight_paragraph_text. }
  split; [exact Hp|]. split; [rewrite Hp; apply join_split|].
  split; [|split].
  - intros word. destruct (highlight_word_spec rules word) as [Ht Hh].
    split; [exact Ht|]. rewrite Hh, existsb_exists.
    unfold vocabulary, values, items, ci_contains. split.
    + intros [kw [Hin Hc]]. apply in_concat in Hin.
      destruct Hin as [kws [Hkws Hkw]]. apply in_map_iff in Hkws.
      destruct Hkws as [[cat kws'] [<- Hr]]. now exists cat, kws', kw.
    + intros [cat [kws [kw [Hr [Hkw Hc]]]]]. exists kw. split; [|exact Hc].
      apply in_concat. exists kws. split; [|exact Hkw].
      apply in_map_iff. now exists (cat, kws).
  - intros results'. rewrite Hm. apply contract_text_saved.
  - intros token kw Htok Hkw Hc.
    destruct (token_within_word text token Htok) as [word [Hw Hsub]].
    unfold report_words in Hw. apply in_concat in Hw.
    destruct Hw as [ws [Hws Hword]]. apply in_map_iff in Hws.
    destruct Hws as [para [<- Hpara]].
    exists (highlight_paragraph rules para), (highlight_word rules word).
    destruct (highlight_word_spec rules word) as [Ht Hh].
    split; [rewrite Hm; now apply in_map|].
    split; [unfold highlight_paragraph; now apply in_map|].
    split.
    + rewrite Hh. apply existsb_exists. exists kw. split; [exact Hkw|].
      unfold ci_contains in *. apply contains_spec.
      apply contains_spec in Hc.
      eapply substring_trans; [exact Hc | now apply substring_lower].
    + rewrite Ht. destruct Hsub as [pre [post ->]].
      exists pre, (post ++ #" "). now rewrite <- !app_assoc.
Qed.

(** C10.  A keyword with a space in it occurs in no word of the contract
    as the report cuts it, since a word holds no space; so it marks no run.
    The marked text is the one the table without that keyword gives,
    whatever the findings are, those the keyword produced included. *)
Theorem keyword_with_a_space_marks_nothing :
  forall (rules : dict) (results : list finding) (text filename kw : str),
    In " "%char kw ->
    (forall word, In word (report_words text) -> ci_contains kw word = false)
    /\ contract_text (snd (save_docx_report rules results text filename))
       = contract_text
           (snd (save_docx_report (without_keyword kw rules) results
                                  text filename)).
Proof.
  intros rules results text filename kw Hkw.
  assert (Hwords : forall word, In word (report_words text) ->
                                ci_contains kw word = false).
  { intros word Hw. unfold report_words in Hw. apply in_concat in Hw.
    destruct Hw as [ws [Hws Hword]]. apply in_map_iff in Hws.
    destruct Hws as [para [<- Hpara]].
    apply spaced_keyword_never_in_word; [exact Hkw|].
    pose proof (words_no_space para) as Hn. rewrite Forall_forall in Hn.
    now apply Hn. }
  split; [exact Hwords|].
  rewrite !contract_text_saved. apply map_ext_in. intros para Hpara.
  unfold highlight_paragraph. apply map_ext_in. intros word Hword.
  symmetry. apply highlight_word_without. apply Hwords.
  unfold report_words. apply in_concat. exists (split " " para).
  split; [now apply in_map | exact Hword].
Qed.

Lemma keyword_with_a_space_marks_nothing_witness :
  let text := #"The Vendor shall hold harmless the Client." in
  let results :=
    fst (scan_contract (fun (_ : str) (w : unit) => (Raised #"offline", w))
                       RISK_RULES text tt) in
  map Keyword results = [#"hold harmless"]
  /\ In " "%char #"hold harmless"
  /\ contract_text (snd (save_docx_report RISK_RULES results text #"contract"))
     = contract_text
         (snd (save_docx_report (without_keyword #"hold harmless" RISK_RULES)
                                results text #"contract"))
  /\ forallb (forallb (fun r => negb (highlighted r)))
       (contract_text
          (snd (save_docx_report RISK_RULES results text #"contract")))
     = true.
Proof.
  intros text results.
  assert (Hin : In " "%char #"hold harmless")
    by (do 4 right; left; reflexivity).
  split; [vm_compute; reflexivity|].
  split; [exact Hin|].
  split.
  - exact (proj2 (@keyword_with_a_space_marks_nothing
                    RISK_RULES results text #"contract" #"hold harmless" Hin)).
  - vm_compute. reflexivity.
Defined.

(* ===================================================================== *)
(** ** Further properties of the scan *)
(* ===================================================================== *)

Section ScanProperties.

Lemma lstrip_suffix (s : str) : exists pre, s = pre ++ lstrip s.
Proof.
  induction s as [|c s [pre IH]]; [now exists []|]. simpl.
  destruct (isspace c).
  - exists (c :: pre). simpl. now rewrite <- IH.
  - now exists [].
Qed.

Lemma rstrip_prefix (s : str) : exists post, s = rstrip s ++ post.
Proof.
  unfold rstrip. destruct (lstrip_suffix (rev s)) as [pre H].
  exists (rev pre). rewrite <- rev_app_distr, <- H. symmetry. apply rev_involutive.
Qed.

(** Trimming only takes characters away from the two ends. *)
Lemma strip_substring (s : str) : substring (strip s) s.
Proof.
  unfold strip. destruct (lstrip_suffix s) as [pre Hp].
  destruct (rstrip_prefix (lstrip s)) as [post Hq].
  exists pre, post. now rewrite <- Hq.
Qed.

(** Every piece of a text cut at some characters occurs in the text. *)
Lemma split_by_substring (p : ascii -> bool) (s : str) :
  Forall (fun w => substring w s) (split_by p s).
Proof.
  destruct (@split_by_finer (fun _ => false) p s) as [_ H];
    [discriminate|].
  rewrite split_by_no_cut in H by reflexivity.
  eapply Forall_impl; [|exact H].
  intros w [w' [[<-|[]] Hsub]]. exact Hsub.
Qed.

Lemma sentence_substring (text line : str) (i : nat) :
  nth_error (split "." text) i = Some line -> substring (strip line) text.
Proof.
  intros H. apply nth_error_In in H.
  pose proof (split_by_substring (Ascii.eqb ".") text) as Hall.
  rewrite Forall_forall in Hall.
  eapply substring_trans; [apply strip_substring | now apply Hall].
Qed.

Lemma lower_char_stop (c : ascii) :
  lower_char c = "."%char <-> c = "."%char.
Proof.
  destruct c as [[] [] [] [] [] [] [] []]; vm_compute;
    split; intros H; first [reflexivity | discriminate H].
Qed.

Lemma strip_no_stop (line : str) :
  ~ In "."%char line -> ~ In "."%char (lower (strip line)).
Proof.
  intros Hn Hin. unfold lower in Hin. apply in_map_iff in Hin.
  destruct Hin as [c [Hc Hin]].
  apply (proj1 (lower_char_stop c)) in Hc. subst c.
  apply Hn. exact (@substring_In _ _ _ (strip_substring line) Hin).
Qed.

(** What the service has seen when the scan ends: one call for each
    match, in the order of the matches, on the match's sentence. *)
Lemma FindingEnricher_world (World : Type)
      (summarize : str -> World -> response * World)
      (cands : list candidate) (w : World) :
  snd (FindingEnricher summarize cands w)
  = fold_left (fun w c => snd (summarize (sentence c) w)) cands w.
Proof.
  revert w. induction cands as [|c cs IH]; intros w; simpl; [reflexivity|].
  rewrite <- IH. destruct (summarize (sentence c) w) as [r w1]. simpl.
  now destruct (FindingEnricher summarize cs w1).
Qed.

End ScanProperties.

(** X1.  Every finding of a scan is backed by the table and the text: its
    keyword is listed under its category, the keyword occurs in the
    finding's sentence when case is ignored, the sentence is the trimmed
    piece of the text that its line number counts from 1, and it occurs in
    the text. *)
Theorem findings_are_backed_by_table_and_text :
  forall (World : Type) (chat_completion : str -> World -> response * World)
         (rules : dict) (text : str) (w : World),
    Forall (fun f =>
      In (Risk_Type f, Keyword f) (pairs rules)
      /\ ci_contains (Keyword f) (Sentence f) = true
      /\ (exists line,
            nth_error (split "." text) (Line_Number f - 1) = Some line
            /\ 1 <= Line_Number f <= length (split "." text)
            /\ Sentence f = strip line)
      /\ substring (Sentence f) text)
    (fst (scan_contract chat_completion rules text w)).
Proof.
  intros World chat_completion rules text w.
  apply Forall_forall. intros f Hf.
  assert (Hc : In (candidate_of f) (RuleMatcher rules text)).
  { rewrite <- (scan_contract_candidates chat_completion rules text w).
    now apply in_map. }
  apply In_RuleMatcher in Hc.
  destruct Hc as [i [line [cat [kws [kw [Hnth [Hr [Hkw [Hm Hc]]]]]]]]].
  unfold candidate_of in Hc. injection Hc as H1 H2 H3 H4.
  rewrite H1, H2, H3, H4. split; [|split; [|split]].
  - unfold pairs. apply in_flat_map. exists (cat, kws). split; [exact Hr|].
    now apply in_map.
  - unfold ci_contains in *. now rewrite lower_idem in Hm.
  - exists line. replace (S i - 1) with i by lia. split; [exact Hnth|].
    split; [|reflexivity].
    assert (i < length (split "." text))
      by (apply nth_error_Some; congruence). lia.
  - eapply sentence_substring; eassumption.
Qed.

(** X2.  When no keyword of the table occurs anywhere in the text, case
    ignored, the scan finds nothing and never calls the service. *)
Theorem no_keyword_in_text_no_finding :
  forall (World : Type) (chat_completion : str -> World -> response * World)
         (rules : dict) (text : str) (w : World),
    (forall kw, In kw (vocabulary rules) -> ci_contains kw text = false) ->
    scan_contract chat_completion rules text w = ([], w).
Proof.
  intros World chat_completion rules text w Hno.
  rewrite scan_contract_fusion.
  assert (H : RuleMatcher rules text = []).
  { destruct (RuleMatcher rules text) as [|c l] eqn:E; [reflexivity|].
    exfalso. assert (Hc : In c (RuleMatcher rules text))
      by (rewrite E; now left).
    apply In_RuleMatcher in Hc.
    destruct Hc as [i [line [cat [kws [kw [Hnth [Hr [Hkw [Hm _]]]]]]]]].
    assert (Hv : In kw (vocabulary rules)).
    { unfold vocabulary, values. apply in_concat. exists kws.
      split; [|exact Hkw]. apply in_map_iff. now exists (cat, kws). }
    specialize (Hno kw Hv). unfold ci_contains in *.
    rewrite lower_idem in Hm. apply contains_spec in Hm.
    assert (Ht : contains (lower kw) (lower text) = true).
    { apply contains_spec. eapply substring_trans; [exact Hm|].
      apply substring_lower. eapply sentence_substring; eassumption. }
    congruence. }
  now rewrite H.
Qed.

Lemma no_keyword_in_text_no_finding_witness :
  scan_contract (fun (_ : str) (w : nat) => (Completed #"fine", S w))
                RISK_RULES #"Payment is due within 30 days. Thank you." 0
  = ([], 0).
Proof.
  apply (@no_keyword_in_text_no_finding nat
           (fun (_ : str) (w : nat) => (Completed #"fine", S w))
           RISK_RULES #"Payment is due within 30 days. Thank you." 0).
  intros kw Hkw. vm_compute in Hkw.
  repeat (destruct Hkw as [<-|Hkw]; [vm_compute; reflexivity|]).
  destruct Hkw.
Defined.

(** X3.  A keyword with a full stop in it never produces a finding: the
    sentences are what lies between full stops, so no finding of any scan
    has such a keyword. *)
Theorem no_finding_for_keyword_with_full_stop :
  forall (World : Type) (chat_completion : str -> World -> response * World)
         (rules : dict) (text : str) (w : World),
    Forall (fun f => ~ In "."%char (Keyword f))
           (fst (scan_contract chat_completion rules text w)).
Proof.
  intros World chat_completion rules text w.
  apply Forall_forall. intros f Hf Hdot.
  assert (Hc : In (candidate_of f) (RuleMatcher rules text)).
  { rewrite <- (scan_contract_candidates chat_completion rules text w).
    now apply in_map. }
  apply In_RuleMatcher in Hc.
  destruct Hc as [i [line [cat [kws [kw [Hnth [Hr [Hkw [Hm Hc]]]]]]]]].
  unfold candidate_of in Hc. injection Hc as _ H2 _ _. rewrite H2 in Hdot.
  unfold ci_contains in Hm. rewrite lower_idem in Hm.
  apply contains_spec in Hm.
  assert (Hl : In "."%char (lower kw)).
  { unfold lower. apply in_map_iff. exists "."%char. now split. }
  pose proof (@substring_In _ _ _ Hm Hl) as Hs.
  revert Hs. apply strip_no_stop.
  pose proof (split_no_sep "." text) as Hall. rewrite Forall_forall in Hall.
  apply Hall. eapply nth_error_In. eassumption.
Qed.

(** X4.  The service is called once for each finding and not otherwise,
    in the order of the findings, each time on the finding's trimmed
    sentence: the state the service is left in is the one these calls,
    made one after the other, lead to. *)
Theorem one_service_call_per_finding :
  forall (World : Type) (chat_completion : str -> World -> response * World)
         (rules : dict) (text : str) (w : World),
    snd (scan_contract chat_completion rules text w)
    = fold_left (fun w1 f => snd (chat_completion (Sentence f) w1))
                (fst (scan_contract chat_completion rules text w)) w.
Proof.
  intros World chat_completion rules text w.
  rewrite scan_contract_fusion, FindingEnricher_world.
  rewrite <- (FindingEnricher_candidates chat_completion
                (RuleMatcher rules text) w) at 1.
  generalize (fst (FindingEnricher chat_completion (RuleMatcher rules text) w)).
  intros l. revert w. induction l as [|f l IH]; intros w; [reflexivity|].
  simpl. apply IH.
Qed.

(** X5.  An empty keyword matches everything: when a category lists the
    empty string, every sentence of the text, the empty ones included,
    gives a finding for it, so the findings are at least as many as the
    full stops of the text plus one. *)
Theorem empty_keyword_matches_every_sentence :
  forall (World : Type) (chat_completion : str -> World -> response * World)
         (rules : dict) (text : str) (w : World) (cat : str) (kws : list str),
    In (cat, kws) (items rules) -> In [] kws ->
    (forall i line, nth_error (split "." text) i = Some line ->
       In {| category := cat; keyword := []; sentence := strip line;
             ordinal := i + 1 |}
          (map candidate_of (fst (scan_contract chat_completion rules text w))))
    /\ S (count_occ ascii_dec text "."%char)
       <= length (fst (scan_contract chat_completion rules text w)).
Proof.
  intros World chat_completion rules text w cat kws Hr Hkw.
  rewrite scan_contract_candidates. split.
  - intros i line Hnth. apply In_RuleMatcher.
    exists i, line, cat, kws, []. rewrite Nat.add_1_r.
    repeat split; try assumption. unfold ci_contains. apply contains_nil.
  - rewrite <- (length_map candidate_of), scan_contract_candidates.
    rewrite RuleMatcher_length, <- split_length.
    generalize (split "." text). intros lines.
    induction lines as [|line lines IH]; [constructor|].
    simpl. apply le_n_S in IH.
    assert (1 <= length (filter
              (fun '(_, kw) => ci_contains kw (lower (strip line)))
              (pairs rules))); [|lia].
    assert (Hin : In (cat, []) (filter
              (fun '(_, kw) => ci_contains kw (lower (strip line)))
              (pairs rules))).
    { apply filter_In. split.
      - unfold pairs. apply in_flat_map. exists (cat, kws).
        split; [exact Hr | now apply in_map].
      - unfold ci_contains. apply contains_nil. }
    destruct (filter _ (pairs rules)); [destruct Hin | simpl; lia].
Qed.

Lemma empty_keyword_matches_every_sentence_witness :
  3 <= length (fst (scan_contract
                      (fun (_ : str) (w : unit) => (Raised #"offline", w))
                      [(#"Any", [[]])] #"One. Two." tt)).
Proof.
  apply (proj2 (@empty_keyword_matches_every_sentence unit
                  (fun (_ : str) (w : unit) => (Raised #"offline", w))
                  [(#"Any", [[]])] #"One. Two." tt #"Any" [[]]
                  (or_introl eq_refl) (or_introl eq_refl))).
Defined.

(* ===================================================================== *)
(** ** More of the console: listing and removing *)
(* ===================================================================== *)

Module Listing.

Definition TAB : ascii := "009"%char.
Definition CR : ascii := "013"%char.
Definition backslash : ascii := "\"%char.
Definition squote : ascii := "'"%char.
Definition dquote : ascii := "034"%char.

(** [c.isprintable()] below 256: not a control character, not the
    no-break space, not the soft hyphen. *)
Definition isprintable (c : ascii) : bool :=
  let n := nat_of_ascii c in
  ((32 <=? n) && (n <? 127)) || ((161 <=? n) && negb (n =? 173)).

Definition hex_digit (n : nat) : ascii :=
  nth n #"0123456789abcdef" "0"%char.

(** One character inside [repr(s)], [quote] being the quote chosen. *)
Definition repr_char (quote c : ascii) : str :=
  if Ascii.eqb c quote || Ascii.eqb c backslash then [backslash; c]
  else if Ascii.eqb c TAB then #"\t"
  else if Ascii.eqb c LF then #"\n"
  else if Ascii.eqb c CR then #"\r"
  else if isprintable c then [c]
  else #"\x" ++ [hex_digit (nat_of_ascii c / 16);
                 hex_digit (nat_of_ascii c mod 16)].

(** [repr(s)] for a string: in single quotes, or in double quotes when
    the string holds a single quote and no double one. *)
Definition repr (s : str) : str :=
  let quote :=
    if existsb (Ascii.eqb squote) s && negb (existsb (Ascii.eqb dquote) s)
    then dquote else squote in
  [quote] ++ flat_map (repr_char quote) s ++ [quote].

(** [str(l)] for a list of strings. *)
Definition repr_list (l : list str) : str :=
  #"[" ++ join #", " (map repr l) ++ #"]".

(** [l.remove(x)] for [x] in [l]: the first occurrence goes. *)
Fixpoint list_remove (x : str) (l : list str) : list str :=
  match l with
  | [] => []
  | y :: l' => if str_eqb x y then l' else y :: list_remove x l'
  end.

(** [for x in xs: body] at the console. *)
Fixpoint for_each_cmd {A : Type} (xs : list A) (body : A -> Cmd unit)
  : Cmd unit :=
  match xs with
  | [] => Console.ret tt
  | x :: xs' => body x ;;; for_each_cmd xs' body
  end.

(** [show_rules()] *)
Definition show_rules : Cmd unit :=
  print ([LF] ++ #"=== CURRENT RISK RULES ===") ;;;
  RISK_RULES <- get_rules ;;
  for_each_cmd (items RISK_RULES) (fun '(category, keywords) =>
    print ([LF] ++ category ++ #":") ;;;
    for_each_cmd keywords (fun kw => print (#"  - " ++ kw))) ;;;
  print [LF].

(** [remove_keyword()].  As in [add_keyword], the membership test and the
    subscript are the two branches of the lookup. *)
Definition remove_keyword : Cmd unit :=
  category <- input #"Enter category to edit: " ;;
  RISK_RULES <- get_rules ;;
  match dict_get category RISK_RULES with
  | None => print #"Category does not exist."
  | Some keywords =>
      print (#"Keywords in " ++ category ++ #": " ++ repr_list keywords) ;;;
      answer <- input #"Enter keyword to remove: " ;;
      let keyword := lower answer in
      if existsb (str_eqb keyword) keywords then
        put_rules (dict_set category (list_remove keyword keywords)
                            RISK_RULES) ;;;
        print #"Keyword removed."
      else print #"Keyword not found."
  end.

End Listing.
Import Listing.

Example repr_plain : repr #"late fee" = #"'late fee'".
Proof. reflexivity. Qed.

Example repr_with_single_quote :
  repr #"buyer's risk" = [dquote] ++ #"buyer's risk" ++ [dquote].
Proof. reflexivity. Qed.

Example repr_escapes :
  repr (#"a" ++ [TAB] ++ #"b\" ++ ["160"%char])
  = #"'a\tb\\\xa0'".
Proof. reflexivity. Qed.

Example repr_list_of_default :
  repr_list [#"terminate"; #"termination"; #"breach"]
  = #"['terminate', 'termination', 'breach']".
Proof. reflexivity. Qed.

(* --------------------------------------------------------------------- *)
(** *** More facts about the table *)
(* --------------------------------------------------------------------- *)

Section MoreDictFacts.

Lemma dict_get_In_keys (k : str) (d : dict) :
  In k (keys d) <-> dict_get k d <> None.
Proof.
  unfold keys. induction d as [|[k' v] d IH]; simpl.
  - split; [intros [] | congruence].
  - destruct (str_eqb k k') eqn:E.
    + apply str_eqb_eq in E. subst k'. split; [discriminate | now left].
    + apply str_eqb_neq in E. rewrite <- IH. split.
      * intros [H|H]; [congruence | exact H].
      * now right.
Qed.

(** Assigning to a key that is absent appends the entry. *)
Lemma dict_set_absent (k : str) (v : list str) (d : dict) :
  dict_get k d = None -> dict_set k v d = d ++ [(k, v)].
Proof.
  induction d as [|[k' v'] d IH]; simpl; [reflexivity|].
  destruct (str_eqb k k'); [discriminate|]. intros H. now rewrite IH.
Qed.

Lemma dict_set_set (k : str) (v1 v2 : list str) (d : dict) :
  dict_set k v2 (dict_set k v1 d) = dict_set k v2 d.
Proof.
  induction d as [|[k' v'] d IH]; simpl.
  - now rewrite str_eqb_refl.
  - destruct (str_eqb k k') eqn:E; simpl; rewrite E; [reflexivity|].
    now rewrite IH.
Qed.

(** Assigning to a key the value it has changes nothing. *)
Lemma dict_set_get (k : str) (v : list str) (d : dict) :
  dict_get k d = Some v -> dict_set k v d = d.
Proof.
  induction d as [|[k' v'] d IH]; simpl; [discriminate|].
  destruct (str_eqb k k') eqn:E.
  - intros H. injection H as ->. reflexivity.
  - intros H. now rewrite IH.
Qed.

Lemma dict_set_keys_cases (k : str) (v : list str) (d : dict) :
  keys (dict_set k v d)
  = match dict_get k d with
    | Some _ => keys d
    | None => keys d ++ [k]
    end.
Proof.
  destruct (dict_get k d) as [v0|] eqn:E.
  - eapply dict_set_keys. eassumption.
  - rewrite dict_set_absent by assumption. unfold keys.
    now rewrite map_app.
Qed.

(** Assignment keeps every key once and loses none. *)
Lemma dict_set_wf (k : str) (v : list str) (d : dict) :
  wf d -> wf (dict_set k v d).
Proof.
  unfold wf. intros H. rewrite dict_set_keys_cases.
  destruct (dict_get k d) eqn:E; [exact H|].
  apply NoDup_app; [exact H | repeat constructor; intros [] |].
  intros x Hx [<-|[]]. apply dict_get_In_keys in Hx. congruence.
Qed.

Lemma dict_set_keeps_keys (k k0 : str) (v : list str) (d : dict) :
  In k0 (keys d) -> In k0 (keys (dict_set k v d)).
Proof.
  intros H. rewrite dict_set_keys_cases.
  destruct (dict_get k d); [exact H | apply in_or_app; now left].
Qed.

Lemma list_remove_first (x : str) (l : list str) :
  In x l ->
  exists l1 l2, l = l1 ++ x :: l2 /\ ~ In x l1 /\ list_remove x l = l1 ++ l2.
Proof.
  induction l as [|y l IH]; intros H; [destruct H|]. simpl.
  destruct (str_eqb x y) eqn:E.
  - apply str_eqb_eq in E. subst y. exists [], l. now repeat split.
  - apply str_eqb_neq in E. destruct H as [H|H]; [congruence|].
    destruct (IH H) as [l1 [l2 [-> [Hn Hr]]]].
    exists (y :: l1), l2. repeat split.
    + intros [Hy|Hy]; [congruence | contradiction].
    + simpl. now rewrite Hr.
Qed.

Lemma list_remove_appended (x : str) (l : list str) :
  ~ In x l -> list_remove x (l ++ [x]) = l.
Proof.
  induction l as [|y l IH]; intros H; simpl.
  - now rewrite str_eqb_refl.
  - destruct (str_eqb x y) eqn:E.
    + apply str_eqb_eq in E. subst y. exfalso. apply H. now left.
    + rewrite IH; [reflexivity|]. intros Hx. apply H. now right.
Qed.

Lemma existsb_str_eqb (x : str) (l : list str) :
  existsb (str_eqb x) l = true <-> In x l.
Proof.
  rewrite existsb_exists. split.
  - intros [y [Hy E]]. apply str_eqb_eq in E. now subst y.
  - intros H. exists x. split; [exact H | apply str_eqb_refl].
Qed.

End MoreDictFacts.

(* --------------------------------------------------------------------- *)
(** *** What the commands do, case by case *)
(* --------------------------------------------------------------------- *)

Section CommandRuns.

Definition prompt_category : str :=
  #"Enter risk category (or type NEW to create a new one): ".
Definition prompt_new_category : str := #"Enter new category name: ".
Definition prompt_keyword : str := #"Enter keyword to add: ".
Definition added_message (keyword category : str) : str :=
  #"Keyword '" ++ keyword ++ #"' added to '" ++ category ++ #"'.".

(** The category is named directly. *)
Lemma add_keyword_plain (d : dict) (c a : str) (rest out : list str) :
  str_eqb (lower c) #"new" = false ->
  add_keyword {| rules := d; stdin := c :: a :: rest; stdout := out |}
  = Some (tt,
      match dict_get c d with
      | None =>
          {| rules := d; stdin := rest;
             stdout := out ++ [prompt_category; prompt_keyword;
                               #"Category does not exist."] |}
      | Some kws =>
          {| rules := dict_set c (kws ++ [lower a]) d; stdin := rest;
             stdout := out ++ [prompt_category; prompt_keyword;
                               added_message (lower a) c] |}
      end).
Proof.
  intros Hnew. unfold add_keyword. remember #"new" as new eqn:Enew.
  unfold Console.bind, input, get_rules, put_rules, print, Console.ret.
  simpl. rewrite Hnew. simpl.
  destruct (dict_get c d); simpl; rewrite <- !app_assoc; reflexivity.
Qed.

(** The answer is NEW, in any case of letters. *)
Lemma add_keyword_new (d : dict) (c n a : str) (rest out : list str) :
  str_eqb (lower c) #"new" = true ->
  add_keyword {| rules := d; stdin := c :: n :: a :: rest; stdout := out |}
  = Some (tt,
      {| rules := dict_set n [lower a] d; stdin := rest;
         stdout := out ++ [prompt_category; prompt_new_category;
                           prompt_keyword; added_message (lower a) n] |}).
Proof.
  intros Hnew. unfold add_keyword. remember #"new" as new eqn:Enew.
  unfold Console.bind, input, get_rules, put_rules, print, Console.ret.
  simpl. rewrite Hnew. simpl. rewrite dict_get_set_same. simpl.
  rewrite dict_set_set, <- !app_assoc. reflexivity.
Qed.

(** How many answers the command needs. *)
Definition answers_needed (st : state) : nat :=
  match stdin st with
  | [] => 1
  | c :: _ => if str_eqb (lower c) #"new" then 3 else 2
  end.

Lemma add_keyword_short (st : state) :
  length (stdin st) < answers_needed st -> add_keyword st = None.
Proof.
  destruct st as [d ins out]. unfold answers_needed, add_keyword.
  remember #"new" as new eqn:Enew. cbn [stdin].
  unfold Console.bind, input, get_rules, put_rules, print, Console.ret.
  destruct ins as [|c ins]; [reflexivity|]. cbn [stdin length].
  destruct (str_eqb (lower c) new) eqn:E; intros H.
  - destruct ins as [|n ins]; [reflexivity|].
    destruct ins as [|a ins]; [reflexivity|]. simpl in H. lia.
  - destruct ins as [|a ins]; [reflexivity|]. simpl in H. lia.
Qed.

Definition prompt_edit : str := #"Enter category to edit: ".
Definition prompt_remove : str := #"Enter keyword to remove: ".
Definition keywords_message (category : str) (kws : list str) : str :=
  #"Keywords in " ++ category ++ #": " ++ repr_list kws.

Lemma remove_keyword_unknown (d : dict) (c : str) (rest out : list str) :
  dict_get c d = None ->
  remove_keyword {| rules := d; stdin := c :: rest; stdout := out |}
  = Some (tt, {| rules := d; stdin := rest;
                 stdout := out ++ [prompt_edit;
                                   #"Category does not exist."] |}).
Proof.
  intros H. unfold remove_keyword.
  unfold Console.bind, input, get_rules, put_rules, print, Console.ret.
  simpl. rewrite H. simpl. rewrite <- !app_assoc. reflexivity.
Qed.

Lemma remove_keyword_known (d : dict) (c a : str) (kws : list str)
      (rest out : list str) :
  dict_get c d = Some kws ->
  remove_keyword {| rules := d; stdin := c :: a :: rest; stdout := out |}
  = Some (tt,
      if existsb (str_eqb (lower a)) kws
      then {| rules := dict_set c (list_remove (lower a) kws) d;
              stdin := rest;
              stdout := out ++ [prompt_edit; keywords_message c kws;
                                prompt_remove; #"Keyword removed."] |}
      else {| rules := d; stdin := rest;
              stdout := out ++ [prompt_edit; keywords_message c kws;
                                prompt_remove; #"Keyword not found."] |}).
Proof.
  intros H. unfold remove_keyword.
  unfold Console.bind, input, get_rules, put_rules, print, Console.ret.
  simpl. rewrite H. simpl.
  destruct (existsb (str_eqb (lower a)) kws); simpl;
    rewrite <- !app_assoc; reflexivity.
Qed.

End CommandRuns.

(* --------------------------------------------------------------------- *)
(** *** Invariants of the table *)
(* --------------------------------------------------------------------- *)

Section TableInvariants.

(** Every keyword of the table is its own lowercase form. *)
Definition all_lower (d : dict) : Prop :=
  Forall (Forall (fun kw => lower kw = kw)) (values d).

Lemma all_lower_get (k : str) (kws : list str) (d : dict) :
  all_lower d -> dict_get k d = Some kws ->
  Forall (fun kw => lower kw = kw) kws.
Proof.
  unfold all_lower, values. induction d as [|[k' v] d IH]; simpl;
    [discriminate|].
  intros H. inversion H as [|? ? Hv Hd]; subst.
  destruct (str_eqb k k'); [intros E; now injection E as <- | now apply IH].
Qed.

Lemma all_lower_set (k : str) (v : list str) (d : dict) :
  all_lower d -> Forall (fun kw => lower kw = kw) v ->
  all_lower (dict_set k v d).
Proof.
  unfold all_lower, values. intros Hd Hv.
  induction d as [|[k' v'] d IH]; simpl.
  - now repeat constructor.
  - inversion Hd as [|? ? Hv' Hd']; subst.
    destruct (str_eqb k k'); simpl; constructor; auto.
Qed.

Lemma all_lower_default : all_lower RISK_RULES.
Proof. unfold all_lower. repeat constructor. Qed.

Lemma wf_default : wf RISK_RULES.
Proof.
  unfold wf. repeat constructor; simpl; intuition discriminate.
Qed.

Lemma list_remove_Forall (P : str -> Prop) (x : str) (l : list str) :
  Forall P l -> Forall P (list_remove x l).
Proof.
  induction 1 as [|y l Hy Hl IH]; simpl; [constructor|].
  destruct (str_eqb x y); [assumption | now constructor].
Qed.

Lemma list_remove_length (x : str) (l : list str) :
  length (list_remove x l) <= length l.
Proof.
  induction l as [|y l IH]; simpl; [lia|].
  destruct (str_eqb x y); simpl; lia.
Qed.

(** What a run of [add_keyword] can have made of the table. *)
Lemma add_keyword_too_short (d : dict) (c : str) (ins out : list str) :
  length ins < (if str_eqb (lower c) #"new" then 2 else 1) ->
  add_keyword {| rules := d; stdin := c :: ins; stdout := out |} = None.
Proof.
  intros H. apply add_keyword_short. unfold answers_needed. cbn [stdin length].
  destruct (str_eqb (lower c) #"new"); lia.
Qed.

Lemma add_keyword_rules (st st' : state) :
  add_keyword st = Some (tt, st') ->
  rules st' = rules st
  \/ exists k kws a,
       rules st' = dict_set k (kws ++ [lower a]) (rules st)
       /\ (dict_get k (rules st) = Some kws \/ kws = []).
Proof.
  destruct st as [d ins out]. intros H.
  destruct ins as [|c ins]; [discriminate H|].
  destruct (str_eqb (lower c) #"new") eqn:E.
  - destruct ins as [|n [|a rest]].
    + rewrite add_keyword_too_short in H; [discriminate H|].
      rewrite E. simpl. lia.
    + rewrite add_keyword_too_short in H; [discriminate H|].
      rewrite E. simpl. lia.
    + rewrite add_keyword_new in H by assumption.
      injection H as <-. right. exists n, [], a. simpl.
      split; [reflexivity | now right].
  - destruct ins as [|a rest].
    + rewrite add_keyword_too_short in H; [discriminate H|].
      rewrite E. simpl. lia.
    + rewrite add_keyword_plain in H by assumption.
      injection H as <-. destruct (dict_get c d) as [kws|] eqn:G.
      * right. exists c, kws, a. simpl. split; [reflexivity | now left].
      * now left.
Qed.

(** What a run of [remove_keyword] can have made of the table. *)
Lemma remove_keyword_rules (st st' : state) :
  remove_keyword st = Some (tt, st') ->
  rules st' = rules st
  \/ exists k kws x,
       dict_get k (rules st) = Some kws /\ In x kws
       /\ rules st' = dict_set k (list_remove x kws) (rules st).
Proof.
  destruct st as [d ins out]. intros H.
  destruct ins as [|c ins]; [discriminate H|].
  destruct (dict_get c d) as [kws|] eqn:G.
  - destruct ins as [|a rest].
    + unfold remove_keyword, Console.bind, input, get_rules, print in H.
      simpl in H. rewrite G in H. discriminate H.
    + rewrite (@remove_keyword_known d c a kws rest out G) in H.
      injection H as <-.
      destruct (existsb (str_eqb (lower a)) kws) eqn:E; [|now left].
      right. exists c, kws, (lower a). simpl.
      split; [exact G|]. split; [now apply existsb_str_eqb | reflexivity].
  - rewrite remove_keyword_unknown in H by assumption.
    injection H as <-. now left.
Qed.

End TableInvariants.

(* --------------------------------------------------------------------- *)
(** *** Properties of the rule management commands *)
(* --------------------------------------------------------------------- *)

(** X6.  Adding to a category that is not in the table (and whose name
    does not spell NEW) changes nothing in the table: the command still
    asks for the keyword, takes the answer, and then reports that the
    category does not exist. *)
Theorem adding_to_an_unknown_category_changes_nothing :
  forall (d : dict) (c a : str) (rest out : list str),
    str_eqb (lower c) #"new" = false ->
    dict_get c d = None ->
    add_keyword {| rules := d; stdin := c :: a :: rest; stdout := out |}
    = Some (tt, {| rules := d; stdin := rest;
                   stdout := out ++ [prompt_category; prompt_keyword;
                                     #"Category does not exist."] |}).
Proof.
  intros d c a rest out Hnew Hget.
  rewrite add_keyword_plain by assumption. now rewrite Hget.
Qed.

Lemma adding_to_an_unknown_category_changes_nothing_witness :
  add_keyword {| rules := RISK_RULES;
                 stdin := [#"Warranty"; #"as is"; #"5"];
                 stdout := [] |}
  = Some (tt, {| rules := RISK_RULES; stdin := [#"5"];
                 stdout := [] ++ [prompt_category; prompt_keyword;
                                  #"Category does not exist."] |}).
Proof.
  apply (@adding_to_an_unknown_category_changes_nothing
           RISK_RULES #"Warranty" #"as is" [#"5"] []); reflexivity.
Defined.

(** X7.  Answering NEW (in any case of letters) and a name that is not in
    the table creates the category after all the others, with the
    lowercase form of the keyword as its only keyword; the categories
    that were there keep their place and their keywords. *)
Theorem new_category_is_appended_with_its_keyword :
  forall (d : dict) (c n a : str) (rest out : list str),
    str_eqb (lower c) #"new" = true ->
    dict_get n d = None ->
    add_keyword {| rules := d; stdin := c :: n :: a :: rest; stdout := out |}
    = Some (tt, {| rules := d ++ [(n, [lower a])]; stdin := rest;
                   stdout := out ++ [prompt_category; prompt_new_category;
                                     prompt_keyword;
                                     added_message (lower a) n] |}).
Proof.
  intros d c n a rest out Hnew Hget.
  rewrite add_keyword_new by assumption.
  now rewrite dict_set_absent by assumption.
Qed.

Lemma new_category_is_appended_with_its_keyword_witness :
  add_keyword {| rules := RISK_RULES;
                 stdin := [#"New"; #"Force Majeure Risk"; #"Force Majeure"];
                 stdout := [] |}
  = Some (tt, {| rules := RISK_RULES
                          ++ [(#"Force Majeure Risk", [lower #"Force Majeure"])];
                 stdin := [];
                 stdout := [] ++ [prompt_category; prompt_new_category;
                                  prompt_keyword;
                                  added_message (lower #"Force Majeure")
                                                #"Force Majeure Risk"] |}).
Proof.
  apply (@new_category_is_appended_with_its_keyword
           RISK_RULES #"New" #"Force Majeure Risk" #"Force Majeure" [] []);
    reflexivity.
Defined.

(** X8.  A run of [add_keyword] that ends keeps the table in shape: no
    category name comes to stand twice, no category is lost, at most one
    is gained, and when all keywords were lowercase they all still are. *)
Theorem add_keyword_keeps_the_table_in_shape :
  forall (st st' : state),
    add_keyword st = Some (tt, st') ->
    (wf (rules st) -> wf (rules st'))
    /\ (forall k, In k (keys (rules st)) -> In k (keys (rules st')))
    /\ length (keys (rules st')) <= S (length (keys (rules st)))
    /\ (all_lower (rules st) -> all_lower (rules st')).
Proof.
  intros st st' H. apply add_keyword_rules in H.
  destruct H as [->|[k [kws [a [-> Hk]]]]].
  - repeat split; auto.
  - split; [apply dict_set_wf|]. split; [intros k0; apply dict_set_keeps_keys|].
    split.
    + rewrite dict_set_keys_cases.
      destruct (dict_get k (rules st)); [lia|]. rewrite length_app. simpl. lia.
    + intros Hl. apply all_lower_set; [exact Hl|].
      apply Forall_app. split.
      * destruct Hk as [Hk| ->]; [eapply all_lower_get; eassumption|constructor].
      * repeat constructor. apply lower_idem.
Qed.

Lemma add_keyword_keeps_the_table_in_shape_witness :
  wf (dict_set #"Payment Risk"
        [#"penalty"; #"late fee"; #"interest"; #"non-payment"; #"surcharge"]
        RISK_RULES).
Proof.
  refine (proj1 (@add_keyword_keeps_the_table_in_shape
    {| rules := RISK_RULES; stdin := [#"Payment Risk"; #"Surcharge"];
       stdout := [] |}
    {| rules := dict_set #"Payment Risk"
         [#"penalty"; #"late fee"; #"interest"; #"non-payment"; #"surcharge"]
         RISK_RULES;
       stdin := [];
       stdout := [prompt_category; prompt_keyword;
                  added_message #"surcharge" #"Payment Risk"] |}
    _) wf_default).
  reflexivity.
Defined.

(** X9.  [add_keyword] dies of the end of input exactly when fewer answers
    are left than it asks for: three when the first answer spells NEW,
    two otherwise (one when there is no answer at all). *)
Theorem add_keyword_needs_its_answers :
  forall (st : state),
    add_keyword st = None <-> length (stdin st) < answers_needed st.
Proof.
  intros st. split; [|apply add_keyword_short].
  destruct st as [d ins out]. unfold answers_needed. cbn [stdin].
  destruct ins as [|c ins]; [simpl; lia|].
  destruct (str_eqb (lower c) #"new") eqn:E.
  - destruct ins as [|n [|a rest]]; try (simpl; lia).
    rewrite add_keyword_new by assumption. discriminate.
  - destruct ins as [|a rest]; try (simpl; lia).
    rewrite add_keyword_plain by assumption. discriminate.
Qed.



(** X11.  Removing takes the first occurrence of the keyword out of the
    category's list and nothing else: the keywords before and after it
    keep their order, the other categories and the order of the categories
    stay, and the command reports the removal. *)
Theorem remove_keyword_takes_the_first_occurrence :
  forall (d : dict) (c a : str) (kws rest out : list str),
    dict_get c d = Some kws ->
    In (lower a) kws ->
    exists st' l1 l2,
      remove_keyword {| rules := d; stdin := c :: a :: rest; stdout := out |}
        = Some (tt, st')
      /\ kws = l1 ++ lower a :: l2 /\ ~ In (lower a) l1
      /\ dict_get c (rules st') = Some (l1 ++ l2)
      /\ (forall k, k <> c -> dict_get k (rules st') = dict_get k d)
      /\ keys (rules st') = keys d
      /\ stdin st' = rest
      /\ stdout st' = out ++ [prompt_edit; keywords_message c kws;
                              prompt_remove; #"Keyword removed."].
Proof.
  intros d c a kws rest out Hget Hin.
  destruct (list_remove_first _ _ Hin) as [l1 [l2 [Hk [Hn Hr]]]].
  eexists. exists l1, l2. split.
  { rewrite (@remove_keyword_known d c a kws rest out Hget).
    apply existsb_str_eqb in Hin. rewrite Hin. reflexivity. }
  cbn [rules stdin stdout].
  split; [exact Hk|]. split; [exact Hn|].
  split; [rewrite dict_get_set_same; now rewrite Hr|].
  split; [intros k Hne; now apply dict_get_set_other|].
  split; [eapply dict_set_keys; eassumption|].
  now split.
Qed.

Lemma remove_keyword_takes_the_first_occurrence_witness :
  exists st' l1 l2,
    remove_keyword {| rules := RISK_RULES;
                      stdin := [#"Termination Risk"; #"Termination"];
                      stdout := [] |} = Some (tt, st')
    /\ [#"terminate"; #"termination"; #"breach"]
       = l1 ++ lower #"Termination" :: l2
    /\ dict_get #"Termination Risk" (rules st') = Some (l1 ++ l2).
Proof.
  destruct (@remove_keyword_takes_the_first_occurrence
              RISK_RULES #"Termination Risk" #"Termination"
              [#"terminate"; #"termination"; #"breach"] [] [])
    as [st' [l1 [l2 [Hrun [Hk [_ [Hget _]]]]]]].
  - reflexivity.
  - right. left. reflexivity.
  - exists st', l1, l2. now repeat split.
Defined.

(** X12.  Removing fails softly.  For a category that is not in the table
    the command reports it after the first answer and asks nothing more;
    for a keyword that is not in the category it lists the category's
    keywords, takes the answer and reports that the keyword was not found.
    The table is the same in both cases. *)
Theorem remove_keyword_misses_change_nothing :
  forall (d : dict) (c a : str) (rest out : list str),
    (dict_get c d = None ->
     remove_keyword {| rules := d; stdin := c :: a :: rest; stdout := out |}
     = Some (tt, {| rules := d; stdin := a :: rest;
                    stdout := out ++ [prompt_edit;
                                      #"Category does not exist."] |}))
    /\ (forall kws,
          dict_get c d = Some kws -> ~ In (lower a) kws ->
          remove_keyword {| rules := d; stdin := c :: a :: rest;
                            stdout := out |}
          = Some (tt, {| rules := d; stdin := rest;
                         stdout := out ++ [prompt_edit;
                                           keywords_message c kws;
                                           prompt_remove;
                                           #"Keyword not found."] |})).
Proof.
  intros d c a rest out. split.
  - intros H. now apply remove_keyword_unknown.
  - intros kws Hget Hn.
    rewrite (@remove_keyword_known d c a kws rest out Hget).
    destruct (existsb (str_eqb (lower a)) kws) eqn:E; [|reflexivity].
    apply existsb_str_eqb in E. contradiction.
Qed.

(** X13.  Adding a keyword that the category does not have and removing
    it again gives back the table as it was, entry for entry. *)
Theorem add_then_remove_restores_the_table :
  forall (d : dict) (c a : str) (kws rest out : list str),
    str_eqb (lower c) #"new" = false ->
    dict_get c d = Some kws ->
    ~ In (lower a) kws ->
    exists st',
      Console.bind add_keyword (fun _ => remove_keyword)
        {| rules := d; stdin := c :: a :: c :: a :: rest; stdout := out |}
      = Some (tt, st')
      /\ rules st' = d /\ stdin st' = rest.
Proof.
  intros d c a kws rest out Hnew Hget Hn.
  eexists. split.
  { unfold Console.bind. rewrite add_keyword_plain by assumption.
    rewrite Hget.
    rewrite (@remove_keyword_known _ c a (kws ++ [lower a]) rest _
               (dict_get_set_same c _ d)).
    assert (E : existsb (str_eqb (lower a)) (kws ++ [lower a]) = true).
    { apply existsb_str_eqb. apply in_or_app. right. now left. }
    rewrite E. reflexivity. }
  cbn [rules stdin]. split; [|reflexivity].
  rewrite dict_set_set, list_remove_appended by assumption.
  now apply dict_set_get.
Qed.

Lemma add_then_remove_restores_the_table_witness :
  exists st',
    Console.bind add_keyword (fun _ => remove_keyword)
      {| rules := RISK_RULES;
         stdin := [#"Indemnity"; #"Damages"; #"Indemnity"; #"Damages"];
         stdout := [] |}
    = Some (tt, st')
    /\ rules st' = RISK_RULES /\ stdin st' = [].
Proof.
  apply (@add_then_remove_restores_the_table
           RISK_RULES #"Indemnity" #"Damages"
           [#"indemnify"; #"hold harmless"; #"liability"; #"compensate"]
           [] []).
  - reflexivity.
  - reflexivity.
  - simpl. intros [H|[H|[H|[H|[]]]]]; discriminate H.
Defined.

(** X14.  A keyword that was added while the category had it already is
    still there after one removal: the command reports the keyword as
    removed, yet the category lists it and scans go on finding it. *)
Theorem keyword_added_twice_survives_one_removal :
  forall (d : dict) (c a : str) (kws rest out : list str),
    str_eqb (lower c) #"new" = false ->
    dict_get c d = Some kws ->
    In (lower a) kws ->
    exists st' kws',
      Console.bind add_keyword (fun _ => remove_keyword)
        {| rules := d; stdin := c :: a :: c :: a :: rest; stdout := out |}
      = Some (tt, st')
      /\ dict_get c (rules st') = Some kws'
      /\ In (lower a) kws'
      /\ length kws' = length kws
      /\ last (stdout st') [] = #"Keyword removed.".
Proof.
  intros d c a kws rest out Hnew Hget Hin.
  assert (E : existsb (str_eqb (lower a)) (kws ++ [lower a]) = true).
  { apply existsb_str_eqb. apply in_or_app. right. now left. }
  assert (Hin' : In (lower a) (kws ++ [lower a]))
    by (apply in_or_app; now left).
  destruct (list_remove_first _ _ Hin') as [l1 [l2 [Hk [Hn Hr]]]].
  eexists. exists (l1 ++ l2). split.
  { unfold Console.bind. rewrite add_keyword_plain by assumption.
    rewrite Hget.
    rewrite (@remove_keyword_known _ c a (kws ++ [lower a]) rest _
               (dict_get_set_same c _ d)).
    rewrite E. reflexivity. }
  cbn [rules stdout]. split; [rewrite dict_get_set_same; now rewrite Hr|].
  split.
  - (* the occurrence that went was not the appended one *)
    destruct l2 as [|y l2] using rev_ind.
    + exfalso. apply app_inj_tail in Hk. destruct Hk as [<- _].
      contradiction.
    + clear IHl2. rewrite app_comm_cons, app_assoc in Hk.
      apply app_inj_tail in Hk. destruct Hk as [_ <-].
      apply in_or_app. right. apply in_or_app. right. now left.
  - split.
    + apply (f_equal (@length str)) in Hk. rewrite !length_app in *.
      simpl in Hk. lia.
    + match goal with
      | |- last (?x ++ [?p; ?q; ?r; ?s]) _ = _ =>
          change (x ++ [p; q; r; s]) with (x ++ [p; q; r] ++ [s]);
          rewrite app_assoc; apply last_last
      end.
Qed.

Lemma keyword_added_twice_survives_one_removal_witness :
  exists st' kws',
    Console.bind add_keyword (fun _ => remove_keyword)
      {| rules := RISK_RULES;
         stdin := [#"Indemnity"; #"Liability"; #"Indemnity"; #"Liability"];
         stdout := [] |}
    = Some (tt, st')
    /\ dict_get #"Indemnity" (rules st') = Some kws'
    /\ In (lower #"Liability") kws'.
Proof.
  destruct (@keyword_added_twice_survives_one_removal
              RISK_RULES #"Indemnity" #"Liability"
              [#"indemnify"; #"hold harmless"; #"liability"; #"compensate"]
              [] [])
    as [st' [kws' [Hrun [Hget [Hin _]]]]].
  - reflexivity.
  - reflexivity.
  - do 2 right. left. reflexivity.
  - exists st', kws'. now repeat split.
Defined.

(* --------------------------------------------------------------------- *)
(** *** The listing *)
(* --------------------------------------------------------------------- *)

Section ListingFacts.

Definition printed (lines : list str) (st : state) : state :=
  {| rules := rules st; stdin := stdin st; stdout := stdout st ++ lines |}.

Lemma printed_nil (st : state) : printed [] st = st.
Proof. destruct st. unfold printed. simpl. now rewrite app_nil_r. Qed.

Lemma printed_printed (a b : list str) (st : state) :
  printed b (printed a st) = printed (a ++ b) st.
Proof. unfold printed. simpl. now rewrite app_assoc. Qed.

Lemma keyword_lines (kws : list str) (st : state) :
  for_each_cmd kws (fun kw => print (#"  - " ++ kw)) st
  = Some (tt, printed (map (fun kw => #"  - " ++ kw) kws) st).
Proof.
  revert st. induction kws as [|kw kws IH]; intros st.
  - simpl. unfold Console.ret. now rewrite printed_nil.
  - simpl for_each_cmd. unfold Console.bind at 1. unfold print at 1.
    rewrite IH. unfold printed. simpl. now rewrite <- app_assoc.
Qed.

(** The lines [show_rules] prints for a table. *)
Definition listing (d : dict) : list str :=
  flat_map (fun '(category, keywords) =>
              ([LF] ++ category ++ #":")
              :: map (fun kw => #"  - " ++ kw) keywords) d.

Lemma category_lines (d : dict) (st : state) :
  for_each_cmd (items d) (fun '(category, keywords) =>
    Console.bind (print ([LF] ++ category ++ #":")) (fun _ =>
      for_each_cmd keywords (fun kw => print (#"  - " ++ kw)))) st
  = Some (tt, printed (listing d) st).
Proof.
  unfold items. revert st. induction d as [|[cat kws] d IH]; intros st.
  - simpl. unfold Console.ret. now rewrite printed_nil.
  - simpl for_each_cmd. unfold Console.bind at 1. unfold Console.bind at 1.
    unfold print at 1.
    rewrite keyword_lines, IH. unfold printed. simpl.
    now rewrite <- !app_assoc.
Qed.

Lemma listing_length (d : dict) :
  length (listing d) = length (keys d) + length (vocabulary d).
Proof.
  induction d as [|[cat kws] d IH]; [reflexivity|].
  change (listing ((cat, kws) :: d))
    with ((([LF] ++ cat ++ #":") :: map (fun kw => #"  - " ++ kw) kws)
          ++ listing d).
  rewrite length_app. cbn [length]. unfold str in *. rewrite IH.
  rewrite (length_map (fun kw => #"  - " ++ kw) kws).
  unfold keys, vocabulary, values. cbn [map concat length snd fst].
  rewrite length_app. unfold dict, str. lia.
Qed.

End ListingFacts.

(** X15.  [show_rules] always ends, asks nothing and leaves the table as
    it is.  Between its title line and its closing line it prints, for
    each category in table order, the category's name and then one line
    for each of its keywords in list order: as many lines as there are
    categories and keywords, a keyword listed twice being printed twice. *)
Theorem show_rules_lists_the_table :
  forall (st : state),
    show_rules st
    = Some (tt, {| rules := rules st; stdin := stdin st;
                   stdout := stdout st
                             ++ [[LF] ++ #"=== CURRENT RISK RULES ==="]
                             ++ listing (rules st) ++ [[LF]] |})
    /\ length (listing (rules st))
       = length (keys (rules st)) + length (vocabulary (rules st))
    /\ (forall cat kws kw,
          In (cat, kws) (rules st) -> In kw kws ->
          In ([LF] ++ cat ++ #":") (listing (rules st))
          /\ In (#"  - " ++ kw) (listing (rules st))).
Proof.
  intros st. split; [|split].
  - unfold show_rules. unfold Console.bind at 1. unfold print at 1.
    unfold Console.bind at 1. unfold get_rules at 1. cbn [rules].
    unfold Console.bind at 1. rewrite category_lines.
    unfold print, printed. cbn [rules stdin stdout].
    rewrite <- !app_assoc. reflexivity.
  - apply listing_length.
  - intros cat kws kw Hr Hkw. unfold listing. split.
    + apply in_flat_map. exists (cat, kws). split; [exact Hr | now left].
    + apply in_flat_map. exists (cat, kws). split; [exact Hr|].
      right. now apply in_map.
Qed.

(** X16.  A run of [remove_keyword] that ends keeps the table in shape:
    the categories and their order are the same, even when a category is
    left without keywords; the table holds the keywords it held or one
    fewer; and keywords that were all lowercase still are. *)
Theorem remove_keyword_keeps_the_table_in_shape :
  forall (st st' : state),
    remove_keyword st = Some (tt, st') ->
    keys (rules st') = keys (rules st)
    /\ (wf (rules st) -> wf (rules st'))
    /\ (all_lower (rules st) -> all_lower (rules st'))
    /\ (forall k kws', dict_get k (rules st') = Some kws' ->
          exists kws, dict_get k (rules st) = Some kws
                      /\ length kws' <= length kws
                      /\ forall kw, In kw kws' -> In kw kws).
Proof.
  intros st st' H. apply remove_keyword_rules in H.
  destruct H as [->|[k [kws [x [Hget [Hin ->]]]]]].
  - repeat split; auto. intros k kws' Hk. exists kws'. now repeat split.
  - assert (Hkeys : keys (dict_set k (list_remove x kws) (rules st))
                    = keys (rules st))
      by (eapply dict_set_keys; eassumption).
    split; [exact Hkeys|]. split; [unfold wf; now rewrite Hkeys|]. split.
    + intros Hl. apply all_lower_set; [exact Hl|].
      apply list_remove_Forall. eapply all_lower_get; eassumption.
    + intros k0 kws' Hk0. destruct (str_eqb k0 k) eqn:E.
      * apply str_eqb_eq in E. subst k0. rewrite dict_get_set_same in Hk0.
        injection Hk0 as <-. exists kws. split; [exact Hget|].
        split; [apply list_remove_length|].
        destruct (list_remove_first _ _ Hin) as [l1 [l2 [-> [_ ->]]]].
        intros kw Hkw. apply in_app_or in Hkw. apply in_or_app.
        destruct Hkw; [now left | right; now right].
      * apply str_eqb_neq in E.
        rewrite dict_get_set_other in Hk0 by assumption.
        exists kws'. now repeat split.
Qed.

Lemma remove_keyword_keeps_the_table_in_shape_witness :
  keys (dict_set #"Termination Risk" [#"terminate"; #"termination"] RISK_RULES)
  = keys RISK_RULES.
Proof.
  refine (proj1 (@remove_keyword_keeps_the_table_in_shape
    {| rules := RISK_RULES; stdin := [#"Termination Risk"; #"BREACH"];
       stdout := [] |}
    {| rules := dict_set #"Termination Risk" [#"terminate"; #"termination"]
                         RISK_RULES;
       stdin := [];
       stdout := [prompt_edit;
                  keywords_message #"Termination Risk"
                    [#"terminate"; #"termination"; #"breach"];
                  prompt_remove; #"Keyword removed."] |}
    _)).
  reflexivity.
Defined.

(* ===================================================================== *)
(** ** The dashboard *)
(* ===================================================================== *)

Module Dashboard.

(** [Counter(xs)]: a dict from each element to the number of times it
    occurs, the elements in the order they first occur. *)
Fixpoint counter_add (x : str) (c : list (str * nat)) : list (str * nat) :=
  match c with
  | [] => [(x, 1)]
  | (y, n) :: c' =>
      if str_eqb x y then (y, S n) :: c' else (y, n) :: counter_add x c'
  end.

Definition Counter (xs : list str) : list (str * nat) :=
  fold_left (fun c x => counter_add x c) xs [].

(** The bar chart handed to the plotting library: the bars, label and
    height, and the texts around them. *)
Record chart := {
  bars : list (str * nat);
  title : str;
  xlabel : str;
  ylabel : str;
  saved_to : str
}.

(** [generate_dashboard(all_results)]: the chart drawn, if any, and the
    line printed. *)
Definition generate_dashboard (all_results : list finding)
  : option chart * list str :=
  match all_results with
  | [] => (None, [#"No results to generate dashboard."])
  | _ :: _ =>
      let risk_types := map Risk_Type all_results in
      let counts := Counter risk_types in
      (Some {| bars := combine (map fst counts) (map snd counts);
               title := #"Risk Type Distribution";
               xlabel := #"Risk Type";
               ylabel := #"Count";
               saved_to := #"../reports/risk_dashboard.png" |},
       [#"Dashboard saved to ../reports/risk_dashboard.png"])
  end.

(** The count a counter holds for [x], 0 when it has none. *)
Fixpoint count_of (x : str) (c : list (str * nat)) : nat :=
  match c with
  | [] => 0
  | (y, n) :: c' => if str_eqb x y then n else count_of x c'
  end.

End Dashboard.
Import Dashboard.

Section CounterFacts.

Definition str_dec : forall a b : str, {a = b} + {a <> b} :=
  list_eq_dec ascii_dec.

Lemma combine_fst_snd {A B : Type} (l : list (A * B)) :
  combine (map fst l) (map snd l) = l.
Proof.
  induction l as [|[a b] l IH]; [reflexivity|]. simpl. now rewrite IH.
Qed.

Lemma counter_add_keys (x : str) (c : list (str * nat)) :
  map fst (counter_add x c)
  = if existsb (str_eqb x) (map fst c) then map fst c else map fst c ++ [x].
Proof.
  induction c as [|[y n] c IH]; [reflexivity|]. simpl.
  destruct (str_eqb x y) eqn:E; simpl; [reflexivity|].
  rewrite IH. now destruct (existsb (str_eqb x) (map fst c)).
Qed.

Lemma counter_add_NoDup (x : str) (c : list (str * nat)) :
  NoDup (map fst c) -> NoDup (map fst (counter_add x c)).
Proof.
  intros H. rewrite counter_add_keys.
  destruct (existsb (str_eqb x) (map fst c)) eqn:E; [exact H|].
  apply NoDup_app; [exact H | repeat constructor; intros [] |].
  intros y Hy [<-|[]].
  apply existsb_str_eqb in Hy. congruence.
Qed.

Lemma counter_add_count (x y : str) (c : list (str * nat)) :
  count_of y (counter_add x c)
  = if str_eqb y x then S (count_of y c) else count_of y c.
Proof.
  induction c as [|[z n] c IH]; simpl.
  - destruct (str_eqb y x); reflexivity.
  - destruct (str_eqb x z) eqn:Exz; simpl.
    + apply str_eqb_eq in Exz. subst z.
      destruct (str_eqb y x); reflexivity.
    + destruct (str_eqb y z) eqn:Eyz; [|exact IH].
      apply str_eqb_eq in Eyz. subst z.
      rewrite str_eqb_neq in Exz.
      assert (E : str_eqb y x = false) by (apply str_eqb_neq; congruence).
      now rewrite E.
Qed.

Lemma counter_add_sum (x : str) (c : list (str * nat)) :
  list_sum (map snd (counter_add x c)) = S (list_sum (map snd c)).
Proof.
  induction c as [|[y n] c IH]; [reflexivity|]. simpl.
  destruct (str_eqb x y); simpl; [reflexivity|]. rewrite IH. lia.
Qed.

Lemma counter_add_positive (x : str) (c : list (str * nat)) :
  Forall (fun kv => 0 < snd kv) c ->
  Forall (fun kv => 0 < snd kv) (counter_add x c).
Proof.
  induction 1 as [|[y n] c Hy Hc IH]; simpl.
  - repeat constructor.
  - destruct (str_eqb x y); constructor; simpl in *; auto; lia.
Qed.

(** What folding a list into a counter keeps and adds. *)
Lemma Counter_from (xs : list str) (c : list (str * nat)) :
  NoDup (map fst c) -> Forall (fun kv => 0 < snd kv) c ->
  let c' := fold_left (fun c x => counter_add x c) xs c in
  NoDup (map fst c')
  /\ Forall (fun kv => 0 < snd kv) c'
  /\ list_sum (map snd c') = list_sum (map snd c) + length xs
  /\ (forall y, count_of y c' = count_of y c + count_occ str_dec xs y)
  /\ (forall y, In y (map fst c') <-> In y (map fst c) \/ In y xs).
Proof.
  revert c. induction xs as [|x xs IH]; intros c Hn Hp; simpl.
  - repeat split; auto; try lia. intros [H|[]]. exact H.
  - destruct (IH (counter_add x c)
                 (counter_add_NoDup x c Hn) (counter_add_positive x Hp))
      as [H1 [H2 [H3 [H4 H5]]]].
    split; [exact H1|]. split; [exact H2|]. split; [|split].
    + rewrite H3, counter_add_sum. lia.
    + intros y. rewrite H4, counter_add_count.
      destruct (str_dec x y) as [->|Hne].
      * rewrite str_eqb_refl. lia.
      * assert (E : str_eqb y x = false) by (apply str_eqb_neq; congruence).
        rewrite E. reflexivity.
    + intros y. rewrite H5, counter_add_keys.
      destruct (existsb (str_eqb x) (map fst c)) eqn:E.
      * apply existsb_str_eqb in E. split; [intros [H|H]; auto|].
        intros [H|[<-|H]]; auto.
      * rewrite in_app_iff. simpl. tauto.
Qed.

Lemma count_of_In (c : list (str * nat)) (y : str) (n : nat) :
  NoDup (map fst c) -> (In (y, n) c <-> In y (map fst c) /\ count_of y c = n).
Proof.
  induction c as [|[z m] c IH]; intros Hn; simpl.
  - tauto.
  - inversion Hn as [|? ? Hz Hc]; subst. specialize (IH Hc).
    destruct (str_eqb y z) eqn:E.
    + apply str_eqb_eq in E. subst z. split.
      * intros [H|H]; [injection H as <-; split; [now left | reflexivity]|].
        exfalso. apply Hz. apply in_map_iff. now exists (y, n).
      * intros [_ <-]. now left.
    + apply str_eqb_neq in E. rewrite IH. split.
      * intros [H|[H1 H2]]; [congruence|]. split; [now right | assumption].
      * intros [[H|H] H2]; [congruence|]. right. now split.
Qed.

End CounterFacts.

(** X17.  With no finding the dashboard is skipped and says so; with
    findings a chart is drawn that has one bar for each risk type that
    occurs among them, no type twice, each bar as high as the number of
    findings of its type, so that the bars add up to the number of
    findings. *)
Theorem dashboard_counts_findings_by_type :
  forall (all_results : list finding),
    (all_results = [] ->
     generate_dashboard all_results
     = (None, [#"No results to generate dashboard."]))
    /\ (all_results <> [] ->
        exists c,
          fst (generate_dashboard all_results) = Some c
          /\ NoDup (map fst (bars c))
          /\ list_sum (map snd (bars c)) = length all_results
          /\ (forall label n,
                In (label, n) (bars c) <->
                0 < n
                /\ n = count_occ str_dec (map Risk_Type all_results) label)).
Proof.
  intros all_results. split; [intros ->; reflexivity|].
  intros Hne. destruct all_results as [|f0 rest] eqn:E; [congruence|].
  rewrite <- E. clear Hne.
  destruct (@Counter_from (map Risk_Type all_results) [])
    as [H1 [H2 [H3 [H4 H5]]]]; [constructor | constructor |].
  fold (Counter (map Risk_Type all_results)) in *.
  eexists. split.
  { rewrite E at 1. unfold generate_dashboard. rewrite <- E. reflexivity. }
  cbn [bars]. rewrite combine_fst_snd.
  split; [exact H1|]. split; [rewrite H3, length_map; reflexivity|].
  intros label n. rewrite (count_of_In _ _ _ H1), H4, H5. simpl. split.
  - intros [[[]|Hin] <-]. split; [|reflexivity].
    rewrite (count_occ_In str_dec) in Hin. lia.
  - intros [Hpos ->]. split; [|reflexivity]. right.
    apply (count_occ_In str_dec). lia.
Qed.

(** X18.  The dashboard of a scan shows categories of the table only: each
    bar is labelled with a category name of the table the scan read, and
    there are no more bars than categories. *)
Theorem dashboard_of_a_scan_shows_table_categories :
  forall (World : Type) (chat_completion : str -> World -> response * World)
         (rules : dict) (text : str) (w : World) (c : chart),
    fst (generate_dashboard (fst (scan_contract chat_completion rules text w)))
      = Some c ->
    Forall (fun bar => In (fst bar) (keys rules)) (bars c)
    /\ length (bars c) <= length (keys rules).
Proof.
  intros World chat_completion rules text w c H.
  pose proof (scan_contract_candidates chat_completion rules text w) as Hc.
  set (results := fst (scan_contract chat_completion rules text w)) in *.
  assert (Hcat : forall f, In f results -> In (Risk_Type f) (keys rules)).
  { intros f Hf.
    assert (Hin : In (candidate_of f) (RuleMatcher rules text))
      by (rewrite <- Hc; now apply in_map).
    apply In_RuleMatcher in Hin.
    destruct Hin as [i [line [cat [kws [kw [_ [Hr [_ [_ Heq]]]]]]]]].
    unfold candidate_of in Heq. injection Heq as -> _ _ _.
    unfold keys. apply in_map_iff. now exists (cat, kws). }
  destruct results as [|f0 rest] eqn:E; [discriminate H|].
  rewrite <- E in *. 
  destruct (@Counter_from (map Risk_Type results) [])
    as [H1 [_ [_ [_ H5]]]]; [constructor | constructor |].
  fold (Counter (map Risk_Type results)) in *.
  assert (Hb : bars c = Counter (map Risk_Type results)).
  { rewrite E in H at 1. unfold generate_dashboard in H. rewrite <- E in H.
    simpl in H. injection H as <-. cbn [bars]. apply combine_fst_snd. }
  rewrite Hb.
  assert (Hincl : incl (map fst (Counter (map Risk_Type results)))
                       (keys rules)).
  { intros label Hl. apply H5 in Hl. destruct Hl as [[]|Hl].
    apply in_map_iff in Hl. destruct Hl as [f [<- Hf]]. now apply Hcat. }
  split.
  - apply Forall_forall. intros bar Hbar. apply Hincl. now apply in_map.
  - rewrite <- (length_map fst). now apply NoDup_incl_length.
Qed.

Lemma dashboard_of_a_scan_shows_table_categories_witness :
  exists c,
    fst (generate_dashboard
           (fst (scan_contract
                   (fun (_ : str) (w : unit) => (Raised #"offline", w))
                   RISK_RULES #"Late fee and penalty. Venue: any court." tt)))
    = Some c
    /\ bars c = [(#"Payment Risk", 2); (#"Jurisdiction Risk", 2)]
    /\ length (bars c) <= length (keys RISK_RULES).
Proof.
  eexists. split; [vm_compute; reflexivity|]. split; [reflexivity|].
  refine (proj2 (@dashboard_of_a_scan_shows_table_categories unit
    (fun (_ : str) (w : unit) => (Raised #"offline", w))
    RISK_RULES #"Late fee and penalty. Venue: any court." tt _ _)).
  vm_compute. reflexivity.
Defined.

(* ===================================================================== *)
(** ** The PDF overlay *)
(* ===================================================================== *)

From Stdlib Require Import Permutation.

Section PdfOverlay.

(** The pages of the opened PDF and the areas a search finds on them
    belong to the PDF library; [search_for pg kw] is [pg.search_for(kw)]. *)
Variable page : Type.
Variable rect : Type.
Variable search_for : page -> str -> list rect.

(** [list({...})]: the elements of a set in the order the interpreter
    happens to iterate it.  Nothing is known of that order; each element
    comes once. *)
Variable list_of_set : list str -> list str.
Hypothesis list_of_set_once : forall l, NoDup (list_of_set l).
Hypothesis list_of_set_elements :
  forall l x, In x (list_of_set l) <-> In x l.

(** [highlight_pdf(file_path, results, filename)] on the pages of the
    opened file: the path saved to, and each page with the highlight
    annotations added to it, in the order they are added. *)
Definition highlight_pdf (doc : list page) (results : list finding)
           (filename : str) : str * list (page * list rect) :=
  let keywords := list_of_set (map Keyword results) in
  let annotated :=
    map (fun pg =>
      (pg,
       fold_left (fun annots kw =>
         fold_left (fun annots inst => annots ++ [inst])
                   (search_for pg kw) annots)
         keywords []))
      doc in
  let output_path := #"../reports/" ++ filename ++ #"_highlighted.pdf" in
  (output_path, annotated).

Lemma fold_left_append {A : Type} (xs acc : list A) :
  fold_left (fun acc x => acc ++ [x]) xs acc = acc ++ xs.
Proof.
  revert acc. induction xs as [|x xs IH]; intros acc; simpl.
  - now rewrite app_nil_r.
  - rewrite IH, <- app_assoc. reflexivity.
Qed.

Lemma annotations_of_page (pg : page) (kws : list str) (acc : list rect) :
  fold_left (fun annots kw =>
      fold_left (fun annots inst => annots ++ [inst])
                (search_for pg kw) annots) kws acc
  = acc ++ flat_map (search_for pg) kws.
Proof.
  revert acc. induction kws as [|kw kws IH]; intros acc; simpl.
  - now rewrite app_nil_r.
  - rewrite IH, fold_left_append, <- app_assoc. reflexivity.
Qed.

Lemma highlight_pdf_pages (doc : list page) (results : list finding)
      (filename : str) :
  snd (highlight_pdf doc results filename)
  = map (fun pg => (pg, flat_map (search_for pg)
                                 (list_of_set (map Keyword results)))) doc.
Proof.
  unfold highlight_pdf. cbn [snd]. apply map_ext. intros pg.
  now rewrite annotations_of_page.
Qed.

Lemma list_of_set_nodup (l : list str) :
  Permutation (list_of_set l) (nodup str_dec l).
Proof.
  apply NoDup_Permutation.
  - apply list_of_set_once.
  - apply NoDup_nodup.
  - intros x. rewrite list_of_set_elements, nodup_In. reflexivity.
Qed.

Lemma list_sum_map_Permutation {A : Type} (f : A -> nat) (l l' : list A) :
  Permutation l l' -> list_sum (map f l) = list_sum (map f l').
Proof.
  induction 1; simpl; lia.
Qed.

(** The overlay marks the hits of the findings' keywords and nothing
    else. *)
Lemma highlight_pdf_spec (doc : list page) (results : list finding)
      (filename : str) :
  map fst (snd (highlight_pdf doc results filename)) = doc
  /\ Forall (fun pa =>
       (forall inst, In inst (snd pa) <->
          exists f, In f results /\ In inst (search_for (fst pa) (Keyword f)))
       /\ length (snd pa)
          = list_sum (map (fun kw => length (search_for (fst pa) kw))
                          (nodup str_dec (map Keyword results))))
     (snd (highlight_pdf doc results filename))
  /\ (results = [] ->
      Forall (fun pa => snd pa = []) (snd (highlight_pdf doc results filename))).
Proof.
  rewrite highlight_pdf_pages. split; [|split].
  - rewrite map_map. simpl. apply map_id.
  - apply Forall_forall. intros [pg annots] Hin.
    apply in_map_iff in Hin. destruct Hin as [pg' [Heq _]].
    injection Heq as -> <-. cbn [fst snd]. split.
    + intros inst. rewrite in_flat_map. split.
      * intros [kw [Hkw Hinst]].
        apply (proj1 (list_of_set_elements _ _)) in Hkw.
        apply in_map_iff in Hkw. destruct Hkw as [f [<- Hf]]. now exists f.
      * intros [f [Hf Hinst]]. exists (Keyword f). split; [|exact Hinst].
        apply (proj2 (list_of_set_elements _ _)). now apply in_map.
    + rewrite length_flat_map. apply list_sum_map_Permutation.
      apply list_of_set_nodup.
  - intros ->. apply Forall_forall. intros [pg annots] Hin.
    apply in_map_iff in Hin. destruct Hin as [pg' [Heq _]].
    injection Heq as _ <-. cbn [snd map].
    destruct (list_of_set []) as [|kw kws] eqn:E; [reflexivity|].
    exfalso. assert (Hkw : In kw (list_of_set []))
      by (rewrite E; now left).
    apply (proj1 (list_of_set_elements _ _)) in Hkw. destruct Hkw.
Qed.

End PdfOverlay.

(** X19.  Whatever order the interpreter gives the set of keywords, the
    overlay keeps the pages and their order and marks on each page exactly
    the areas a search for a keyword of some finding returns there; a
    keyword of the table without a finding is not searched.  A keyword is
    searched once however many findings it has, so a page gets as many
    marks as the distinct keywords of the findings have hits on it, and
    none at all when there is no finding. *)
Theorem pdf_overlay_marks_the_hits_of_found_keywords :
  forall (page rect : Type) (search_for : page -> str -> list rect)
         (list_of_set : list str -> list str)
         (doc : list page) (results : list finding) (filename : str),
    (forall l, NoDup (list_of_set l)) ->
    (forall l x, In x (list_of_set l) <-> In x l) ->
    let saved := snd (highlight_pdf search_for list_of_set doc results filename) in
    fst (highlight_pdf search_for list_of_set doc results filename)
      = #"../reports/" ++ filename ++ #"_highlighted.pdf"
    /\ map fst saved = doc
    /\ Forall (fun pa =>
         (forall inst, In inst (snd pa) <->
            exists f, In f results
                      /\ In inst (search_for (fst pa) (Keyword f)))
         /\ length (snd pa)
            = list_sum (map (fun kw => length (search_for (fst pa) kw))
                            (nodup str_dec (map Keyword results))))
       saved
    /\ (results = [] -> Forall (fun pa => snd pa = []) saved).
Proof.
  intros page rect search_for list_of_set doc results filename Honce Helts saved.
  split; [reflexivity|]. subst saved.
  now apply highlight_pdf_spec.
Qed.

Lemma pdf_overlay_marks_the_hits_of_found_keywords_witness :
  let search := fun (pg : str) (kw : str) =>
                  if contains kw pg then [kw] else [] in
  let f := {| Risk_Type := #"Payment Risk"; Keyword := #"penalty";
              Sentence := #"A penalty applies"; Line_Number := 1;
              AI_Summary := #"-" |} in
  snd (highlight_pdf search (nodup str_dec) [#"a penalty"; #"no court"]
                     [f; f] #"contract")
  = [(#"a penalty", [#"penalty"]); (#"no court", [])]
  /\ map fst (snd (highlight_pdf search (nodup str_dec)
                                 [#"a penalty"; #"no court"]
                                 [f; f] #"contract"))
     = [#"a penalty"; #"no court"].
Proof.
  intros search f. split; [vm_compute; reflexivity|].
  refine (proj1 (proj2 (@pdf_overlay_marks_the_hits_of_found_keywords
    str str search (nodup str_dec) [#"a penalty"; #"no court"]
    [f; f] #"contract" _ _))).
  - intros l. apply NoDup_nodup.
  - intros l x. apply nodup_In.
Defined.

(* ===================================================================== *)
(** ** Reading a contract *)
(* ===================================================================== *)

(** [s.endswith(suffix)] *)
Definition endswith (suffix s : str) : bool :=
  startswith (rev suffix) (rev s).

Section Reader.

(** What the two document libraries give for a path: the texts of the
    paragraphs of a DOCX file and the texts extracted from the pages of a
    PDF file, or nothing when opening the file or extracting its text
    raises (the script catches nothing here). *)
Variable docx_paragraphs : str -> option (list str).
Variable pdf_page_texts : str -> option (list str).

(** [read_document(file_path)]: the text and the lines printed, or
    nothing when reading raised. *)
Definition read_document (file_path : str) : option (str * list str) :=
  if endswith #".docx" (lower file_path) then
    match docx_paragraphs file_path with
    | Some paragraphs => Some (join [LF] paragraphs, [])
    | None => None
    end
  else if endswith #".pdf" (lower file_path) then
    match pdf_page_texts file_path with
    | Some pages =>
        Some (fold_left (fun text page_text => text ++ page_text ++ [LF])
                        pages [], [])
    | None => None
    end
  else Some ([], [#"Unsupported file format."]).

End Reader.

Section ReaderFacts.

Lemma endswith_spec (suffix s : str) :
  endswith suffix s = true <-> exists pre, s = pre ++ suffix.
Proof.
  unfold endswith. rewrite startswith_spec. split.
  - intros [post H]. exists (rev post).
    rewrite <- (rev_involutive s), H, rev_app_distr, rev_involutive.
    reflexivity.
  - intros [pre ->]. exists (rev pre). apply rev_app_distr.
Qed.

Lemma endswith_app (suffix pre s : str) :
  endswith suffix s = true -> endswith suffix (pre ++ s) = true.
Proof.
  rewrite !endswith_spec. intros [p ->]. exists (pre ++ p).
  now rewrite app_assoc.
Qed.

Lemma pdf_text_concat (pages : list str) (acc : str) :
  fold_left (fun text page_text => text ++ page_text ++ [LF]) pages acc
  = acc ++ concat (map (fun page_text => page_text ++ [LF]) pages).
Proof.
  revert acc. induction pages as [|p pages IH]; intros acc; simpl.
  - now rewrite app_nil_r.
  - rewrite IH, <- !app_assoc. reflexivity.
Qed.

Lemma split_concat_terminated (sep : ascii) (l : list str) :
  Forall (fun w => ~ In sep w) l ->
  split sep (concat (map (fun w => w ++ [sep]) l)) = l ++ [[]].
Proof.
  intros H. destruct l as [|w l]; [reflexivity|].
  rewrite concat_with_sep by discriminate.
  assert (E : join [sep] (w :: l) ++ [sep] = join [sep] ((w :: l) ++ [[]])).
  { clear H. revert w. induction l as [|w' l IH]; intros w.
    - simpl. reflexivity.
    - change (join [sep] (w :: w' :: l)) with (w ++ [sep] ++ join [sep] (w' :: l)).
      change (join [sep] ((w :: w' :: l) ++ [[]]))
        with (w ++ [sep] ++ join [sep] ((w' :: l) ++ [[]])).
      rewrite <- IH, <- !app_assoc. reflexivity. }
  rewrite E. apply split_join; [discriminate|].
  apply Forall_app. split; [exact H|]. constructor; [intros []|constructor].
Qed.

End ReaderFacts.

(** X20.  The kind of a file is told from the end of its name, letters in
    any case.  A name that ends neither in .docx nor in .pdf is not
    opened: the text is empty and the line "Unsupported file format." is
    printed.  For a DOCX file whose paragraphs hold no line break, the
    lines of the text read are the paragraphs of the file, one line each,
    and a file without any paragraph reads as the empty text, which is one
    empty line; for a PDF file whose page texts hold no line break, the
    lines are the page texts, and one empty line after the last. *)
Theorem read_document_by_extension :
  forall (docx_paragraphs pdf_page_texts : str -> option (list str))
         (file_path : str),
    (endswith #".docx" (lower file_path) = false ->
     endswith #".pdf" (lower file_path) = false ->
     read_document docx_paragraphs pdf_page_texts file_path
     = Some ([], [#"Unsupported file format."]))
    /\ (forall paragraphs,
          endswith #".docx" (lower file_path) = true ->
          docx_paragraphs file_path = Some paragraphs ->
          Forall (fun p => ~ In LF p) paragraphs ->
          exists text,
            read_document docx_paragraphs pdf_page_texts file_path
              = Some (text, [])
            /\ split LF text = match paragraphs with
                               | [] => [[]]
                               | _ :: _ => paragraphs
                               end)
    /\ (forall pages,
          endswith #".docx" (lower file_path) = false ->
          endswith #".pdf" (lower file_path) = true ->
          pdf_page_texts file_path = Some pages ->
          Forall (fun p => ~ In LF p) pages ->
          exists text,
            read_document docx_paragraphs pdf_page_texts file_path
              = Some (text, [])
            /\ split LF text = pages ++ [[]]).
Proof.
  intros docx_paragraphs pdf_page_texts file_path. unfold read_document.
  split; [|split].
  - intros -> ->. reflexivity.
  - intros paragraphs -> -> Hall. eexists. split; [reflexivity|].
    destruct paragraphs as [|p ps]; [reflexivity|].
    apply split_join; [discriminate | exact Hall].
  - intros pages -> -> -> Hall. eexists. split; [reflexivity|].
    rewrite pdf_text_concat. simpl app.
    now apply split_concat_terminated.
Qed.

Example read_document_upper_case_extension :
  read_document (fun _ => Some [#"First clause"; #"Second clause"])
                (fun _ => None) #"../contracts/Lease.DOCX"
  = Some (#"First clause" ++ [LF] ++ #"Second clause", []).
Proof. reflexivity. Qed.

Example read_document_other_extension :
  read_document (fun _ => None) (fun _ => None) #"../contracts/notes.txt"
  = Some ([], [#"Unsupported file format."]).
Proof. reflexivity. Qed.

(* ===================================================================== *)
(** ** Scanning a file and the menu *)
(* ===================================================================== *)

From Stdlib Require Import ZArith.

Module Pipeline.

(** [l[i]] for a Python list: a negative index counts from the end, an
    index outside the list raises [IndexError]. *)
Definition index {A : Type} (l : list A) (i : Z) : option A :=
  let n := Z.of_nat (length l) in
  if ((0 <=? i) && (i <? n))%Z then nth_error l (Z.to_nat i)
  else if ((- n <=? i) && (i <? 0))%Z then nth_error l (Z.to_nat (n + i))
  else None.

(** [s.rsplit(sep, 1)]: [s] cut at its last separator, if it has one. *)
Definition rsplit1 (sep : ascii) (s : str) : list str :=
  match rev (split sep s) with
  | after :: ((_ :: _) as before) => [join [sep] (rev before); after]
  | _ => [s]
  end.

(** [f.lower().endswith((".docx", ".pdf"))] *)
Definition supported (f : str) : bool :=
  endswith #".docx" (lower f) || endswith #".pdf" (lower f).

(** The lines of the menu, as the triple-quoted string has them. *)
Definition menu : str :=
  join [LF] [ []; #"=== CONTRACT RISK SCANNER MENU ==="; [];
              #"1. Scan a Contract"; #"2. View Risk Rules";
              #"3. Add a Keyword"; #"4. Remove a Keyword"; #"5. Exit"; [] ].

(** A file the program has written under ../reports. *)
Inductive artifact (page rect : Type) :=
| CsvFile (path : str) (lines : list (list str))
| DocxFile (path : str) (doc : document)
| PdfFile (path : str) (pages : list (page * list rect))
| ChartFile (c : chart).

Arguments CsvFile {page rect} path lines.
Arguments DocxFile {page rect} path doc.
Arguments PdfFile {page rect} path pages.
Arguments ChartFile {page rect} c.

(** What lies outside the program: the summarizer service, the folder of
    contracts (not changed while the program runs), the document
    libraries, the PDF library, the order in which a set is iterated,
    [int] on a string ([None] where it raises [ValueError]), and whether
    a report can be written: [writes a] is false where making the folder,
    building the file or saving it raises (the DOCX library, for one,
    refuses a form feed in a text). *)
Record externals (World page rect : Type) := {
  service : str -> World -> response * World;
  listdir : option (list str);
  docx_text : str -> option (list str);
  pdf_text : str -> option (list str);
  pdf_open : str -> option (list page);
  pdf_search : page -> str -> list rect;
  set_order : list str -> list str;
  int_of_str : str -> option Z;
  writes : artifact page rect -> bool
}.

(** An exception nothing catches; it ends the program.  [LibraryError]
    stands for whatever listing the folder, a document library, the PDF
    library or the writing of a report raises. *)
Inductive exn := EOFError | ValueError | IndexError | LibraryError.

Section Program.

Variables World page rect : Type.
Variable ext : externals World page rect.

(** The console, the state of the service and the files written so far. *)
Record session := {
  console : Console.state;
  world : World;
  written : list (artifact page rect)
}.

(** How a run ends: with a value, with an exception and the state it
    happens in, or not within the steps it was given. *)
Inductive result (A : Type) :=
| Ok (a : A) (s : session)
| Crash (e : exn) (s : session)
| Unfinished.

Arguments Crash {A} e s.
Arguments Unfinished {A}.

Definition Run (A : Type) : Type := session -> result A.

Definition unit_run {A : Type} (a : A) : Run A := fun s => Ok a s.

Definition and_then {A B : Type} (m : Run A) (k : A -> Run B) : Run B :=
  fun s => match m s with
           | Ok a s' => k a s'
           | Crash e s' => Crash e s'
           | Unfinished => Unfinished
           end.

Notation "x <~ m ;; k" := (and_then m (fun x => k))
  (at level 61, m at next level, right associativity).
Notation "m >> k" := (and_then m (fun _ => k))
  (at level 61, right associativity).

(** The session after some lines were printed. *)
Definition said (lines : list str) (s : session) : session :=
  {| console := printed lines (console s);
     world := world s; written := written s |}.

(** [print(msg)] *)
Definition say (msg : str) : Run unit := fun s => Ok tt (said [msg] s).

(** [input(prompt)]: the prompt is written, then a line is read; at the
    end of input [EOFError] is raised, the prompt standing printed. *)
Definition ask (prompt : str) : Run str :=
  fun s => match stdin (console s) with
           | [] => Crash EOFError (said [prompt] s)
           | line :: rest =>
               Ok line {| console := {| rules := rules (console s);
                                        stdin := rest;
                                        stdout := stdout (console s)
                                                  ++ [prompt] |};
                          world := world s; written := written s |}
           end.

(** Reading the global [RISK_RULES], and changing it. *)
Definition table : Run dict := fun s => Ok (rules (console s)) s.

Definition set_table (d : dict) : Run unit :=
  fun s => Ok tt {| console := {| rules := d; stdin := stdin (console s);
                                  stdout := stdout (console s) |};
                    world := world s; written := written s |}.

(** A call that returns or raises. *)
Definition attempt {A : Type} (o : option A) (e : exn) : Run A :=
  fun s => match o with
           | Some a => Ok a s
           | None => Crash e s
           end.

(** Writing a report: the file is there, or the writing raises. *)
Definition save (a : artifact page rect) : Run unit :=
  fun s => if writes ext a
           then Ok tt {| console := console s; world := world s;
                         written := written s ++ [a] |}
           else Crash LibraryError s.

(** [scan_contract(text)], reading the table and talking to the service. *)
Definition scan (text : str) : Run (list finding) :=
  fun s =>
    let (results, w) :=
      scan_contract (service ext) (rules (console s)) text (world s) in
    Ok results {| console := console s; world := w; written := written s |}.

Fixpoint for_each_run {A : Type} (xs : list A) (body : A -> Run unit)
  : Run unit :=
  match xs with
  | [] => unit_run tt
  | x :: xs' => body x >> for_each_run xs' body
  end.

(** The three commands of the rule management as the menu runs them: the
    lines of [show_rules], [add_keyword] and [remove_keyword] once more,
    now keeping the state in which the end of input strikes. *)
Definition menu_show_rules : Run unit :=
  say ([LF] ++ #"=== CURRENT RISK RULES ===") >>
  RISK_RULES <~ table ;;
  for_each_run (items RISK_RULES) (fun '(category, keywords) =>
    say ([LF] ++ category ++ #":") >>
    for_each_run keywords (fun kw => say (#"  - " ++ kw))) >>
  say [LF].

Definition menu_add_keyword : Run unit :=
  category <~ ask #"Enter risk category (or type NEW to create a new one): " ;;
  category <~ (if str_eqb (lower category) #"new" then
                 new_cat <~ ask #"Enter new category name: " ;;
                 RISK_RULES <~ table ;;
                 set_table (dict_set new_cat [] RISK_RULES) >>
                 unit_run new_cat
               else unit_run category) ;;
  answer <~ ask #"Enter keyword to add: " ;;
  let keyword := lower answer in
  RISK_RULES <~ table ;;
  match dict_get category RISK_RULES with
  | None => say #"Category does not exist."
  | Some keywords =>
      set_table (dict_set category (keywords ++ [keyword]) RISK_RULES) >>
      say (#"Keyword '" ++ keyword ++ #"' added to '" ++ category ++ #"'.")
  end.

Definition menu_remove_keyword : Run unit :=
  category <~ ask #"Enter category to edit: " ;;
  RISK_RULES <~ table ;;
  match dict_get category RISK_RULES with
  | None => say #"Category does not exist."
  | Some keywords =>
      say (#"Keywords in " ++ category ++ #": " ++ repr_list keywords) >>
      answer <~ ask #"Enter keyword to remove: " ;;
      let keyword := lower answer in
      if existsb (str_eqb keyword) keywords then
        set_table (dict_set category (list_remove keyword keywords)
                            RISK_RULES) >>
        say #"Keyword removed."
      else say #"Keyword not found."
  end.

(** [scan_file()] *)
Definition scan_file : Run unit :=
  files <~ attempt (listdir ext) LibraryError ;;
  let files := filter supported files in
  match files with
  | [] => say #"No DOCX or PDF files found in ../contracts."
  | _ :: _ =>
      say ([LF] ++ #"Available contract files:") >>
      for_each_run (enumerate files) (fun '(i, f) =>
        say (str_of_nat (i + 1) ++ #". " ++ f)) >>
      answer <~ ask ([LF] ++ #"Enter file number to scan: ") ;;
      number <~ attempt (int_of_str ext answer) ValueError ;;
      let choice := (number - 1)%Z in
      file_name <~ attempt (index files choice) IndexError ;;
      let file_path := #"../contracts/" ++ file_name in
      let base_filename := hd [] (rsplit1 "." file_name) in
      say ([LF] ++ #"Reading file: " ++ file_name ++ #"..." ++ [LF]) >>
      read <~ attempt (read_document (docx_text ext) (pdf_text ext) file_path)
                      LibraryError ;;
      let text := fst read in
      for_each_run (snd read) say >>
      match strip text with
      | [] => say #"No text extracted from file. Cannot scan."
      | _ :: _ =>
          say (#"Scanning for risks with AI summaries..." ++ [LF]) >>
          results <~ scan text ;;
          match results with
          | [] => say #"No risks found. Contract appears clean."
          | _ :: _ => say (str_of_nat (length results)
                           ++ #" risks found. Generating reports...")
          end >>
          let csv := save_csv_report results base_filename in
          save (CsvFile (fst csv) (snd csv)) >>
          say (#"CSV report saved to: " ++ fst csv) >>
          RISK_RULES <~ table ;;
          let docx := save_docx_report RISK_RULES results text
                                       base_filename in
          save (DocxFile (fst docx) (snd docx)) >>
          say (#"DOCX report saved to: " ++ fst docx) >>
          (if endswith #".pdf" (lower file_path) then
             doc <~ attempt (pdf_open ext file_path) LibraryError ;;
             let pdf := highlight_pdf (pdf_search ext) (set_order ext)
                                      doc results base_filename in
             save (PdfFile (fst pdf) (snd pdf)) >>
             say (#"PDF with highlights saved to: " ++ fst pdf)
           else unit_run tt) >>
          let dashboard := generate_dashboard results in
          match fst dashboard with
          | Some c => save (ChartFile c)
          | None => unit_run tt
          end >>
          for_each_run (snd dashboard) say
      end
  end.

(** [main_menu()].  The loop goes round once for each choice read, so a
    number of rounds above the number of lines on standard input is never
    used up; [main_menu] gives the loop that many. *)
Fixpoint main_menu_loop (rounds : nat) : Run unit :=
  match rounds with
  | 0 => fun _ => Unfinished
  | S rounds' =>
      say menu >>
      choice <~ ask #"Enter choice: " ;;
      if str_eqb choice #"1" then scan_file >> main_menu_loop rounds'
      else if str_eqb choice #"2" then
        menu_show_rules >> main_menu_loop rounds'
      else if str_eqb choice #"3" then
        menu_add_keyword >> main_menu_loop rounds'
      else if str_eqb choice #"4" then
        menu_remove_keyword >> main_menu_loop rounds'
      else if str_eqb choice #"5" then say #"Goodbye!"
      else say #"Invalid choice. Try again." >> main_menu_loop rounds'
  end.

Definition main_menu : Run unit :=
  fun s => main_menu_loop (S (length (stdin (console s)))) s.

End Program.

Arguments Ok {World page rect A} a s.
Arguments Crash {World page rect A} e s.
Arguments Unfinished {World page rect A}.

End Pipeline.
Import Pipeline.

Example index_from_the_end :
  index [#"a.pdf"; #"b.docx"; #"c.pdf"] (-1) = Some #"c.pdf"
  /\ index [#"a.pdf"; #"b.docx"; #"c.pdf"] 3 = None
  /\ index [#"a.pdf"; #"b.docx"; #"c.pdf"] (-4) = None.
Proof. repeat split. Qed.

Example rsplit1_last_dot :
  rsplit1 "." #"Lease.v2.PDF" = [#"Lease.v2"; #"PDF"]
  /\ rsplit1 "." #"README" = [#"README"].
Proof. split; reflexivity. Qed.

(* --------------------------------------------------------------------- *)
(** *** What a run keeps *)
(* --------------------------------------------------------------------- *)

Section ProgramFacts.

Variables World page rect : Type.
Variable ext : externals World page rect.

Local Abbreviation session := (session World page rect).
Local Abbreviation Run := (Run World page rect).

(** From [s] to [s']: input is only read, output and files only added,
    the shape of the table kept. *)
Record steady (s s' : session) : Prop := {
  steady_stdin : exists read, stdin (console s) = read ++ stdin (console s');
  steady_stdout :
    exists more, stdout (console s') = stdout (console s) ++ more;
  steady_written : exists more, written s' = written s ++ more;
  steady_wf : wf (rules (console s)) -> wf (rules (console s'));
  steady_lower :
    all_lower (rules (console s)) -> all_lower (rules (console s'));
  steady_keys : incl (keys (rules (console s))) (keys (rules (console s')))
}.

(** The same, and the table untouched. *)
Definition quiet (s s' : session) : Prop :=
  rules (console s') = rules (console s) /\ steady s s'.

Lemma steady_refl (s : session) : steady s s.
Proof.
  split; auto; try (exists []; simpl; now rewrite ?app_nil_r).
  apply incl_refl.
Qed.

Lemma steady_trans (a b c : session) : steady a b -> steady b c -> steady a c.
Proof.
  intros [[r1 H1] [o1 H2] [w1 H3] H4 H5 H6] [[r2 G1] [o2 G2] [w2 G3] G4 G5 G6].
  split; auto.
  - exists (r1 ++ r2). now rewrite H1, G1, app_assoc.
  - exists (o1 ++ o2). now rewrite G2, H2, app_assoc.
  - exists (w1 ++ w2). now rewrite G3, H3, app_assoc.
  - eapply incl_tran; eassumption.
Qed.

Lemma quiet_refl (s : session) : quiet s s.
Proof. split; [reflexivity | apply steady_refl]. Qed.

Lemma quiet_trans (a b c : session) : quiet a b -> quiet b c -> quiet a c.
Proof.
  intros [H1 H2] [G1 G2]. split; [congruence | eapply steady_trans; eassumption].
Qed.

Lemma quiet_steady (a b : session) : quiet a b -> steady a b.
Proof. now intros [_ H]. Qed.

(** A run respects a relation when it ends, and ends in a related state. *)
Definition respects (R : session -> session -> Prop) {A : Type} (m : Run A)
  : Prop :=
  forall s, match m s with
            | Ok _ s' => R s s'
            | Crash _ s' => R s s'
            | Unfinished => False
            end.

Section Respects.

Variable R : session -> session -> Prop.
Hypothesis R_refl : forall s, R s s.
Hypothesis R_trans : forall a b c, R a b -> R b c -> R a c.

Lemma respects_unit {A : Type} (a : A) : respects R (unit_run a).
Proof. intros s. apply R_refl. Qed.

Lemma respects_attempt {A : Type} (o : option A) (e : exn) :
  respects R (attempt o e).
Proof. intros s. unfold attempt. destruct o; apply R_refl. Qed.

Lemma respects_and_then {A B : Type} (m : Run A) (k : A -> Run B) :
  respects R m -> (forall a, respects R (k a)) -> respects R (and_then m k).
Proof.
  intros Hm Hk s. unfold and_then. specialize (Hm s).
  destruct (m s) as [a s1|e s1|]; [|exact Hm|exact Hm].
  specialize (Hk a s1). destruct (k a s1); try eauto. 
Qed.

Lemma respects_for_each {A : Type} (xs : list A) (body : A -> Run unit) :
  (forall x, respects R (body x)) -> respects R (for_each_run xs body).
Proof.
  intros Hb. induction xs as [|x xs IH]; simpl.
  - apply respects_unit.
  - apply respects_and_then; [apply Hb | intros _; exact IH].
Qed.

End Respects.

Lemma respects_weaken (R R' : session -> session -> Prop) {A : Type}
      (m : Run A) :
  (forall s s', R s s' -> R' s s') -> respects R m -> respects R' m.
Proof.
  intros HR Hm s. specialize (Hm s).
  destruct (m s); auto.
Qed.

(** A step at the console that only reads and prints. *)
Lemma quiet_console (s : session) (st : Console.state) :
  rules st = rules (console s) ->
  (exists read, stdin (console s) = read ++ stdin st) ->
  (exists more, stdout st = stdout (console s) ++ more) ->
  quiet s {| console := st; world := world s; written := written s |}.
Proof.
  intros Hr Hi Ho. split; [exact Hr|]. split; cbn [console written].
  - exact Hi.
  - exact Ho.
  - exists []. now rewrite app_nil_r.
  - now rewrite Hr.
  - now rewrite Hr.
  - rewrite Hr. apply incl_refl.
Qed.

Lemma quiet_said (lines : list str) (s : session) : quiet s (said lines s).
Proof.
  apply quiet_console; simpl; [reflexivity | now exists [] | now exists lines].
Qed.

Lemma quiet_say (msg : str) : respects quiet (say msg).
Proof. intros s. apply quiet_said. Qed.

Lemma quiet_ask (prompt : str) : respects quiet (ask prompt).
Proof.
  intros s. unfold ask.
  destruct (stdin (console s)) as [|line rest] eqn:E; [apply quiet_said|].
  apply quiet_console; simpl; [reflexivity | | now exists [prompt]].
  exists [line]. now rewrite E.
Qed.

Lemma quiet_table : respects quiet (@table World page rect).
Proof. intros s. apply quiet_refl. Qed.

Lemma quiet_save (a : artifact page rect) : respects quiet (save ext a).
Proof.
  intros s. unfold save. destruct (writes ext a); [|apply quiet_refl].
  split; [reflexivity|].
  split; cbn [console written]; auto;
    try (exists []; now rewrite ?app_nil_r).
  - now exists [a].
  - apply incl_refl.
Qed.

Lemma quiet_scan (text : str) : respects quiet (scan ext text).
Proof.
  intros s. unfold scan.
  destruct (scan_contract (service ext) (rules (console s)) text (world s))
    as [results w].
  split; [reflexivity|].
  split; cbn [console written]; auto;
    try (exists []; now rewrite ?app_nil_r).
  apply incl_refl.
Qed.

End ProgramFacts.

(** A run put together from steps that leave the table alone leaves the
    table alone. *)
Ltac quiet_run :=
  repeat first
    [ apply quiet_say | apply quiet_ask | apply quiet_save
    | apply quiet_scan | apply quiet_table
    | apply (respects_unit (@quiet _ _ _) (@quiet_refl _ _ _))
    | apply (respects_attempt (@quiet _ _ _) (@quiet_refl _ _ _))
    | apply (respects_for_each (@quiet_refl _ _ _) (@quiet_trans _ _ _));
      intros
    | apply (respects_and_then (@quiet_trans _ _ _)); [|intros]
    | match goal with
      | |- respects _ (let '(_, _) := ?x in _) => destruct x
      | |- respects _ (match ?x with _ => _ end) => destruct x
      | |- respects _ (if ?x then _ else _) => destruct x
      end ].

Section ScanFileKeeps.

Variables World page rect : Type.
Variable ext : externals World page rect.

(** [scan_file] ends, and leaves the table as it is. *)
Lemma scan_file_quiet : respects (@quiet World page rect) (scan_file ext).
Proof.
  unfold scan_file.
  apply (respects_and_then (@quiet_trans _ _ _));
    [apply (respects_attempt (@quiet _ _ _) (@quiet_refl _ _ _))|].
  intros dir. cbv zeta. destruct (filter supported dir) as [|f0 files] eqn:Ef.
  - apply quiet_say.
  - quiet_run.
Qed.

(** So does [show_rules]. *)
Lemma menu_show_rules_quiet :
  respects (@quiet World page rect) (@menu_show_rules World page rect).
Proof. unfold menu_show_rules. quiet_run. Qed.

End ScanFileKeeps.

(* --------------------------------------------------------------------- *)
(** *** What the menu commands keep *)
(* --------------------------------------------------------------------- *)

Section CommandEffects.

Variables World page rect : Type.

Local Abbreviation session := (session World page rect).
Local Abbreviation Run := (Run World page rect).

(** From one table to the next: no name comes to stand twice, lowercase
    keywords stay lowercase, no category is lost. *)
Definition shape (d d' : dict) : Prop :=
  (wf d -> wf d')
  /\ (all_lower d -> all_lower d')
  /\ incl (keys d) (keys d').

Lemma shape_refl (d : dict) : shape d d.
Proof. split; [auto|]. split; [auto | apply incl_refl]. Qed.

Lemma shape_trans (a b c : dict) : shape a b -> shape b c -> shape a c.
Proof.
  intros [H1 [H2 H3]] [G1 [G2 G3]]. split; [auto|]. split; [auto|].
  eapply incl_tran; eassumption.
Qed.

Lemma dict_set_shape (k : str) (v : list str) (d : dict) :
  Forall (fun kw => lower kw = kw) v \/
  (all_lower d -> Forall (fun kw => lower kw = kw) v) ->
  shape d (dict_set k v d).
Proof.
  intros Hv. split; [apply dict_set_wf|]. split.
  - intros Hl. apply all_lower_set; [exact Hl|]. destruct Hv; auto.
  - intros k0. apply dict_set_keeps_keys.
Qed.

(** From one console state to the next: input only read, output only
    added, the shape of the table kept. *)
Definition console_steady (st st' : Console.state) : Prop :=
  (exists read, stdin st = read ++ stdin st')
  /\ (exists more, stdout st' = stdout st ++ more)
  /\ shape (rules st) (rules st').

Lemma steady_console (s : session) (st : Console.state) :
  console_steady (console s) st ->
  steady s {| console := st; world := world s; written := written s |}.
Proof.
  intros [Hi [Ho [Hw [Hl Hk]]]]. split; cbn [console written]; auto.
  exists []. now rewrite app_nil_r.
Qed.

Lemma steady_step (d d' : dict) (ins ins' out more : list str)
      (w : World) (wr : list (artifact page rect)) :
  (exists read, ins = read ++ ins') ->
  shape d d' ->
  steady {| console := {| rules := d; stdin := ins; stdout := out |};
            world := w; written := wr |}
         {| console := {| rules := d'; stdin := ins';
                          stdout := out ++ more |};
            world := w; written := wr |}.
Proof.
  intros Hin Hd.
  apply (@steady_console
           {| console := {| rules := d; stdin := ins; stdout := out |};
              world := w; written := wr |}
           {| rules := d'; stdin := ins'; stdout := out ++ more |}).
  split; [exact Hin|]. split; [now exists more | exact Hd].
Qed.

End CommandEffects.

(** The lines read between two states of the input. *)
Ltac lines_read :=
  first [ exists []; reflexivity
        | eexists (_ :: nil); reflexivity
        | eexists (_ :: _ :: nil); reflexivity
        | eexists (_ :: _ :: _ :: nil); reflexivity ].

(** A command followed step by step from a state written out. *)
Ltac follow :=
  unfold and_then, ask, table, set_table, unit_run, say, said, printed;
  cbn [console world written rules stdin stdout].

Ltac steady_end :=
  rewrite <- ?app_assoc; apply steady_step; [lines_read|].

Section CommandsKeep.

Variables World page rect : Type.

Local Abbreviation session := (session World page rect).

(** [add_keyword], wherever the end of input stops it. *)
Lemma menu_add_keyword_steady :
  respects (@steady World page rect) (@menu_add_keyword World page rect).
Proof.
  intros [[d ins out] w wr]. unfold menu_add_keyword.
  remember #"new" as new eqn:Enew.
  destruct ins as [|c ins]; [follow; steady_end; apply shape_refl|].
  follow. destruct (str_eqb (lower c) new).
  - destruct ins as [|n ins]; [follow; steady_end; apply shape_refl|].
    follow.
    assert (Hn : shape d (dict_set n [] d))
      by (apply dict_set_shape; left; constructor).
    destruct ins as [|a rest]; [follow; steady_end; exact Hn|].
    follow. rewrite dict_get_set_same. follow. steady_end.
    eapply shape_trans; [exact Hn|].
    apply dict_set_shape. left. repeat constructor. apply lower_idem.
  - follow.
    destruct ins as [|a rest]; [follow; steady_end; apply shape_refl|].
    follow. destruct (dict_get c d) as [kws|] eqn:G; follow; steady_end.
    + apply dict_set_shape. right. intros Hl. apply Forall_app. split.
      * eapply all_lower_get; eassumption.
      * repeat constructor. apply lower_idem.
    + apply shape_refl.
Qed.

(** [remove_keyword], wherever the end of input stops it. *)
Lemma menu_remove_keyword_steady :
  respects (@steady World page rect) (@menu_remove_keyword World page rect).
Proof.
  intros [[d ins out] w wr]. unfold menu_remove_keyword.
  destruct ins as [|c ins]; [follow; steady_end; apply shape_refl|].
  follow. destruct (dict_get c d) as [kws|] eqn:G;
    [|follow; steady_end; apply shape_refl].
  follow. destruct ins as [|a rest]; [follow; steady_end; apply shape_refl|].
  follow. destruct (existsb (str_eqb (lower a)) kws); follow; steady_end.
  - apply dict_set_shape. right. intros Hl.
    apply list_remove_Forall. eapply all_lower_get; eassumption.
  - apply shape_refl.
Qed.

End CommandsKeep.

(* --------------------------------------------------------------------- *)
(** *** The menu runs the commands of the rule management *)
(* --------------------------------------------------------------------- *)

Section CommandsAgree.

Variables World page rect : Type.

Local Abbreviation session := (session World page rect).
Local Abbreviation Run := (Run World page rect).

(** The session with another console. *)
Definition at_state (s : session) (st : Console.state) : session :=
  {| console := st; world := world s; written := written s |}.

(** A run does what a console command does: where the command finishes
    the run finishes with the same value and the same console, the service
    and the files untouched; where the command dies of the end of input,
    so does the run, all input read. *)
Definition agrees {A : Type} (c : Cmd A) (m : Run A) : Prop :=
  forall s : session,
    match c (console s) with
    | Some (a, st) => m s = Ok a (at_state s st)
    | None =>
        exists st, m s = Crash EOFError (at_state s st) /\ stdin st = []
    end.

Lemma at_state_console (s : session) : at_state s (console s) = s.
Proof. now destruct s. Qed.

Lemma agrees_ret {A : Type} (a : A) : agrees (Console.ret a) (unit_run a).
Proof. intros s. simpl. unfold unit_run. now rewrite at_state_console. Qed.

Lemma agrees_bind {A B : Type} (c : Cmd A) (m : Run A)
      (k : A -> Cmd B) (k' : A -> Run B) :
  agrees c m -> (forall a, agrees (k a) (k' a)) ->
  agrees (Console.bind c k) (and_then m k').
Proof.
  intros Hm Hk s. specialize (Hm s). unfold Console.bind, and_then.
  destruct (c (console s)) as [[a st]|].
  - rewrite Hm. exact (Hk a (at_state s st)).
  - destruct Hm as [st [-> Hst]]. now exists st.
Qed.

Lemma agrees_print (msg : str) : agrees (print msg) (say msg).
Proof. intros s. reflexivity. Qed.

Lemma agrees_input (prompt : str) : agrees (input prompt) (ask prompt).
Proof.
  intros s. unfold input, ask.
  destruct (stdin (console s)) as [|line rest] eqn:E; [|reflexivity].
  exists (printed [prompt] (console s)). split; [reflexivity | exact E].
Qed.

Lemma agrees_get_rules : agrees get_rules (@table World page rect).
Proof.
  intros s. unfold get_rules, table. now rewrite at_state_console.
Qed.

Lemma agrees_put_rules (d : dict) : agrees (put_rules d) (set_table d).
Proof. intros s. reflexivity. Qed.

Lemma agrees_for_each {A : Type} (xs : list A) (body : A -> Cmd unit)
      (body' : A -> Run unit) :
  (forall x, agrees (body x) (body' x)) ->
  agrees (for_each_cmd xs body) (for_each_run xs body').
Proof.
  intros Hb. induction xs as [|x xs IH]; simpl.
  - apply agrees_ret.
  - apply agrees_bind; [apply Hb | intros _; exact IH].
Qed.

End CommandsAgree.

Ltac agree_run :=
  repeat first
    [ apply agrees_print | apply agrees_input | apply agrees_get_rules
    | apply agrees_put_rules | apply agrees_ret
    | apply agrees_for_each; intros
    | apply agrees_bind; [|intros]
    | match goal with
      | |- agrees (let '(_, _) := ?x in _) _ => destruct x
      | |- agrees (match ?x with _ => _ end) _ => destruct x
      | |- agrees (if ?x then _ else _) _ => destruct x
      end ].

Section MenuCommands.

Variables World page rect : Type.

Lemma menu_show_rules_agrees :
  agrees show_rules (@menu_show_rules World page rect).
Proof. unfold show_rules, menu_show_rules. agree_run. Qed.

Lemma menu_add_keyword_agrees :
  agrees add_keyword (@menu_add_keyword World page rect).
Proof. unfold add_keyword, menu_add_keyword. agree_run. Qed.

Lemma menu_remove_keyword_agrees :
  agrees remove_keyword (@menu_remove_keyword World page rect).
Proof. unfold remove_keyword, menu_remove_keyword. agree_run. Qed.

End MenuCommands.

(* --------------------------------------------------------------------- *)
(** *** What the menu loop keeps *)
(* --------------------------------------------------------------------- *)

Section MenuFacts.

Variables World page rect : Type.
Variable ext : externals World page rect.

Local Abbreviation session := (session World page rect).

Lemma steady_say (msg : str) :
  respects (@steady World page rect) (say msg).
Proof.
  eapply respects_weaken; [apply quiet_steady | apply quiet_say].
Qed.

Lemma steady_length (s s' : session) :
  steady s s' ->
  length (stdin (console s')) <= length (stdin (console s)).
Proof.
  intros [[read H] _ _ _ _ _]. rewrite H, length_app. lia.
Qed.

(** A command and then the rest of the loop. *)
Lemma steady_then_loop (m : Run World page rect unit)
      (loop : Run World page rect unit) (bound : nat) (s : session) :
  respects (@steady World page rect) m ->
  (forall s', length (stdin (console s')) < bound ->
     match loop s' with
     | Ok _ s'' => steady s' s''
     | Crash _ s'' => steady s' s''
     | Unfinished => False
     end) ->
  length (stdin (console s)) < bound ->
  match and_then m (fun _ => loop) s with
  | Ok _ s'' => steady s s''
  | Crash _ s'' => steady s s''
  | Unfinished => False
  end.
Proof.
  intros Hm Hloop Hlen. unfold and_then. specialize (Hm s).
  destruct (m s) as [a s1|e s1|]; [|exact Hm|exact Hm].
  pose proof (steady_length Hm) as Hl.
  specialize (Hloop s1 ltac:(lia)).
  destruct (loop s1) as [b s2|e s2|]; [| |exact Hloop];
    eapply steady_trans; eassumption.
Qed.

(** With more rounds than lines of input the loop ends, and in a state
    the start leads to steadily. *)
Lemma main_menu_loop_steady (rounds : nat) (s : session) :
  length (stdin (console s)) < rounds ->
  match main_menu_loop ext rounds s with
  | Ok _ s' => steady s s'
  | Crash _ s' => steady s s'
  | Unfinished => False
  end.
Proof.
  revert s. induction rounds as [|rounds IH]; intros s Hlen; [lia|].
  cbn [main_menu_loop]. unfold and_then at 1.
  pose proof (steady_say menu s) as Hsay.
  destruct (say menu s) as [u s1|e s1|] eqn:E1; [|exact Hsay|exact Hsay].
  assert (Hin : stdin (console s1) = stdin (console s)).
  { unfold say in E1. injection E1 as _ <-. reflexivity. }
  unfold and_then at 1. unfold ask.
  destruct (stdin (console s1)) as [|choice rest] eqn:E2.
  { eapply steady_trans; [exact Hsay|].
    apply quiet_steady, quiet_said. }
  set (s2 := {| console := {| rules := rules (console s1); stdin := rest;
                              stdout := stdout (console s1)
                                        ++ [#"Enter choice: "] |};
                world := world s1; written := written s1 |}).
  assert (H12 : steady s1 s2).
  { apply steady_console. unfold console_steady. cbn [rules stdin stdout].
    split; [exists [choice]; now rewrite E2|]. split; [eexists; reflexivity|].
    apply shape_refl. }
  assert (Hs2 : steady s s2) by (eapply steady_trans; eassumption).
  assert (Hlen2 : length (stdin (console s2)) < rounds).
  { subst s2. cbn [console stdin]. rewrite <- Hin in Hlen.
    simpl in Hlen. lia. }
  assert (Hgo : forall m : Run World page rect unit,
            respects (@steady World page rect) m ->
            match and_then m (fun _ => main_menu_loop ext rounds) s2 with
            | Ok _ s'' => steady s s''
            | Crash _ s'' => steady s s''
            | Unfinished => False
            end).
  { intros m Hm.
    pose proof (@steady_then_loop m (main_menu_loop ext rounds) rounds s2
                  Hm IH Hlen2) as H.
    destruct (and_then m (fun _ => main_menu_loop ext rounds) s2);
      [| |exact H]; eapply steady_trans; eassumption. }
  destruct (str_eqb choice #"1").
  { apply Hgo. eapply respects_weaken; [apply quiet_steady|].
    apply scan_file_quiet. }
  destruct (str_eqb choice #"2").
  { apply Hgo. eapply respects_weaken; [apply quiet_steady|].
    apply menu_show_rules_quiet. }
  destruct (str_eqb choice #"3").
  { apply Hgo. apply menu_add_keyword_steady. }
  destruct (str_eqb choice #"4").
  { apply Hgo. apply menu_remove_keyword_steady. }
  destruct (str_eqb choice #"5").
  { pose proof (steady_say #"Goodbye!" s2) as H.
    destruct (say #"Goodbye!" s2); [| |exact H];
      eapply steady_trans; eassumption. }
  apply Hgo. apply steady_say.
Qed.

End MenuFacts.

(* --------------------------------------------------------------------- *)
(** *** A folder to try the program on *)
(* --------------------------------------------------------------------- *)

(** A folder with a note, a DOCX lease and a PDF agreement; a service that
    is offline; numbers read from one digit; every report written. *)
Definition sample : externals unit str str :=
  {| service := fun _ w => (Raised #"offline", w);
     listdir := Some [#"notes.txt"; #"Lease.docx"; #"Nda.v2.PDF"];
     docx_text := fun _ => Some [#"LEASE"; #"Late fee applies. Venue: Oslo."];
     pdf_text := fun _ => Some [#"This page is intentionally blank"; #" "];
     pdf_open := fun _ => Some [#"This page is intentionally blank"; #" "];
     pdf_search := fun pg kw => if contains kw pg then [kw] else [];
     set_order := nodup str_dec;
     int_of_str := fun s =>
       match s with
       | [c] => if (48 <=? nat_of_ascii c) && (nat_of_ascii c <=? 57)
                then Some (Z.of_nat (nat_of_ascii c - 48)) else None
       | _ => None
       end;
     writes := fun _ => true |}.

Definition empty_folder : externals unit str str :=
  {| service := service sample;
     listdir := Some [#"notes.txt"; #"todo.md"];
     docx_text := docx_text sample;
     pdf_text := pdf_text sample;
     pdf_open := pdf_open sample;
     pdf_search := pdf_search sample;
     set_order := set_order sample;
     int_of_str := int_of_str sample;
     writes := writes sample |}.

(** The same folder where no DOCX report can be written. *)
Definition no_docx : externals unit str str :=
  {| service := service sample;
     listdir := listdir sample;
     docx_text := docx_text sample;
     pdf_text := pdf_text sample;
     pdf_open := pdf_open sample;
     pdf_search := pdf_search sample;
     set_order := set_order sample;
     int_of_str := int_of_str sample;
     writes := fun a => match a with
                        | DocxFile _ _ => false
                        | _ => true
                        end |}.

Definition start (answers : list str) : session unit str str :=
  {| console := {| rules := RISK_RULES; stdin := answers; stdout := [] |};
     world := tt;
     written := [] |}.

Section RunFacts.

Variables World page rect : Type.
Variable ext : externals World page rect.

Local Abbreviation session := (session World page rect).

Lemma say_run (msg : str) (s : session) : say msg s = Ok tt (said [msg] s).
Proof. reflexivity. Qed.

Lemma said_nil (s : session) : said [] s = s.
Proof. destruct s. unfold said. cbn [console world written]. now rewrite printed_nil. Qed.

Lemma said_said (a b : list str) (s : session) :
  said b (said a s) = said (a ++ b) s.
Proof. unfold said. cbn [console world written]. now rewrite printed_printed. Qed.

Lemma for_each_say {A : Type} (xs : list A) (body : A -> Run World page rect unit)
      (line : A -> str) (s : session) :
  (forall x s, body x s = Ok tt (said [line x] s)) ->
  for_each_run xs body s = Ok tt (said (map line xs) s).
Proof.
  intros Hb. revert s. induction xs as [|x xs IH]; intros s.
  - simpl. unfold unit_run. now rewrite said_nil.
  - cbn [for_each_run]. unfold and_then. rewrite Hb, IH, said_said.
    reflexivity.
Qed.

(** The lines that list the files to choose from. *)
Definition file_lines (files : list str) : list str :=
  map (fun '(i, f) => str_of_nat (i + 1) ++ #". " ++ f) (enumerate files).

End RunFacts.

(* --------------------------------------------------------------------- *)
(** *** Following one run of [scan_file] *)
(* --------------------------------------------------------------------- *)

(** One step of a run: the first command is [tac]-rewritten to its
    outcome, and the state is put back in shape. *)
Ltac run_step tac :=
  unfold and_then at 1; tac; cbv beta iota;
  cbn [console world written said printed rules stdin stdout fst snd].

Section ScanFileRuns.

Variables World page rect : Type.
Variable ext : externals World page rect.

Local Abbreviation session := (session World page rect).

Lemma index_In {A : Type} (l : list A) (i : Z) (x : A) :
  index l i = Some x -> In x l.
Proof.
  unfold index.
  destruct ((0 <=? i) && (i <? Z.of_nat (length l)))%Z;
    [apply nth_error_In|].
  destruct ((- Z.of_nat (length l) <=? i) && (i <? 0))%Z;
    [apply nth_error_In | discriminate].
Qed.

Lemma list_files_run (files : list str) (s : session) :
  for_each_run (enumerate files)
    (fun '(i, f) => say (str_of_nat (i + 1) ++ #". " ++ f)) s
  = Ok tt (said (file_lines files) s).
Proof.
  unfold file_lines. apply for_each_say. intros [i f] s0. reflexivity.
Qed.

Lemma say_all_run (msgs : list str) (s : session) :
  for_each_run msgs (@say World page rect) s = Ok tt (said msgs s).
Proof.
  rewrite <- (map_id msgs) at 2. apply for_each_say. reflexivity.
Qed.

Lemma filter_none {A : Type} (f : A -> bool) (l : list A) :
  (forall x, In x l -> f x = false) -> filter f l = [].
Proof.
  intros H. apply filter_all_false. now apply Forall_forall.
Qed.

(** What is printed before the text is read. *)
Definition opening_lines (files : list str) (file_name : str) : list str :=
  [[LF] ++ #"Available contract files:"] ++ file_lines files
  ++ [[LF] ++ #"Enter file number to scan: ";
      [LF] ++ #"Reading file: " ++ file_name ++ #"..." ++ [LF]].

End ScanFileRuns.

(** X21.  With no file in the folder whose name ends in .docx or .pdf,
    [scan_file] says so and does nothing else: it asks nothing, calls no
    service and writes no file. *)
Theorem scan_file_without_contracts :
  forall (World page rect : Type) (ext : externals World page rect)
         (s : session World page rect) (dir : list str),
    listdir ext = Some dir ->
    (forall f, In f dir -> supported f = false) ->
    scan_file ext s
    = Ok tt {| console :=
                 {| rules := rules (console s); stdin := stdin (console s);
                    stdout := stdout (console s)
                      ++ [#"No DOCX or PDF files found in ../contracts."] |};
               world := world s; written := written s |}.
Proof.
  intros World page rect ext s dir Hdir Hnone.
  unfold scan_file. run_step ltac:(unfold attempt at 1; rewrite Hdir).
  cbv zeta. rewrite (filter_none _ _ Hnone). reflexivity.
Qed.

Lemma scan_file_without_contracts_witness :
  scan_file empty_folder (start [#"1"])
  = Ok tt {| console :=
               {| rules := RISK_RULES; stdin := [#"1"];
                  stdout := [] ++ [#"No DOCX or PDF files found in ../contracts."] |};
             world := tt; written := [] |}.
Proof.
  apply (@scan_file_without_contracts unit str str empty_folder
           (start [#"1"]) [#"notes.txt"; #"todo.md"]).
  - reflexivity.
  - intros f [<-|[<-|[]]]; reflexivity.
Defined.

(** From the start of [scan_file] to the scan of a text with something in
    it: the folder listed, the answer read, the file read. *)
Ltac to_the_scan Hdir Hin Hint Hidx Hread Htext :=
  unfold scan_file;
  run_step ltac:(unfold attempt at 1; rewrite Hdir);
  cbv zeta;
  match type of Hidx with
  | index ?fs _ = _ =>
      let Ef := fresh "Ef" in
      destruct fs eqn:Ef; [destruct (index_In _ _ Hidx)|]
  end;
  run_step ltac:(rewrite say_run);
  run_step ltac:(rewrite list_files_run);
  run_step ltac:(unfold ask at 1; cbn [console said printed stdin];
                 rewrite Hin);
  run_step ltac:(unfold attempt at 1; rewrite Hint);
  run_step ltac:(unfold attempt at 1; rewrite Hidx);
  run_step ltac:(rewrite say_run);
  run_step ltac:(unfold attempt at 1; rewrite Hread);
  run_step ltac:(rewrite say_all_run);
  let Es := fresh "Es" in
  destruct (strip _) eqn:Es in |- *; [congruence|];
  run_step ltac:(rewrite say_run);
  run_step ltac:(unfold scan at 1;
                 cbn [console world written said printed rules]).

(** X22.  A scan that gets a text with something in it writes its
    reports one after the other, as far as they can be written.  Where
    every report can be written, it writes the CSV report and the DOCX
    report, named after the file without its extension, findings or none;
    it writes the PDF overlay exactly when the file's name ends in .pdf,
    and the chart exactly when the dashboard draws one; it reads the one
    answer that chooses the file, leaves the table as it is, and the
    service in the state the scan of the text leaves it in.  Where the CSV
    report can be written and the DOCX report cannot, the scan ends there
    with the exception of the writing: the CSV report is the one file
    written. *)
Theorem scan_file_writes_its_reports :
  forall (World page rect : Type) (ext : externals World page rect)
         (s : session World page rect) (dir : list str)
         (answer : str) (rest : list str) (n : Z)
         (file_name text : str) (msgs : list str) (doc : list page),
    listdir ext = Some dir ->
    stdin (console s) = answer :: rest ->
    int_of_str ext answer = Some n ->
    index (filter supported dir) (n - 1) = Some file_name ->
    read_document (docx_text ext) (pdf_text ext)
                  (#"../contracts/" ++ file_name) = Some (text, msgs) ->
    strip text <> [] ->
    (endswith #".pdf" (lower (#"../contracts/" ++ file_name)) = true ->
     pdf_open ext (#"../contracts/" ++ file_name) = Some doc) ->
    let results :=
      fst (scan_contract (service ext) (rules (console s)) text (world s)) in
    let base := hd [] (rsplit1 "." file_name) in
    let csv : artifact page rect :=
      CsvFile (#"../reports/" ++ base ++ #"_report.csv")
              (snd (save_csv_report results base)) in
    let docx : artifact page rect :=
      DocxFile (#"../reports/" ++ base ++ #"_report.docx")
               (snd (save_docx_report (rules (console s)) results
                                      text base)) in
    ((forall a, writes ext a = true) ->
     exists s',
       scan_file ext s = Ok tt s'
       /\ rules (console s') = rules (console s)
       /\ stdin (console s') = rest
       /\ world s'
          = snd (scan_contract (service ext) (rules (console s)) text
                               (world s))
       /\ written s'
          = written s
            ++ [csv; docx]
            ++ (if endswith #".pdf" (lower (#"../contracts/" ++ file_name))
                then [ PdfFile (#"../reports/" ++ base ++ #"_highlighted.pdf")
                               (snd (highlight_pdf (pdf_search ext)
                                       (set_order ext) doc results base)) ]
                else [])
            ++ match fst (generate_dashboard results) with
               | Some c => [ChartFile c]
               | None => []
               end)
    /\ (writes ext csv = true ->
        writes ext docx = false ->
        exists s',
          scan_file ext s = Crash LibraryError s'
          /\ rules (console s') = rules (console s)
          /\ stdin (console s') = rest
          /\ world s'
             = snd (scan_contract (service ext) (rules (console s)) text
                                  (world s))
          /\ written s' = written s ++ [csv]).
Proof.
  intros World page rect ext s dir answer rest n file_name text msgs doc
         Hdir Hin Hint Hidx Hread Htext Hpdf results base csv docx.
  assert (Hsay : forall (found : list finding) (a b : str)
                        (s0 : session World page rect),
             (match found with [] => say a | _ :: _ => say b end) s0
             = Ok tt (said [match found with [] => a | _ :: _ => b end] s0))
    by (intros found a b s0; destruct found; reflexivity).
  split.
  - intros Hw.
    to_the_scan Hdir Hin Hint Hidx Hread Htext.
    fold base.
    destruct (scan_contract (service ext) (rules (console s)) text (world s))
      as [found w] eqn:Escan.
    cbn [fst snd] in results. subst csv docx results.
    cbv beta iota. cbn [console world written rules stdin stdout].
    run_step ltac:(rewrite Hsay).
    run_step ltac:(unfold save at 1; rewrite Hw).
    run_step ltac:(rewrite say_run).
    run_step ltac:(unfold table at 1; cbn [console said printed rules]).
    run_step ltac:(unfold save at 1; rewrite Hw).
    run_step ltac:(rewrite say_run).
    destruct (endswith #".pdf" (lower (#"../contracts/" ++ file_name)))
      eqn:Epdf.
    + run_step ltac:(unfold and_then at 1, attempt at 1;
                     rewrite (Hpdf eq_refl); cbv beta iota;
                     unfold and_then at 1, save at 1; rewrite Hw;
                     cbv beta iota; rewrite say_run).
      destruct (fst (generate_dashboard found)) as [c|];
        run_step ltac:(first [unfold save at 1; rewrite Hw
                             | unfold unit_run at 1]);
        rewrite say_all_run; eexists; (split; [reflexivity|]);
        cbn [console world written said printed rules stdin stdout];
        rewrite <- !app_assoc; repeat split; reflexivity.
    + run_step ltac:(unfold unit_run at 1).
      destruct (fst (generate_dashboard found)) as [c|];
        run_step ltac:(first [unfold save at 1; rewrite Hw
                             | unfold unit_run at 1]);
        rewrite say_all_run; eexists; (split; [reflexivity|]);
        cbn [console world written said printed rules stdin stdout];
        rewrite <- !app_assoc; repeat split; reflexivity.
  - intros Hcsv Hdocx.
    to_the_scan Hdir Hin Hint Hidx Hread Htext.
    fold base.
    destruct (scan_contract (service ext) (rules (console s)) text (world s))
      as [found w] eqn:Escan.
    cbn [fst snd] in results. subst results.
    cbv beta iota. cbn [console world written rules stdin stdout].
    run_step ltac:(rewrite Hsay).
    run_step ltac:(unfold save at 1;
                   match goal with
                   | |- context [writes ext ?a] =>
                       change (writes ext a) with (writes ext csv)
                   end; rewrite Hcsv).
    run_step ltac:(rewrite say_run).
    run_step ltac:(unfold table at 1; cbn [console said printed rules]).
    run_step ltac:(unfold save at 1;
                   match goal with
                   | |- context [writes ext ?a] =>
                       change (writes ext a) with (writes ext docx)
                   end; rewrite Hdocx).
    eexists. split; [reflexivity|].
    cbn [console world written said printed rules stdin stdout].
    repeat split; reflexivity.
Qed.

Lemma scan_file_writes_its_reports_witness :
  (exists s',
     scan_file sample (start [#"1"; #"5"]) = Ok tt s'
     /\ rules (console s') = RISK_RULES
     /\ stdin (console s') = [#"5"]
     /\ length (written s') = 3)
  /\ (exists s',
        scan_file no_docx (start [#"1"; #"5"]) = Crash LibraryError s'
        /\ length (written s') = 1).
Proof.
  split.
  - destruct (proj1 (@scan_file_writes_its_reports unit str str sample
                (start [#"1"; #"5"])
                [#"notes.txt"; #"Lease.docx"; #"Nda.v2.PDF"]
                #"1" [#"5"] 1%Z #"Lease.docx"
                (#"LEASE" ++ [LF] ++ #"Late fee applies. Venue: Oslo.") []
                [#"This page is intentionally blank"; #" "]
                eq_refl eq_refl eq_refl eq_refl eq_refl
                ltac:(discriminate) ltac:(reflexivity))
             ltac:(reflexivity))
      as [s' [Hrun [Hrules [Hin [_ Hw]]]]].
    exists s'. split; [exact Hrun|]. split; [exact Hrules|].
    split; [exact Hin|]. rewrite Hw. reflexivity.
  - destruct (proj2 (@scan_file_writes_its_reports unit str str no_docx
                (start [#"1"; #"5"])
                [#"notes.txt"; #"Lease.docx"; #"Nda.v2.PDF"]
                #"1" [#"5"] 1%Z #"Lease.docx"
                (#"LEASE" ++ [LF] ++ #"Late fee applies. Venue: Oslo.") []
                [#"This page is intentionally blank"; #" "]
                eq_refl eq_refl eq_refl eq_refl eq_refl
                ltac:(discriminate) ltac:(reflexivity))
             eq_refl eq_refl)
      as [s' [Hrun [_ [_ [_ Hw]]]]].
    exists s'. split; [exact Hrun|]. rewrite Hw. reflexivity.
Defined.

(** X23.  When the text read from the chosen file is empty or white space
    only, the scan stops there: it says that no text was extracted, calls
    no service and writes no report. *)
Theorem scan_file_stops_on_blank_text :
  forall (World page rect : Type) (ext : externals World page rect)
         (s : session World page rect) (dir : list str)
         (answer : str) (rest : list str) (n : Z)
         (file_name text : str) (msgs : list str),
    listdir ext = Some dir ->
    stdin (console s) = answer :: rest ->
    int_of_str ext answer = Some n ->
    index (filter supported dir) (n - 1) = Some file_name ->
    read_document (docx_text ext) (pdf_text ext)
                  (#"../contracts/" ++ file_name) = Some (text, msgs) ->
    strip text = [] ->
    scan_file ext s
    = Ok tt {| console :=
                 {| rules := rules (console s); stdin := rest;
                    stdout := stdout (console s)
                      ++ opening_lines (filter supported dir) file_name
                      ++ msgs
                      ++ [#"No text extracted from file. Cannot scan."] |};
               world := world s; written := written s |}.
Proof.
  intros World page rect ext s dir answer rest n file_name text msgs
         Hdir Hin Hint Hidx Hread Hblank.
  unfold scan_file.
  run_step ltac:(unfold attempt at 1; rewrite Hdir).
  cbv zeta.
  destruct (filter supported dir) as [|f0 files] eqn:Ef;
    [destruct (index_In _ _ Hidx)|].
  run_step ltac:(rewrite say_run).
  run_step ltac:(rewrite list_files_run).
  run_step ltac:(unfold ask at 1; cbn [console said printed stdin];
                 rewrite Hin).
  run_step ltac:(unfold attempt at 1; rewrite Hint).
  run_step ltac:(unfold attempt at 1; rewrite Hidx).
  run_step ltac:(rewrite say_run).
  run_step ltac:(unfold attempt at 1; rewrite Hread).
  run_step ltac:(rewrite say_all_run).
  rewrite Hblank, say_run.
  unfold said, printed, opening_lines.
  cbn [console world written rules stdin stdout].
  rewrite <- !app_assoc. reflexivity.
Qed.

Lemma scan_file_stops_on_blank_text_witness :
  exists s',
    scan_file
      {| service := service sample;
         listdir := listdir sample;
         docx_text := docx_text sample;
         pdf_text := fun _ => Some [#"  "; []];
         pdf_open := pdf_open sample;
         pdf_search := pdf_search sample;
         set_order := set_order sample;
         int_of_str := int_of_str sample;
         writes := writes sample |}
      (start [#"2"]) = Ok tt s'
    /\ written s' = []
    /\ last (stdout (console s')) []
       = #"No text extracted from file. Cannot scan.".
Proof.
  eexists. split.
  - apply (@scan_file_stops_on_blank_text unit str str _ (start [#"2"])
             [#"notes.txt"; #"Lease.docx"; #"Nda.v2.PDF"]
             #"2" [] 2%Z #"Nda.v2.PDF"
             (#"  " ++ [LF] ++ [LF]) []); reflexivity.
  - split; reflexivity.
Defined.

(** X24.  A wrong answer to the file prompt ends the program with an
    exception nothing catches: [ValueError] when the answer is not a
    number, [IndexError] when the number is above the number of files
    listed or not above its negative.  By then the files have been listed
    and the answer read; no file is read, no service called and nothing
    written. *)
Theorem scan_file_dies_of_a_wrong_number :
  forall (World page rect : Type) (ext : externals World page rect)
         (s : session World page rect) (dir : list str)
         (answer : str) (rest : list str),
    listdir ext = Some dir ->
    filter supported dir <> [] ->
    stdin (console s) = answer :: rest ->
    let s' := {| console :=
                   {| rules := rules (console s); stdin := rest;
                      stdout := stdout (console s)
                        ++ [[LF] ++ #"Available contract files:"]
                        ++ file_lines (filter supported dir)
                        ++ [[LF] ++ #"Enter file number to scan: "] |};
                 world := world s; written := written s |} in
    (int_of_str ext answer = None ->
     scan_file ext s = Crash ValueError s')
    /\ (forall n,
          int_of_str ext answer = Some n ->
          (Z.of_nat (length (filter supported dir)) < n
           \/ n <= - Z.of_nat (length (filter supported dir)))%Z ->
          scan_file ext s = Crash IndexError s').
Proof.
  intros World page rect ext s dir answer rest Hdir Hfiles Hin s'.
  split.
  - intros Hint. unfold scan_file.
    run_step ltac:(unfold attempt at 1; rewrite Hdir).
    cbv zeta.
    destruct (filter supported dir) as [|f0 files] eqn:Ef; [congruence|].
    run_step ltac:(rewrite say_run).
    run_step ltac:(rewrite list_files_run).
    run_step ltac:(unfold ask at 1; cbn [console said printed stdin];
                   rewrite Hin).
    run_step ltac:(unfold attempt at 1; rewrite Hint).
    subst s'. rewrite <- !app_assoc. reflexivity.
  - intros n Hint Hout. unfold scan_file.
    run_step ltac:(unfold attempt at 1; rewrite Hdir).
    cbv zeta.
    destruct (filter supported dir) as [|f0 files] eqn:Ef; [congruence|].
    run_step ltac:(rewrite say_run).
    run_step ltac:(rewrite list_files_run).
    run_step ltac:(unfold ask at 1; cbn [console said printed stdin];
                   rewrite Hin).
    run_step ltac:(unfold attempt at 1; rewrite Hint).
    assert (Hidx : index (f0 :: files) (n - 1) = None).
    { unfold index.
      replace ((0 <=? n - 1) && (n - 1 <? Z.of_nat (length (f0 :: files))))%Z
        with false by (symmetry; apply andb_false_iff; lia).
      replace ((- Z.of_nat (length (f0 :: files)) <=? n - 1)
               && (n - 1 <? 0))%Z
        with false by (symmetry; apply andb_false_iff; lia).
      reflexivity. }
    run_step ltac:(unfold attempt at 1; rewrite Hidx).
    subst s'. rewrite <- !app_assoc. reflexivity.
Qed.

Lemma scan_file_dies_of_a_wrong_number_witness :
  scan_file sample (start [#"x"])
  = Crash ValueError
      {| console :=
           {| rules := RISK_RULES; stdin := [];
              stdout := [] ++ [[LF] ++ #"Available contract files:"]
                        ++ file_lines [#"Lease.docx"; #"Nda.v2.PDF"]
                        ++ [[LF] ++ #"Enter file number to scan: "] |};
         world := tt; written := [] |}.
Proof.
  refine (proj1 (@scan_file_dies_of_a_wrong_number unit str str sample
                   (start [#"x"])
                   [#"notes.txt"; #"Lease.docx"; #"Nda.v2.PDF"]
                   #"x" [] _ _ _) _).
  - reflexivity.
  - discriminate.
  - reflexivity.
  - reflexivity.
Defined.

(* --------------------------------------------------------------------- *)
(** *** File numbers and report names *)
(* --------------------------------------------------------------------- *)

Section ChoiceFacts.





End ChoiceFacts.

Section NumberFacts.



End NumberFacts.





(* --------------------------------------------------------------------- *)
(** *** The menu loop *)
(* --------------------------------------------------------------------- *)

Section MenuRuns.

Variables World page rect : Type.
Variable ext : externals World page rect.

Local Abbreviation session := (session World page rect).

(** The state after the menu was shown and a choice read. *)
Definition chosen (rest : list str) (s : session) : session :=
  {| console := {| rules := rules (console s); stdin := rest;
                   stdout := stdout (console s)
                             ++ [menu; #"Enter choice: "] |};
     world := world s; written := written s |}.

(** One round of the loop, the choice read. *)
Lemma main_menu_round (rounds : nat) (s : session) (choice : str)
      (rest : list str) :
  stdin (console s) = choice :: rest ->
  main_menu_loop ext (S rounds) s
  = (if str_eqb choice #"1" then
       and_then (scan_file ext) (fun _ => main_menu_loop ext rounds)
     else if str_eqb choice #"2" then
       and_then (@menu_show_rules World page rect)
                (fun _ => main_menu_loop ext rounds)
     else if str_eqb choice #"3" then
       and_then (@menu_add_keyword World page rect)
                (fun _ => main_menu_loop ext rounds)
     else if str_eqb choice #"4" then
       and_then (@menu_remove_keyword World page rect)
                (fun _ => main_menu_loop ext rounds)
     else if str_eqb choice #"5" then say #"Goodbye!"
     else and_then (say #"Invalid choice. Try again.")
                   (fun _ => main_menu_loop ext rounds))
    (chosen rest s).
Proof.
  intros Hin. cbn [main_menu_loop].
  unfold and_then at 1. rewrite say_run. cbv beta iota.
  unfold and_then at 1. unfold ask at 1.
  cbn [console said printed stdin]. rewrite Hin. cbv beta iota.
  unfold chosen, said, printed. cbn [console world written rules stdin stdout].
  rewrite <- !app_assoc. reflexivity.
Qed.

Lemma main_menu_no_input (rounds : nat) (s : session) :
  stdin (console s) = [] ->
  main_menu_loop ext (S rounds) s
  = Crash EOFError (said [menu; #"Enter choice: "] s).
Proof.
  intros Hin. cbn [main_menu_loop].
  unfold and_then at 1. rewrite say_run. cbv beta iota.
  unfold and_then at 1. unfold ask at 1.
  cbn [console said printed stdin]. rewrite Hin.
  unfold said, printed. cbn [console world written rules stdin stdout].
  rewrite <- !app_assoc. reflexivity.
Qed.

(** The loop is left in the ordinary way through choice 5 only. *)
Lemma main_menu_loop_goodbye (rounds : nat) (s s' : session) (a : unit) :
  main_menu_loop ext rounds s = Ok a s' ->
  last (stdout (console s')) [] = #"Goodbye!".
Proof.
  revert s. induction rounds as [|rounds IH]; intros s H; [discriminate H|].
  destruct (stdin (console s)) as [|choice rest] eqn:Hin.
  { rewrite main_menu_no_input in H by assumption. discriminate H. }
  rewrite (main_menu_round rounds s Hin) in H.
  assert (Hgo : forall (m : Run World page rect unit) (s0 : session),
            and_then m (fun _ => main_menu_loop ext rounds) s0 = Ok a s' ->
            last (stdout (console s')) [] = #"Goodbye!").
  { intros m s0 Hm. unfold and_then in Hm.
    destruct (m s0) as [u s1|e s1|]; [|discriminate Hm|discriminate Hm].
    eapply IH. eassumption. }
  destruct (str_eqb choice #"1"); [eapply Hgo; eassumption|].
  destruct (str_eqb choice #"2"); [eapply Hgo; eassumption|].
  destruct (str_eqb choice #"3"); [eapply Hgo; eassumption|].
  destruct (str_eqb choice #"4"); [eapply Hgo; eassumption|].
  destruct (str_eqb choice #"5"); [|eapply Hgo; eassumption].
  rewrite say_run in H. injection H as _ <-.
  unfold said, printed. cbn [console stdout]. apply last_last.
Qed.

End MenuRuns.

(** The end of input in the middle of [add_keyword]: the prompts are
    printed, and the category named after NEW stands emptied, for the
    keyword that was never given. *)
Example add_keyword_stopped_half_way :
  exists s',
    main_menu sample (start [#"3"; #"nEw"; #"Indemnity"]) = Crash EOFError s'
    /\ dict_get #"Indemnity" (rules (console s')) = Some []
    /\ keys (rules (console s')) = keys RISK_RULES
    /\ stdin (console s') = []
    /\ stdout (console s')
       = [menu; #"Enter choice: ";
          #"Enter risk category (or type NEW to create a new one): ";
          #"Enter new category name: "; #"Enter keyword to add: "].
Proof. eexists. split; [vm_compute; reflexivity|]. repeat split. Qed.

(** The end of input in the middle of [remove_keyword]: the keywords of
    the category have been shown, and the table is as it was. *)
Example remove_keyword_stopped_half_way :
  exists s',
    main_menu sample (start [#"4"; #"Payment Risk"]) = Crash EOFError s'
    /\ rules (console s') = RISK_RULES
    /\ stdout (console s')
       = [menu; #"Enter choice: "; #"Enter category to edit: ";
          #"Keywords in Payment Risk: "
          ++ #"['penalty', 'late fee', 'interest', 'non-payment']";
          #"Enter keyword to remove: "].
Proof. eexists. split; [vm_compute; reflexivity|]. repeat split. Qed.

(** X27.  With its input a finite list of lines, [main_menu] always
    ends: the rounds it is given are never used up.  It ends in the
    ordinary way only through choice 5, the last line printed then being
    "Goodbye!"; otherwise it ends by an exception nothing catches, the end
    of input among them. *)
Theorem main_menu_ends :
  forall (World page rect : Type) (ext : externals World page rect)
         (s : session World page rect),
    match main_menu ext s with
    | Ok _ s' => last (stdout (console s')) [] = #"Goodbye!"
    | Crash e _ =>
        e = EOFError \/ e = ValueError \/ e = IndexError \/ e = LibraryError
    | Unfinished => False
    end.
Proof.
  intros World page rect ext s. unfold main_menu.
  pose proof (@main_menu_loop_steady World page rect ext
                (S (length (stdin (console s)))) s (Nat.lt_succ_diag_r _))
    as Hs.
  pose proof (@main_menu_loop_goodbye World page rect ext
                (S (length (stdin (console s)))) s) as Hg.
  destruct (main_menu_loop ext (S (length (stdin (console s)))) s)
    as [a s'|e s'|]; [eapply Hg; reflexivity | | exact Hs].
  destruct e; auto.
Qed.

(** X28.  However a session at the menu goes and however it ends, the
    end of input in the middle of a command included, input is only read
    and never put back, what was printed and the files written stay and
    are only added to, no category of the table is lost, no category name
    comes to stand twice, and keywords that were all lowercase are all
    lowercase at the end. *)
Theorem main_menu_keeps_the_session_steady :
  forall (World page rect : Type) (ext : externals World page rect)
         (s : session World page rect),
    match main_menu ext s with
    | Ok _ s' | Crash _ s' =>
        (exists read, stdin (console s) = read ++ stdin (console s'))
        /\ (exists more, stdout (console s') = stdout (console s) ++ more)
        /\ (exists more, written s' = written s ++ more)
        /\ (wf (rules (console s)) -> wf (rules (console s')))
        /\ (all_lower (rules (console s)) -> all_lower (rules (console s')))
        /\ incl (keys (rules (console s))) (keys (rules (console s')))
    | Unfinished => True
    end.
Proof.
  intros World page rect ext s. unfold main_menu.
  pose proof (@main_menu_loop_steady World page rect ext
                (S (length (stdin (console s)))) s (Nat.lt_succ_diag_r _))
    as Hs.
  destruct (main_menu_loop ext (S (length (stdin (console s)))) s)
    as [a s'|e s'|]; [| |exact I];
    destruct Hs as [H1 H2 H3 H4 H5 H6]; repeat split; assumption.
Qed.

(** X29.  Choice 5 ends the program at once: the menu and the prompt are
    printed, then "Goodbye!", and the lines that follow on standard input
    stay unread.  A choice that is none of 1 to 5 is answered with
    "Invalid choice. Try again." and the menu comes again, the program
    going on as it would from there. *)
Theorem menu_exit_and_unknown_choice :
  forall (World page rect : Type) (ext : externals World page rect)
         (s : session World page rect) (choice : str) (rest : list str),
    stdin (console s) = choice :: rest ->
    (choice = #"5" ->
     main_menu ext s
     = Ok tt {| console :=
                  {| rules := rules (console s); stdin := rest;
                     stdout := stdout (console s)
                               ++ [menu; #"Enter choice: "; #"Goodbye!"] |};
                world := world s; written := written s |})
    /\ (~ In choice [#"1"; #"2"; #"3"; #"4"; #"5"] ->
        main_menu ext s
        = main_menu ext
            {| console :=
                 {| rules := rules (console s); stdin := rest;
                    stdout := stdout (console s)
                              ++ [menu; #"Enter choice: ";
                                  #"Invalid choice. Try again."] |};
               world := world s; written := written s |}).
Proof.
  intros World page rect ext s choice rest Hin. unfold main_menu.
  rewrite (main_menu_round ext (length (stdin (console s))) s Hin).
  split.
  - intros ->.
    change (str_eqb #"5" #"1") with false.
    change (str_eqb #"5" #"2") with false.
    change (str_eqb #"5" #"3") with false.
    change (str_eqb #"5" #"4") with false.
    change (str_eqb #"5" #"5") with true. cbv beta iota.
    rewrite say_run. unfold said, chosen, printed.
    cbn [console world written rules stdin stdout].
    rewrite <- !app_assoc. reflexivity.
  - intros Hnot.
    assert (E : forall k, In k [#"1"; #"2"; #"3"; #"4"; #"5"] ->
                          str_eqb choice k = false).
    { intros k Hk. apply str_eqb_neq. intros ->. contradiction. }
    rewrite !E by (simpl; auto 6).
    unfold and_then. rewrite say_run. cbv beta iota.
    rewrite Hin. cbn [length console stdin].
    f_equal. unfold said, chosen, printed.
    cbn [console world written rules stdin stdout].
    rewrite <- !app_assoc. reflexivity.
Qed.

Lemma menu_exit_and_unknown_choice_witness :
  main_menu sample (start [#"5"; #"1"])
  = Ok tt {| console :=
               {| rules := RISK_RULES; stdin := [#"1"];
                  stdout := [] ++ [menu; #"Enter choice: "; #"Goodbye!"] |};
             world := tt; written := [] |}.
Proof.
  exact (proj1 (@menu_exit_and_unknown_choice unit str str sample
                  (start [#"5"; #"1"]) #"5" [#"1"] eq_refl) eq_refl).
Defined.

(** X30.  Whatever the folder holds and whatever is answered, [scan_file]
    ends, by itself or by an exception, and leaves the table of rules
    exactly as it was; it takes nothing back of what was printed or
    written. *)
Theorem scan_file_never_touches_the_table :
  forall (World page rect : Type) (ext : externals World page rect)
         (s : session World page rect),
    match scan_file ext s with
    | Ok _ s' | Crash _ s' =>
        rules (console s') = rules (console s)
        /\ (exists read, stdin (console s) = read ++ stdin (console s'))
        /\ (exists more, stdout (console s') = stdout (console s) ++ more)
        /\ (exists more, written s' = written s ++ more)
    | Unfinished => False
    end.
Proof.
  intros World page rect ext s.
  pose proof (@scan_file_quiet World page rect ext s) as H.
  destruct (scan_file ext s) as [a s'|e s'|]; [| |exact H];
    destruct H as [Hr [H1 H2 H3 _ _ _]]; repeat split; assumption.
Qed.

